(** * Custom_Malloc: a shallow embedding of Main.c

    The allocator of [Main.c] keeps its block headers inside the arena it
    hands out, so the embedding works on a flat, byte-addressed memory:
    a header is read and written through little-endian loads and stores
    at the address of the block, exactly where the C code reads and writes
    it.  Sizes are [size_t] values (64 bits, wrap-around written out),
    the [free] flag is an [unsigned int] (32 bits), pointers are 64-bit
    addresses with [0] for [NULL].  The layout is the LP64 one:
    [sizeof(Block) = 32] with [size] at offset 0, [free] at offset 8,
    [next] at offset 16 and [prev] at offset 24.

    Loops that follow [next]/[prev] links take a fuel argument; [None]
    means that the fuel ran out before the loop left.  Zero-Allocate,
    which stores through the pointer it obtained, ends in an [outcome]
    that tells a return from a store outside the arena. *)

From Stdlib Require Import ZArith Lia List Bool String.
From stdpp Require Import base gmap.

Open Scope Z_scope.

(** ** Machine integers *)

Definition wrap64 (x : Z) : Z := x mod 2 ^ 64.
Definition wrap32 (x : Z) : Z := x mod 2 ^ 32.

(** [#define ALIGNMENT 8] *)
Definition ALIGNMENT : Z := 8.

(** [#define ALIGN(size) (((size) + (ALIGNMENT - 1)) & ~(ALIGNMENT - 1))]
    on a [size_t] operand: the addition wraps, and [~7] is converted to
    [size_t] before the conjunction. *)
Definition ALIGN (size : Z) : Z :=
  Z.land (wrap64 (size + (ALIGNMENT - 1))) (wrap64 (Z.lnot (ALIGNMENT - 1))).

(** [sizeof(Block)] *)
Definition sizeof_Block : Z := 32.

(** [NULL] and the failure value [(void * )-1] of [sbrk]. *)
Definition NULL : Z := 0.
Definition SBRK_FAILED : Z := 2 ^ 64 - 1.

(** ** Byte-addressed memory *)

Abbreviation memory := (gmap Z Z).

(** A byte that was never written reads as zero (fresh pages from the
    operating system are zero-filled). *)
Definition load8 (m : memory) (a : Z) : Z := default 0 (m !! a) mod 256.
Definition store8 (m : memory) (a v : Z) : memory := <[a := v mod 256]> m.

(** Little-endian load and store of [n] bytes. *)
Fixpoint loadn (n : nat) (m : memory) (a : Z) : Z :=
  match n with
  | O => 0
  | S k => load8 m a + 256 * loadn k m (a + 1)
  end.

Fixpoint storen (n : nat) (m : memory) (a v : Z) : memory :=
  match n with
  | O => m
  | S k => storen k (store8 m a v) (a + 1) (v / 256)
  end.

(** ** Block headers

    [typedef struct block_type { size_t size; unsigned int free;
    struct block_type *next; struct block_type *prev; } Block;] *)

Definition off_size : Z := 0.
Definition off_free : Z := 8.
Definition off_next : Z := 16.
Definition off_prev : Z := 24.

Definition b_size (m : memory) (b : Z) : Z := loadn 8 m (b + off_size).
Definition b_free (m : memory) (b : Z) : Z := loadn 4 m (b + off_free).
Definition b_next (m : memory) (b : Z) : Z := loadn 8 m (b + off_next).
Definition b_prev (m : memory) (b : Z) : Z := loadn 8 m (b + off_prev).

Definition set_size (m : memory) (b v : Z) : memory := storen 8 m (b + off_size) v.
Definition set_free (m : memory) (b v : Z) : memory := storen 4 m (b + off_free) v.
Definition set_next (m : memory) (b v : Z) : memory := storen 8 m (b + off_next) v.
Definition set_prev (m : memory) (b v : Z) : memory := storen 8 m (b + off_prev) v.

(** ** Allocator state

    The globals [head] and [last], the memory, the program break with the
    bounds inside which the operating system lets it move, and the lines
    written to [stderr]. *)

Record state : Type := mkState {
  mem : memory;
  head : Z;
  last : Z;
  brk : Z;
  brk_min : Z;
  brk_max : Z;
  err : list string
}.

Definition with_mem (s : state) (m : memory) : state :=
  mkState m (head s) (last s) (brk s) (brk_min s) (brk_max s) (err s).
Definition with_head_last (s : state) (h l : Z) : state :=
  mkState (mem s) h l (brk s) (brk_min s) (brk_max s) (err s).
Definition with_last (s : state) (l : Z) : state :=
  mkState (mem s) (head s) l (brk s) (brk_min s) (brk_max s) (err s).
Definition with_brk (s : state) (b : Z) : state :=
  mkState (mem s) (head s) (last s) b (brk_min s) (brk_max s) (err s).
Definition report (s : state) (msg : string) : state :=
  mkState (mem s) (head s) (last s) (brk s) (brk_min s) (brk_max s)
          (err s ++ [msg]).

(** [errno] as a failed [sbrk] leaves it, and [strerror] of it as glibc
    words it in the C locale. *)
Inductive errno_value : Type :=
| ENOMEM.

Definition strerror (e : errno_value) : string :=
  match e with
  | ENOMEM => "Cannot allocate memory"
  end.

(** The line that [perror(msg)] writes: [msg], a colon and a blank, then
    [strerror(errno)]. *)
Definition perror_line (msg : string) (e : errno_value) : string :=
  String.append msg (String.append ": " (strerror e)).

(** The empty heap the program starts with: [head = last = NULL], the
    break at [b], room for [room] bytes of growth. *)
Definition init_state (b room : Z) : state :=
  mkState ∅ NULL NULL b b (b + room) [].

(** [sbrk(increment)] of glibc on Linux: the argument is an [intptr_t],
    so an unsigned increment of [2^63] or more arrives as a negative one.
    Inside the bounds the break moves and the old break is returned.  A
    request to lower the break below the start of the arena is no error
    either: the kernel leaves the break where it is, the library finds it
    not below the address it asked for, and the old break is returned.
    Otherwise (the break would pass its limit, or the address would be
    negative) the call returns [(void * )-1], with [errno] set to
    [ENOMEM]. *)
Definition sbrk (increment : Z) (s : state) : Z * state :=
  let d := if increment <? 2 ^ 63 then increment else increment - 2 ^ 64 in
  let nb := brk s + d in
  if (brk_min s <=? nb) && (nb <=? brk_max s)
  then (brk s, with_brk s nb)
  else if (0 <=? nb) && (nb <? brk_min s) && (d <=? 0)
  then (brk s, s)
  else (SBRK_FAILED, s).

(** ** my_malloc *)

(** Lines 79-98: the block [current] is free and large enough. *)
Definition malloc_reuse (aligned_size current : Z) (s : state) : Z * state :=
  let m1 := set_free (mem s) current 0 in
  let m2 :=
    if wrap64 (aligned_size + sizeof_Block + ALIGNMENT) <=? b_size m1 current then
      let new_block := current + sizeof_Block + aligned_size in
      let m := set_size m1 new_block
                 (wrap64 (b_size m1 current - aligned_size - sizeof_Block)) in
      let m := set_prev m new_block current in
      let m := set_next m new_block (b_next m current) in
      let m := set_next m current new_block in
      if b_next m new_block =? NULL then m
      else set_prev m (b_next m new_block) new_block
    else m1 in
  (current + sizeof_Block, with_mem s m2).

(** Lines 109-136: no block fits, the arena grows. *)
Definition malloc_grow (aligned_size : Z) (s : state) : Z * state :=
  let '(mem_block, s1) := sbrk (wrap64 (aligned_size + sizeof_Block)) s in
  if mem_block =? SBRK_FAILED
  then (NULL, report s1 (perror_line "sbrk error" ENOMEM))
  else
    let allocated_block := mem_block in
    let m := set_free (mem s1) allocated_block 0 in
    let m := set_size m allocated_block aligned_size in
    let m := set_next m allocated_block NULL in
    let m := set_prev m allocated_block NULL in
    if head s1 =? NULL then
      (allocated_block + sizeof_Block,
       with_head_last (with_mem s1 m) allocated_block allocated_block)
    else
      let m := set_prev m allocated_block (last s1) in
      let m := set_next m (last s1) allocated_block in
      (allocated_block + sizeof_Block, with_last (with_mem s1 m) allocated_block).

(** Lines 76-104: the first-fit walk. *)
Fixpoint malloc_loop (fuel : nat) (aligned_size current : Z) (s : state)
  : option (Z * state) :=
  match fuel with
  | O => None
  | S fuel' =>
      if current =? NULL then Some (malloc_grow aligned_size s)
      else if (b_free (mem s) current =? 1)
              && (aligned_size <=? b_size (mem s) current)
      then Some (malloc_reuse aligned_size current s)
      else malloc_loop fuel' aligned_size (b_next (mem s) current) s
  end.

Definition my_malloc (fuel : nat) (size : Z) (s : state) : option (Z * state) :=
  malloc_loop fuel (ALIGN size) (head s) s.

(** ** my_free *)

(** Lines 168-172: fold every free successor into [free_block]; returns
    the memory and the block at which the walk stopped. *)
Fixpoint free_fwd (fuel : nat) (m : memory) (free_block current_fwd : Z)
  : option (memory * Z) :=
  match fuel with
  | O => None
  | S fuel' =>
      if negb (current_fwd =? NULL) && (b_free m current_fwd =? 1) then
        let m' := set_size m free_block
                    (wrap64 (b_size m free_block
                             + wrap64 (sizeof_Block + b_size m current_fwd))) in
        free_fwd fuel' m' free_block (b_next m' current_fwd)
      else Some (m, current_fwd)
  end.

(** Lines 183-196: fold [free_block] into every free predecessor. *)
Fixpoint free_bck (fuel : nat) (m : memory) (free_block current_bck : Z)
  : option memory :=
  match fuel with
  | O => None
  | S fuel' =>
      if negb (current_bck =? NULL) && (b_free m current_bck =? 1) then
        let m := set_size m current_bck
                   (wrap64 (b_size m current_bck
                            + wrap64 (sizeof_Block + b_size m free_block))) in
        let m := set_next m current_bck (b_next m free_block) in
        let m := if b_next m free_block =? NULL then m
                 else set_prev m (b_next m free_block) current_bck in
        free_bck fuel' m current_bck (b_prev m current_bck)
      else Some m
  end.

Definition my_free (fuel : nat) (allocated_block : Z) (s : state) : option state :=
  if allocated_block =? NULL then Some (report s "invalid memory block")
  else
    let free_block := allocated_block - sizeof_Block in
    let m := set_free (mem s) free_block 1 in
    match free_fwd fuel m free_block (b_next m free_block) with
    | None => None
    | Some (m, current_fwd) =>
        let m := set_next m free_block current_fwd in
        let m := if current_fwd =? NULL then m
                 else set_prev m current_fwd free_block in
        match free_bck fuel m free_block (b_prev m free_block) with
        | None => None
        | Some m => Some (with_mem s m)
        end
    end.

(** ** my_calloc *)

(** How a call that stores through the pointer it obtained ends: it
    returns; or a store lands outside the arena, which is undefined
    behaviour and where the run ends; or the fuel of an inner loop runs
    out. *)
Inductive outcome (A : Type) : Type :=
| Returns (a : A)
| Faults
| NoFuel.

Arguments Returns {A} a.
Arguments Faults {A}.
Arguments NoFuel {A}.

(** The result of a call that returned. *)
Definition returned {A : Type} (o : outcome A) : option A :=
  match o with
  | Returns a => Some a
  | Faults | NoFuel => None
  end.

(** The arena: the bytes from the start of the heap up to the break. *)
Definition in_arena (s : state) (a : Z) : bool :=
  (brk_min s <=? a) && (a <? brk s).

(** Lines 245-249: [for (i = 0; i < Total_size; i++) ptr[i] = 0;] with
    [k] iterations left, in the state [s] that Allocate left.  The
    address [ptr + i] is a 64-bit pointer; [None] when a store falls
    outside the arena. *)
Fixpoint calloc_loop (k : nat) (s : state) (m : memory) (ptr i : Z)
  : option memory :=
  match k with
  | O => Some m
  | S k' =>
      if in_arena s (wrap64 (ptr + i))
      then calloc_loop k' s (store8 m (wrap64 (ptr + i)) 0) ptr (i + 1)
      else None
  end.

Section Calloc.
(** The allocation function that [my_calloc] delegates to. *)
Variable malloc : Z -> state -> option (Z * state).

Definition calloc_with (value size : Z) (s : state) : outcome (Z * state) :=
  if (size =? 0) || (value =? 0) then Returns (NULL, s)
  else
    let Total_size := wrap64 (size * value) in
    if negb (Total_size / value =? size) then Returns (NULL, s)
    else
      match malloc Total_size s with
      | None => NoFuel
      | Some (new_pointer, s1) =>
          if new_pointer =? NULL
          then Returns (NULL, report s1 "my_calloc failed")
          else
            match calloc_loop (Z.to_nat Total_size) s1 (mem s1) new_pointer 0 with
            | None => Faults
            | Some m => Returns (new_pointer, with_mem s1 m)
            end
      end.
End Calloc.

Definition my_calloc (fuel : nat) (value size : Z) (s : state)
  : outcome (Z * state) :=
  calloc_with (my_malloc fuel) value size s.

(** ** my_realloc *)

(** [memcpy(dest, src, n)], byte by byte from the low address. *)
Fixpoint memcpy (k : nat) (m : memory) (dest src : Z) : memory :=
  match k with
  | O => m
  | S k' => memcpy k' (store8 m dest (load8 m src)) (dest + 1) (src + 1)
  end.

(** Lines 291-315: shrink in place. *)
Definition realloc_shrink (aligned_size ptr : Z) (s : state) : Z * state :=
  let current := ptr - sizeof_Block in
  let m := mem s in
  let m :=
    if wrap64 (aligned_size + sizeof_Block + ALIGNMENT) <=? b_size m current then
      let new_block := current + sizeof_Block + aligned_size in
      let m := set_free m new_block 1 in
      let m := set_prev m new_block current in
      let m := set_next m new_block (b_next m current) in
      let m := set_size m new_block
                 (wrap64 (b_size m current - aligned_size - sizeof_Block)) in
      let m := if b_next m current =? NULL then m
               else set_prev m (b_next m current) new_block in
      set_next m current new_block
    else m in
  (ptr, with_mem s (set_size m current aligned_size)).

(** Lines 318-335: allocate, copy, free. *)
Definition realloc_grow (fuel : nat) (aligned_size ptr : Z) (s : state)
  : option (Z * state) :=
  let current := ptr - sizeof_Block in
  match my_malloc fuel aligned_size s with
  | None => None
  | Some (new_ptr, s1) =>
      if new_ptr =? NULL then Some (NULL, report s1 "realoc error")
      else
        let m := memcpy (Z.to_nat (b_size (mem s1) current)) (mem s1) new_ptr ptr in
        match my_free fuel ptr (with_mem s1 m) with
        | None => None
        | Some s2 => Some (new_ptr, s2)
        end
  end.

Definition my_realloc (fuel : nat) (ptr size : Z) (s : state)
  : option (Z * state) :=
  let aligned_size := ALIGN size in
  if ptr =? NULL then my_malloc fuel size s
  else if size =? 0 then
    match my_free fuel ptr s with
    | None => None
    | Some s1 => Some (NULL, s1)
    end
  else
    let current := ptr - sizeof_Block in
    if aligned_size <=? b_size (mem s) current then
      Some (realloc_shrink aligned_size ptr s)
    else if b_size (mem s) current <? aligned_size then
      realloc_grow fuel aligned_size ptr s
    else Some (NULL, report s "invalid ptr").

(** ** my_malloc_stats *)

Record stats : Type := mkStats {
  total_blocks : Z;
  free_blocks : Z;
  used_blocks : Z;
  used_bytes : Z;
  free_bytes : Z
}.

(** Lines 372-388. *)
Fixpoint stats_loop (fuel : nat) (m : memory) (current : Z) (st : stats)
  : option stats :=
  match fuel with
  | O => None
  | S fuel' =>
      if current =? NULL then Some st
      else
        let st := mkStats (wrap64 (total_blocks st + 1)) (free_blocks st)
                          (used_blocks st) (used_bytes st) (free_bytes st) in
        let st :=
          if b_free m current =? 0 then
            mkStats (total_blocks st) (free_blocks st)
                    (wrap64 (used_blocks st + 1)) (b_size m current) (free_bytes st)
          else if b_free m current =? 1 then
            mkStats (total_blocks st) (wrap64 (free_blocks st + 1))
                    (used_blocks st) (used_bytes st) (b_size m current)
          else st in
        stats_loop fuel' m (b_next m current) st
  end.

(** The numbers that [my_malloc_stats] prints. *)
Definition my_malloc_stats (fuel : nat) (s : state) : option stats :=
  stats_loop fuel (mem s) (head s) (mkStats 0 0 0 0 0).

(** Line 400: the fragmentation line reads "N/A" unless
    [used_bytes + free_bytes > 0]. *)
Definition frag_not_applicable (st : stats) : bool :=
  negb (0 <? wrap64 (used_bytes st + free_bytes st)).

(** * Vocabulary of the statements *)

(** ** Separation and frames *)

(** Two headers that do not overlap. *)
Definition sep (a b : Z) : Prop := a + sizeof_Block <= b \/ b + sizeof_Block <= a.

(** Bytes outside [a, a + n) are the same in both memories. *)
Definition same_outside (m m' : memory) (a n : Z) : Prop :=
  forall x, x < a \/ a + n <= x -> load8 m' x = load8 m x.

(** The header of [b] holds the same bytes in [m] and [m']. *)
Definition same_header (m m' : memory) (b : Z) : Prop :=
  forall x, b <= x < b + sizeof_Block -> load8 m' x = load8 m x.

(** ** Diagnostics *)

(** [s'] differs from [s] in its diagnostics only by lines of [allowed]
    added at the end. *)
Definition reports_only (allowed : list string) (s s' : state) : Prop :=
  exists new, err s' = err s ++ new /\ forall x, In x new -> In x allowed.

(** ** The block list *)

(** [lseg link a l z]: following [link] from [a] visits the blocks of [l],
    none of them null, and arrives at [z]. *)
Fixpoint lseg (link : Z -> Z) (a : Z) (l : list Z) (z : Z) : Prop :=
  match l with
  | [] => a = z
  | x :: l' => a = x /\ x <> NULL /\ lseg link (link x) l' z
  end.

(** The test of line 79. *)
Definition fits (m : memory) (aligned_size b : Z) : bool :=
  (b_free m b =? 1) && (aligned_size <=? b_size m b).

(** The bytes that the blocks of [l] occupy, headers included. *)
Fixpoint span (m : memory) (l : list Z) : Z :=
  match l with
  | [] => 0
  | x :: l' => sizeof_Block + b_size m x + span m l'
  end.

(** The headers of [l] are pairwise separate. *)
Fixpoint all_sep (l : list Z) : Prop :=
  match l with
  | [] => True
  | x :: l' => (forall y, In y l' -> sep x y) /\ all_sep l'
  end.

(** Every header of [l1] is separate from every header of [l2]. *)
Definition cross_sep (l1 l2 : list Z) : Prop :=
  forall x y, In x l1 -> In y l2 -> sep x y.

(** [dll m h L]: in memory [m] the blocks of [L] form the list anchored at
    [h]: [next] links lead from [h] through [L] to null, [prev] links lead
    back from the last block to null, and no two headers overlap. *)
Definition dll (m : memory) (h : Z) (L : list Z) : Prop :=
  lseg (b_next m) h L NULL
  /\ lseg (b_prev m) (List.last L NULL) (rev L) NULL
  /\ all_sep L
  /\ (forall x, In x L -> 0 < x < 2 ^ 64).

(** No two neighbours of the list are free at the same time. *)
Fixpoint no_adjacent_free (m : memory) (L : list Z) : Prop :=
  match L with
  | [] => True
  | x :: L' =>
      match L' with
      | [] => True
      | y :: _ => ~ (b_free m x = 1 /\ b_free m y = 1)
      end /\ no_adjacent_free m L'
  end.

(** [laid_out m L lo hi]: the blocks of [L] lie in ascending address
    order inside [lo, hi), each one (header and payload) ending before
    the next one starts. *)
Fixpoint laid_out (m : memory) (L : list Z) (lo hi : Z) : Prop :=
  match L with
  | [] => lo <= hi
  | x :: L' => lo <= x /\ laid_out m L' (x + sizeof_Block + b_size m x) hi
  end.

(** A well-formed heap: the list anchored at [head] is laid out in
    address order below the break, [last] is its tail, and the arena lies
    in the lower half of the address space. *)
Definition heap_ok (s : state) (L : list Z) : Prop :=
  dll (mem s) (head s) L
  /\ laid_out (mem s) L 1 (brk s)
  /\ last s = List.last L NULL
  /\ 0 < brk s <= 2 ^ 63.

(** The links of the blocks of [L] stay inside [L]. *)
Definition linked_within (m : memory) (L : list Z) : Prop :=
  forall x, In x L ->
    (b_next m x = NULL \/ In (b_next m x) L)
    /\ (b_prev m x = NULL \/ In (b_prev m x) L).

(** The byte at [a] belongs to no header of [L]. *)
Definition outside_headers (L : list Z) (a : Z) : Prop :=
  forall x, In x L -> a < x \/ x + sizeof_Block <= a.

(** ** Steps of the operations *)

(** Lines 174-178: link [fb] to the block [cf] that ended the forward
    walk. *)
Definition free_link (m : memory) (fb cf : Z) : memory :=
  let m := set_next m fb cf in
  if cf =? NULL then m else set_prev m cf fb.

(** One round of the backward loop of Free (lines 186-194): the
    predecessor [x] absorbs [fb], whose successor is [cf]. *)
Definition absorb (m : memory) (fb x : Z) : memory :=
  let m := set_size m x
             (wrap64 (b_size m x + wrap64 (sizeof_Block + b_size m fb))) in
  let m := set_next m x (b_next m fb) in
  if b_next m fb =? NULL then m else set_prev m (b_next m fb) x.

(** The memory that [my_free] leaves, when the loops have enough fuel. *)
Definition free_mem (fuel : nat) (m : memory) (fb : Z) : option memory :=
  let m0 := set_free m fb 1 in
  match free_fwd fuel m0 fb (b_next m0 fb) with
  | None => None
  | Some (m1, cf) =>
      free_bck fuel (free_link m1 fb cf) fb (b_prev (free_link m1 fb cf) fb)
  end.

(** Lines 84-93 on the memory [m1] in which [current] is already marked
    used. *)
Definition split_mem (m1 : memory) (aligned_size current : Z) : memory :=
  let new_block := current + sizeof_Block + aligned_size in
  let m := set_size m1 new_block
             (wrap64 (b_size m1 current - aligned_size - sizeof_Block)) in
  let m := set_prev m new_block current in
  let m := set_next m new_block (b_next m current) in
  let m := set_next m current new_block in
  if b_next m new_block =? NULL then m
  else set_prev m (b_next m new_block) new_block.

(** The memory after [k] stores of a zero byte from [ptr + i] upward:
    what the zero-fill of Zero-Allocate leaves when it stays inside the
    arena. *)
Fixpoint zero_fill (k : nat) (m : memory) (ptr i : Z) : memory :=
  match k with
  | O => m
  | S k' => zero_fill k' (store8 m (ptr + i) 0) ptr (i + 1)
  end.

(** Lines 297-310 of Resize: the remainder behind the first
    [aligned_size] payload bytes of [current] becomes a free block of its
    own, linked in right after [current]. *)
Definition shrink_split (m : memory) (aligned_size current : Z) : memory :=
  let new_block := current + sizeof_Block + aligned_size in
  let m := set_free m new_block 1 in
  let m := set_prev m new_block current in
  let m := set_next m new_block (b_next m current) in
  let m := set_size m new_block
             (wrap64 (b_size m current - aligned_size - sizeof_Block)) in
  let m := if b_next m current =? NULL then m
           else set_prev m (b_next m current) new_block in
  set_next m current new_block.

(** ** Concrete heaps *)

(** Results of a call, for stating concrete runs. *)
Definition run_state (o : option (Z * state)) (d : state) : state :=
  match o with Some (_, s) => s | None => d end.
Definition run_ptr (o : option (Z * state)) : Z :=
  match o with Some (p, _) => p | None => NULL end.

(** Runs of calls, for concrete heaps. *)
Definition then_malloc (size : Z) (s : state) : state :=
  run_state (my_malloc 16 size s) s.
Definition then_free (ptr : Z) (s : state) : state :=
  match my_free 16 ptr s with Some s' => s' | None => s end.
Definition then_realloc (ptr size : Z) (s : state) : state :=
  run_state (my_realloc 16 ptr size s) s.

(** The heap after [my_malloc(32)] on an empty heap at address 4096. *)
Definition heap_one_block : state :=
  run_state (my_malloc 5 32 (init_state 4096 1024)) (init_state 4096 1024).

(** A heap that cannot grow: one 8-byte block, the break at its limit. *)
Definition heap_full : state :=
  run_state (my_malloc 5 8 (init_state 4096 40)) (init_state 4096 40).

(** The heap after [p = my_malloc(64); my_free(p)] on an empty heap. *)
Definition heap_one_free : state :=
  match my_malloc 5 64 (init_state 4096 1024) with
  | Some (p, s) => match my_free 5 p s with Some s' => s' | None => s end
  | None => init_state 4096 1024
  end.

(** The heap after [p = my_malloc(64); my_free(p); q = my_malloc(8)]. *)
Definition heap_after_split : option (Z * state) := my_malloc 5 8 heap_one_free.

(** The heap after the first two steps of [main]:
    [my_malloc(32); my_calloc(4, sizeof(int))]. *)
Definition heap_two_used : state :=
  run_state (returned (my_calloc 5 4 4 heap_one_block)) heap_one_block.

(** Three 16-byte blocks at 4096, 4144 and 4192; the outer two freed. *)
Definition heap_free_used_free : state :=
  then_free 4224 (then_free 4128
    (then_malloc 16 (then_malloc 16 (then_malloc 16 (init_state 4096 1024))))).

(** The heap after [a = my_malloc(64); b = my_malloc(64); c = my_malloc(8);
    d = my_malloc(8); my_free(b); my_realloc(a, 8)]: the shrink splits a
    free 24-byte remainder off [a], right before the free block [b]. *)
Definition heap_shrunk : state :=
  then_realloc 4128 8 (then_free 4224
    (then_malloc 8 (then_malloc 8 (then_malloc 64 (then_malloc 64
      (init_state 4096 1024)))))).

(** That heap after [my_free(d)]. *)
Definition heap_adjacent_free : state := then_free 4360 heap_shrunk.

(** The heap after [x = my_malloc(24); my_free(x)] on an empty heap: one
    free block of 24 bytes. *)
Definition heap_free_24 : state :=
  then_free 4128 (then_malloc 24 (init_state 4096 1024)).

(** That heap after [p = my_malloc(16)], after [my_free(p)] and after
    [q = my_malloc(16)]. *)
Definition heap_24_taken : state := then_malloc 16 heap_free_24.
Definition heap_24_freed : state := then_free 4128 heap_24_taken.
Definition heap_24_retaken : state := then_malloc 16 heap_24_freed.

(** The heap after [my_malloc(64)] on an empty heap, and after
    [my_realloc] of that block to 8 bytes. *)
Definition heap_one_64 : state := then_malloc 64 (init_state 4096 1024).
Definition heap_64_shrunk : state := then_realloc 4128 8 heap_one_64.

(** The heap after [a = my_malloc(8); b = my_malloc(8); my_free(b);
    my_free(a)]: the block at 4096 has absorbed the tail block at 4136.
    Then [my_calloc(48, 1)] takes it, [p = my_malloc(64)] grows the arena,
    and [my_free(p); q = my_malloc(64)] follow. *)
Definition heap_tail_absorbed : state :=
  then_free 4128 (then_free 4168
    (then_malloc 8 (then_malloc 8 (init_state 4096 4096)))).
Definition heap_tail_zeroed : state :=
  run_state (returned (my_calloc 16 48 1 heap_tail_absorbed)) heap_tail_absorbed.
Definition heap_tail_grown : state := then_malloc 64 heap_tail_zeroed.
Definition heap_tail_freed : state := then_free 4208 heap_tail_grown.
Definition heap_tail_regrown : state := then_malloc 64 heap_tail_freed.

(** The heap after [my_malloc(SIZE_MAX)] on an empty heap. *)
Definition heap_size_max : state := then_malloc (2 ^ 64 - 1) (init_state 4096 1024).

(** The example of the specification, on the empty heap at 4096:
    [a = my_malloc(16); b = my_malloc(16); my_free(a); c = my_malloc(16)]. *)
Definition example_a : option (Z * state) := my_malloc 5 16 (init_state 4096 1024).
Definition example_b : option (Z * state) :=
  my_malloc 5 16 (run_state example_a (init_state 4096 1024)).
Definition example_c : option (Z * state) :=
  my_malloc 5 16 (then_free (run_ptr example_a)
                            (run_state example_b (init_state 4096 1024))).

(** ** What the statistics see *)

(** The size of the last block of [l] whose [free] field is [flag], or
    [d] when there is none. *)
Fixpoint last_seen (m : memory) (flag : Z) (l : list Z) (d : Z) : Z :=
  match l with
  | [] => d
  | x :: l' => last_seen m flag l' (if b_free m x =? flag then b_size m x else d)
  end.

(** The number of blocks of [l] whose [free] field is [flag]. *)
Fixpoint count_flag (m : memory) (flag : Z) (l : list Z) : Z :=
  match l with
  | [] => 0
  | x :: l' => (if b_free m x =? flag then 1 else 0) + count_flag m flag l'
  end.

(** * Properties *)

(** ** Loads and stores *)

Lemma load8_range (m : memory) (a : Z) : 0 <= load8 m a < 256.
Proof. unfold load8. apply Z.mod_pos_bound. lia. Qed.

Lemma load8_store8 (m : memory) (a b v : Z) :
  load8 (store8 m a v) b = if decide (a = b) then v mod 256 else load8 m b.
Proof.
  unfold load8, store8. rewrite lookup_insert. destruct (decide (a = b)); simpl.
  - apply Z.mod_mod. lia.
  - reflexivity.
Qed.

Lemma load8_storen_out (n : nat) (m : memory) (a v x : Z) :
  x < a \/ a + Z.of_nat n <= x ->
  load8 (storen n m a v) x = load8 m x.
Proof.
  revert m a v. induction n as [|k IH]; intros m a v Hx; simpl; [reflexivity|].
  rewrite IH by lia. rewrite load8_store8.
  destruct (decide (a = x)); [lia | reflexivity].
Qed.

Lemma load8_storen_in (n : nat) (m : memory) (a v x : Z) :
  a <= x < a + Z.of_nat n ->
  load8 (storen n m a v) x = (v / 256 ^ (x - a)) mod 256.
Proof.
  revert m a v. induction n as [|k IH]; intros m a v Hx; simpl; [lia|].
  destruct (decide (a = x)) as [->|Hne].
  - rewrite load8_storen_out by lia. rewrite load8_store8.
    destruct (decide (x = x)); [|congruence].
    rewrite Z.sub_diag. simpl. rewrite Z.div_1_r. reflexivity.
  - rewrite IH by lia.
    replace (x - a) with (1 + (x - (a + 1))) by lia.
    rewrite Z.pow_add_r by lia. rewrite <- Z.div_div by lia.
    reflexivity.
Qed.

Lemma loadn_range (n : nat) (m : memory) (a : Z) :
  0 <= loadn n m a < 256 ^ Z.of_nat n.
Proof.
  revert a. induction n as [|k IH]; intros a.
  - simpl. lia.
  - cbn [loadn]. rewrite Nat2Z.inj_succ, Z.pow_succ_r by lia.
    pose proof (load8_range m a). specialize (IH (a + 1)). lia.
Qed.

Lemma loadn_storen_same (n : nat) (m : memory) (a v : Z) :
  loadn n (storen n m a v) a = v mod 256 ^ Z.of_nat n.
Proof.
  revert m a v. induction n as [|k IH]; intros m a v.
  - simpl. rewrite Z.mod_1_r. reflexivity.
  - cbn [loadn storen]. rewrite IH, load8_storen_out by lia.
    rewrite load8_store8. destruct (decide (a = a)); [|congruence].
    rewrite Nat2Z.inj_succ, Z.pow_succ_r by lia.
    rewrite Z.rem_mul_r by lia. reflexivity.
Qed.

Lemma loadn_storen_disj (n n' : nat) (m : memory) (a a' v : Z) :
  a' + Z.of_nat n' <= a \/ a + Z.of_nat n <= a' ->
  loadn n' (storen n m a v) a' = loadn n' m a'.
Proof.
  revert a'. induction n' as [|k IH]; intros a' H; [reflexivity|].
  cbn [loadn]. rewrite IH by lia. rewrite load8_storen_out by lia. reflexivity.
Qed.

Lemma loadn_ext (n : nat) (m m' : memory) (a : Z) :
  (forall x, a <= x < a + Z.of_nat n -> load8 m' x = load8 m x) ->
  loadn n m' a = loadn n m a.
Proof.
  revert a. induction n as [|k IH]; intros a H; [reflexivity|].
  cbn [loadn]. rewrite H by lia. rewrite IH; [reflexivity|].
  intros x Hx. apply H. lia.
Qed.

(** ** Alignment *)

Lemma wrap64_range (x : Z) : 0 <= wrap64 x < 2 ^ 64.
Proof. unfold wrap64. apply Z.mod_pos_bound. lia. Qed.

Lemma wrap64_small (x : Z) : 0 <= x < 2 ^ 64 -> wrap64 x = x.
Proof. unfold wrap64. apply Z.mod_small. Qed.

Lemma land_mask8 (x : Z) :
  0 <= x < 2 ^ 64 -> Z.land x (wrap64 (Z.lnot 7)) = 8 * (x / 8).
Proof.
  intros Hx.
  change (wrap64 (Z.lnot 7)) with (Z.ldiff (Z.ones 64) (Z.ones 3)).
  assert (E : Z.land x (Z.ldiff (Z.ones 64) (Z.ones 3))
              = Z.ldiff (Z.land x (Z.ones 64)) (Z.ones 3)).
  { apply Z.bits_inj'. intros n Hn.
    rewrite !Z.land_spec, !Z.ldiff_spec, Z.land_spec.
    destruct (Z.testbit x n), (Z.testbit (Z.ones 64) n),
      (Z.testbit (Z.ones 3) n); reflexivity. }
  rewrite E, Z.land_ones by lia. rewrite Z.mod_small by lia.
  rewrite Z.ldiff_ones_r by lia.
  rewrite Z.shiftl_mul_pow2, Z.shiftr_div_pow2 by lia.
  change (2 ^ 3) with 8. lia.
Qed.

Lemma ALIGN_eq (size : Z) : ALIGN size = 8 * (wrap64 (size + 7) / 8).
Proof.
  unfold ALIGN, ALIGNMENT. change (8 - 1) with 7.
  apply land_mask8, wrap64_range.
Qed.

Lemma ALIGN_range (size : Z) : 0 <= ALIGN size < 2 ^ 64.
Proof.
  rewrite ALIGN_eq. pose proof (wrap64_range (size + 7)).
  pose proof (Z.mul_div_le (wrap64 (size + 7)) 8).
  pose proof (Z.div_pos (wrap64 (size + 7)) 8). lia.
Qed.

Lemma ALIGN_mod8 (size : Z) : ALIGN size mod 8 = 0.
Proof. rewrite ALIGN_eq, Z.mul_comm. apply Z.mod_mul. lia. Qed.

Lemma ALIGN_ge (size : Z) :
  0 <= size <= 2 ^ 64 - 8 -> size <= ALIGN size < size + 8.
Proof.
  intros H. rewrite ALIGN_eq, wrap64_small by lia.
  pose proof (Z.div_mod (size + 7) 8).
  pose proof (Z.mod_pos_bound (size + 7) 8). lia.
Qed.

Lemma ALIGN_wraps (size : Z) : 2 ^ 64 - 8 < size < 2 ^ 64 -> ALIGN size = 0.
Proof.
  intros H. rewrite ALIGN_eq. unfold wrap64.
  replace (size + 7) with (size + 7 - 2 ^ 64 + 1 * 2 ^ 64) by lia.
  rewrite Z.mod_add by lia. rewrite Z.mod_small by lia.
  rewrite Z.div_small by lia. reflexivity.
Qed.

Lemma ALIGN_aligned (x : Z) : 0 <= x < 2 ^ 64 -> x mod 8 = 0 -> ALIGN x = x.
Proof.
  intros Hx H8. rewrite ALIGN_eq.
  pose proof (Z.div_mod x 8).
  rewrite wrap64_small by lia.
  pose proof (Z.div_mod (x + 7) 8).
  pose proof (Z.mod_pos_bound (x + 7) 8).
  assert ((x + 7) mod 8 = 7).
  { replace (x + 7) with (7 + (x / 8) * 8) by lia. rewrite Z.mod_add by lia. reflexivity. }
  lia.
Qed.

(** ** Header fields *)

Create HintDb fields.
#[local] Hint Unfold b_size b_free b_next b_prev
  set_size set_free set_next set_prev
  off_size off_free off_next off_prev sizeof_Block : fields.

Lemma load64_store64 (m : memory) (a v : Z) :
  loadn 8 (storen 8 m a v) a = wrap64 v.
Proof. apply (loadn_storen_same 8). Qed.

Lemma load32_store32 (m : memory) (a v : Z) :
  loadn 4 (storen 4 m a v) a = wrap32 v.
Proof. apply (loadn_storen_same 4). Qed.

(** Peels the stores off a load, one at a time, asking [lia] for the
    disjointness of the two ranges. *)
Ltac mem_side :=
  change (Z.of_nat 8) with 8; change (Z.of_nat 4) with 4; lia.
Ltac mem_step :=
  first [ rewrite load64_store64
        | rewrite load32_store32
        | rewrite loadn_storen_disj by mem_side
        | rewrite load8_storen_out by mem_side ].
Ltac mem_simpl := autounfold with fields in *; repeat mem_step.

(** Runs [tac] on every conjunct of the goal. *)
Ltac each_conjunct tac :=
  lazymatch goal with
  | |- _ /\ _ => split; [tac | each_conjunct tac]
  | |- _ => tac
  end.

Lemma b_size_range (m : memory) (b : Z) : 0 <= b_size m b < 2 ^ 64.
Proof. apply (loadn_range 8). Qed.

Lemma b_free_range (m : memory) (b : Z) : 0 <= b_free m b < 2 ^ 32.
Proof. apply (loadn_range 4). Qed.

Lemma b_next_range (m : memory) (b : Z) : 0 <= b_next m b < 2 ^ 64.
Proof. apply (loadn_range 8). Qed.

Lemma b_prev_range (m : memory) (b : Z) : 0 <= b_prev m b < 2 ^ 64.
Proof. apply (loadn_range 8). Qed.

(** ** Zero-Allocate rejects empty and overflowing requests *)

Lemma overflow_detected (value size : Z) :
  0 < value < 2 ^ 64 -> 0 < size < 2 ^ 64 ->
  (wrap64 (size * value) / value =? size) = (size * value <? 2 ^ 64).
Proof.
  intros Hv Hs. destruct (Z.ltb_spec (size * value) (2 ^ 64)) as [Hlt|Hge].
  - rewrite wrap64_small by nia. rewrite Z.div_mul by lia. apply Z.eqb_refl.
  - apply Z.eqb_neq. intros E.
    pose proof (wrap64_range (size * value)) as Hr.
    pose proof (Z.mul_div_le (wrap64 (size * value)) value ltac:(lia)) as Hle.
    rewrite E in Hle. lia.
Qed.

(** C7.  Zero-Allocate returns a null pointer and leaves the whole state
    (memory, list anchors, break, diagnostics) as it was when [count] is 0,
    when [elemSize] is 0, or when [count * elemSize] does not fit [size_t];
    this holds whatever allocation function it is given, so that function
    is not called. *)
Theorem my_calloc_rejects
    (malloc : Z -> state -> option (Z * state)) (value size : Z) (s : state) :
  0 <= value < 2 ^ 64 -> 0 <= size < 2 ^ 64 ->
  value = 0 \/ size = 0 \/ 2 ^ 64 <= value * size ->
  calloc_with malloc value size s = Returns (NULL, s)
  /\ (0 < value -> 0 < size ->
      wrap64 (size * value) / value <> size).
Proof.
  intros Hv Hs H. unfold calloc_with.
  destruct (Z.eqb_spec size 0) as [->|Hs0]; simpl.
  { split; [reflexivity | lia]. }
  destruct (Z.eqb_spec value 0) as [->|Hv0]; simpl.
  { split; [reflexivity | lia]. }
  assert (Hov : 2 ^ 64 <= value * size) by lia.
  pose proof (overflow_detected value size ltac:(lia) ltac:(lia)) as E.
  destruct (Z.ltb_spec (size * value) (2 ^ 64)); [lia|].
  rewrite E. simpl. split; [reflexivity|].
  intros _ _. apply Z.eqb_neq. exact E.
Qed.

Lemma my_calloc_rejects_witness :
  my_calloc 5 (2 ^ 32) (2 ^ 32) (init_state 4096 1024)
  = Returns (NULL, init_state 4096 1024).
Proof.
  apply (my_calloc_rejects (my_malloc 5) (2 ^ 32) (2 ^ 32) (init_state 4096 1024));
    [lia | lia | right; right; lia].
Defined.

(** ** The zero-fill of Zero-Allocate *)

Lemma zero_fill_load8 (k : nat) (m : memory) (ptr i x : Z) :
  load8 (zero_fill k m ptr i) x
  = if (ptr + i <=? x) && (x <? ptr + i + Z.of_nat k) then 0 else load8 m x.
Proof.
  revert m i. induction k as [|k IH]; intros m i.
  - cbn [zero_fill]. destruct (Z.leb_spec (ptr + i) x), (Z.ltb_spec x (ptr + i + Z.of_nat 0));
      simpl; try reflexivity; lia.
  - cbn [zero_fill]. rewrite IH, load8_store8.
    destruct (decide (ptr + i = x)) as [He|Hne];
      destruct (Z.leb_spec (ptr + (i + 1)) x), (Z.ltb_spec x (ptr + (i + 1) + Z.of_nat k)),
               (Z.leb_spec (ptr + i) x), (Z.ltb_spec x (ptr + i + Z.of_nat (S k)));
      simpl; try reflexivity; try lia.
Qed.

(** The loop returns exactly when all its stores fall inside the arena,
    and then it has stored the zeros. *)
Lemma calloc_loop_some (k : nat) :
  forall (s : state) (m m' : memory) (ptr i : Z),
    0 <= ptr + i -> ptr + i + Z.of_nat k <= 2 ^ 64 ->
    calloc_loop k s m ptr i = Some m' ->
    m' = zero_fill k m ptr i
    /\ (k <> O -> brk_min s <= ptr + i /\ ptr + i + Z.of_nat k <= brk s).
Proof.
  induction k as [|k IH]; intros s m m' ptr i Hlo Hhi E.
  - cbn [calloc_loop] in E. injection E as <-. split; [reflexivity | congruence].
  - cbn [calloc_loop] in E. rewrite wrap64_small in E by lia.
    destruct (in_arena s (ptr + i)) eqn:Ea; [|discriminate].
    unfold in_arena in Ea. apply andb_prop in Ea as [E1 E2].
    apply Z.leb_le in E1. apply Z.ltb_lt in E2.
    replace (ptr + i + Z.of_nat (S k)) with (ptr + (i + 1) + Z.of_nat k) in * by lia.
    destruct (IH s _ m' ptr (i + 1) ltac:(lia) ltac:(lia) E) as [-> Hk].
    split; [reflexivity|]. intros _. destruct k as [|k']; [lia|].
    specialize (Hk ltac:(discriminate)). lia.
Qed.

Lemma calloc_loop_inside (k : nat) :
  forall (s : state) (m : memory) (ptr i : Z),
    0 <= ptr + i -> brk s <= 2 ^ 64 ->
    brk_min s <= ptr + i -> ptr + i + Z.of_nat k <= brk s ->
    calloc_loop k s m ptr i = Some (zero_fill k m ptr i).
Proof.
  induction k as [|k IH]; intros s m ptr i Hlo Hb Hmin Hhi; [reflexivity|].
  cbn [calloc_loop zero_fill]. rewrite wrap64_small by lia.
  unfold in_arena.
  destruct (Z.leb_spec (brk_min s) (ptr + i)); [|lia].
  destruct (Z.ltb_spec (ptr + i) (brk s)); [|lia]. cbn [andb].
  apply IH; lia.
Qed.

(** A zero-fill whose first store is outside the arena stores nothing. *)
Lemma calloc_loop_leaves_arena (total : Z) (s : state) (m : memory) (ptr : Z) :
  0 < total -> in_arena s (wrap64 (ptr + 0)) = false ->
  calloc_loop (Z.to_nat total) s m ptr 0 = None.
Proof.
  intros Ht E. replace total with (Z.succ (total - 1)) by lia.
  rewrite Z2Nat.inj_succ by lia. cbn [calloc_loop]. rewrite E. reflexivity.
Qed.

(** Past its two tests and a successful Allocate, Zero-Allocate is its
    zero-fill. *)
Lemma calloc_with_fills
    (malloc : Z -> state -> option (Z * state)) (value size : Z) (s s1 : state) (p : Z) :
  0 < value < 2 ^ 64 -> 0 < size < 2 ^ 64 -> value * size < 2 ^ 64 ->
  malloc (value * size) s = Some (p, s1) -> p <> NULL ->
  calloc_with malloc value size s
  = match calloc_loop (Z.to_nat (value * size)) s1 (mem s1) p 0 with
    | None => Faults
    | Some m => Returns (p, with_mem s1 m)
    end.
Proof.
  intros Hv Hs Hfit Hm Hp. unfold calloc_with.
  destruct (Z.eqb_spec size 0); [lia|]. destruct (Z.eqb_spec value 0); [lia|].
  cbn [orb]. rewrite overflow_detected by lia.
  destruct (Z.ltb_spec (size * value) (2 ^ 64)); [|lia]. cbn [negb].
  rewrite wrap64_small by nia. rewrite (Z.mul_comm size value), Hm.
  destruct (Z.eqb_spec p NULL); [contradiction | reflexivity].
Qed.

(** Away from the top of [size_t]: when Allocate returned a pointer and
    the [value * size] bytes behind it lie inside the arena, Zero-Allocate
    returns that pointer with those bytes zero and nothing else changed. *)
Lemma calloc_zeroes_inside
    (fuel : nat) (value size : Z) (s s1 : state) (p : Z) :
  0 < value -> 0 < size ->
  my_malloc fuel (value * size) s = Some (p, s1) -> p <> NULL ->
  0 <= p -> brk s1 <= 2 ^ 64 ->
  brk_min s1 <= p -> p + value * size <= brk s1 ->
  exists s',
    my_calloc fuel value size s = Returns (p, s')
    /\ (forall i, 0 <= i < value * size -> load8 (mem s') (p + i) = 0)
    /\ (forall x, x < p \/ p + value * size <= x ->
        load8 (mem s') x = load8 (mem s1) x)
    /\ (head s', last s', brk s', err s') = (head s1, last s1, brk s1, err s1).
Proof.
  intros Hv Hs Hm Hp Hp0 Hb Hmin Hhi.
  assert (Hfit : value * size < 2 ^ 64) by (unfold NULL in Hp; lia).
  assert (Hv' : value < 2 ^ 64) by nia. assert (Hs' : size < 2 ^ 64) by nia.
  unfold my_calloc.
  rewrite (calloc_with_fills (my_malloc fuel) value size s s1 p) by (assumption || lia).
  rewrite calloc_loop_inside by (rewrite ?Z2Nat.id by nia; lia).
  eexists. split; [reflexivity|]. cbn [mem head last brk err with_mem].
  split; [|split; [|reflexivity]].
  - intros i Hi. rewrite zero_fill_load8, Z2Nat.id by nia.
    destruct (Z.leb_spec (p + 0) (p + i)), (Z.ltb_spec (p + i) (p + 0 + value * size));
      simpl; try reflexivity; lia.
  - intros x Hx. rewrite zero_fill_load8, Z2Nat.id by nia.
    destruct (Z.leb_spec (p + 0) x), (Z.ltb_spec x (p + 0 + value * size));
      simpl; try reflexivity; lia.
Qed.

(** C8 (the code departs from the claim).  [my_calloc(SIZE_MAX, 1)] on the
    empty heap: the product [SIZE_MAX] passes the overflow test, and the
    inner Allocate succeeds with the pointer 4128; but [ALIGN] has wrapped
    the size to 0, so the block behind the pointer has capacity 0 and the
    break is at 4128.  The first store of the zero-fill, at 4128, is
    already outside the arena: the call does not return a region of
    [n * k] zero bytes, it leaves the arena.  The same happens for every
    nonzero pair whose product lies above [2^64 - 8]. *)
Theorem my_calloc_size_max_leaves_arena :
  wrap64 (1 * (2 ^ 64 - 1)) / (2 ^ 64 - 1) = 1
  /\ my_malloc 5 (2 ^ 64 - 1) (init_state 4096 1024) = Some (4128, heap_size_max)
  /\ b_size (mem heap_size_max) (4128 - sizeof_Block) = 0
  /\ brk heap_size_max = 4128
  /\ in_arena heap_size_max 4128 = false
  /\ my_calloc 5 (2 ^ 64 - 1) 1 (init_state 4096 1024) = Faults
  /\ (forall value size : Z,
        0 < value -> 0 < size -> 2 ^ 64 - 8 < value * size < 2 ^ 64 ->
        my_calloc 5 value size (init_state 4096 1024) = Faults).
Proof.
  assert (Hall : forall value size : Z,
            0 < value -> 0 < size -> 2 ^ 64 - 8 < value * size < 2 ^ 64 ->
            my_calloc 5 value size (init_state 4096 1024) = Faults).
  { intros value size Hv Hs Hr.
    assert (Hv' : value < 2 ^ 64) by nia. assert (Hs' : size < 2 ^ 64) by nia.
    assert (Hm : my_malloc 5 (value * size) (init_state 4096 1024)
                 = Some (4128, heap_size_max)).
    { unfold my_malloc. rewrite ALIGN_wraps by lia. vm_compute. reflexivity. }
    unfold my_calloc.
    rewrite (calloc_with_fills (my_malloc 5) value size (init_state 4096 1024)
               heap_size_max 4128) by (lia || exact Hm || discriminate).
    rewrite calloc_loop_leaves_arena; [reflexivity | lia | vm_compute; reflexivity]. }
  split; [vm_compute; reflexivity|].
  split; [vm_compute; reflexivity|].
  split; [vm_compute; reflexivity|].
  split; [vm_compute; reflexivity|].
  split; [vm_compute; reflexivity|].
  split; [apply Hall; lia | exact Hall].
Qed.

(** ** Diagnostics and failure of Allocate *)

(** The line of [perror("sbrk error")] after a failed [sbrk], spelled
    out. *)
Lemma perror_sbrk_line :
  perror_line "sbrk error" ENOMEM = "sbrk error: Cannot allocate memory"%string.
Proof. reflexivity. Qed.

Lemma reports_only_refl (allowed : list string) (s s' : state) :
  err s' = err s -> reports_only allowed s s'.
Proof. intros E. exists []. rewrite app_nil_r. split; [exact E | intros x []]. Qed.

Lemma reports_only_report (allowed : list string) (s s' : state) (msg : string) :
  reports_only allowed s s' -> In msg allowed ->
  reports_only allowed s (report s' msg).
Proof.
  intros (new & E & Hin) Hmsg. exists (new ++ [msg]). split.
  - cbn [report err]. rewrite E, app_assoc. reflexivity.
  - intros x Hx. apply in_app_or in Hx as [Hx|[<-|[]]]; auto.
Qed.

Lemma reports_only_trans (allowed : list string) (s1 s2 s3 : state) :
  reports_only allowed s1 s2 -> reports_only allowed s2 s3 ->
  reports_only allowed s1 s3.
Proof.
  intros (n1 & E1 & H1) (n2 & E2 & H2). exists (n1 ++ n2). split.
  - rewrite E2, E1, app_assoc. reflexivity.
  - intros x Hx. apply in_app_or in Hx as [Hx|Hx]; auto.
Qed.

Lemma sbrk_cases (increment : Z) (s : state) :
  (exists nb, sbrk increment s = (brk s, with_brk s nb))
  \/ sbrk increment s = (brk s, s)
  \/ sbrk increment s = (SBRK_FAILED, s).
Proof.
  unfold sbrk.
  destruct ((brk_min s <=? _) && (_ <=? brk_max s)); [left; eauto | right].
  destruct ((0 <=? _) && (_ <? brk_min s) && (_ <=? 0)); [left | right]; reflexivity.
Qed.

(** What every exit of [malloc_grow] leaves alone. *)
Lemma malloc_grow_cases (aligned_size : Z) (s : state) :
  let '(r, s') := malloc_grow aligned_size s in
  (r = NULL /\ mem s' = mem s /\ head s' = head s /\ last s' = last s
   /\ err s' = err s ++ [perror_line "sbrk error" ENOMEM])
  \/ (r = brk s + sizeof_Block /\ err s' = err s).
Proof.
  unfold malloc_grow.
  destruct (sbrk_cases (wrap64 (aligned_size + sizeof_Block)) s) as [[nb ->]|[ -> | -> ]].
  - destruct (Z.eqb_spec (brk s) SBRK_FAILED).
    + left. repeat (split; [reflexivity|]). reflexivity.
    + destruct (Z.eqb_spec (head (with_brk s nb)) NULL); right; split; reflexivity.
  - destruct (Z.eqb_spec (brk s) SBRK_FAILED).
    + left. repeat (split; [reflexivity|]). reflexivity.
    + destruct (Z.eqb_spec (head s) NULL); right; split; reflexivity.
  - rewrite Z.eqb_refl. left. repeat (split; [reflexivity|]). reflexivity.
Qed.

Lemma malloc_reuse_fst (aligned_size current : Z) (s : state) :
  fst (malloc_reuse aligned_size current s) = current + sizeof_Block.
Proof. reflexivity. Qed.

Lemma malloc_reuse_frame (aligned_size current : Z) (s : state) :
  let s' := snd (malloc_reuse aligned_size current s) in
  head s' = head s /\ last s' = last s /\ brk s' = brk s
  /\ brk_min s' = brk_min s /\ brk_max s' = brk_max s /\ err s' = err s.
Proof. repeat (split; [reflexivity|]). reflexivity. Qed.

Lemma malloc_loop_reports (fuel : nat) (aligned_size current : Z) (s s' : state) (r : Z) :
  malloc_loop fuel aligned_size current s = Some (r, s') ->
  reports_only [perror_line "sbrk error" ENOMEM] s s'.
Proof.
  revert current. induction fuel as [|fuel IH]; intros current H; [discriminate|].
  cbn [malloc_loop] in H.
  destruct (current =? NULL).
  - pose proof (malloc_grow_cases aligned_size s) as C.
    destruct (malloc_grow aligned_size s) as [r0 s0]. injection H as -> ->.
    destruct C as [(_ & _ & _ & _ & E)|(_ & E)].
    + exists [perror_line "sbrk error" ENOMEM]. split; [exact E | auto].
    + apply reports_only_refl, E.
  - destruct ((b_free (mem s) current =? 1) && (aligned_size <=? b_size (mem s) current)).
    + pose proof (malloc_reuse_frame aligned_size current s) as F.
      destruct (malloc_reuse aligned_size current s) as [r0 s0]. injection H as -> ->.
      apply reports_only_refl, F.
    + eapply IH, H.
Qed.

(** Allocate returns a null pointer only after [sbrk] refused: the memory
    and the list anchors are then what they were. *)
Lemma malloc_loop_null (fuel : nat) (aligned_size current : Z) (s s' : state) :
  0 <= current -> 0 <= brk s ->
  malloc_loop fuel aligned_size current s = Some (NULL, s') ->
  mem s' = mem s /\ head s' = head s /\ last s' = last s
  /\ err s' = err s ++ [perror_line "sbrk error" ENOMEM].
Proof.
  revert current. induction fuel as [|fuel IH]; intros current Hc Hb H; [discriminate|].
  cbn [malloc_loop] in H.
  destruct (Z.eqb_spec current NULL) as [E0|Hne].
  - pose proof (malloc_grow_cases aligned_size s) as C.
    destruct (malloc_grow aligned_size s) as [r0 s0]. injection H as -> ->.
    destruct C as [(_ & C)|(C & _)]; [exact C|].
    unfold NULL, sizeof_Block in C. lia.
  - destruct ((b_free (mem s) current =? 1) && (aligned_size <=? b_size (mem s) current)).
    + pose proof (malloc_reuse_fst aligned_size current s) as F.
      destruct (malloc_reuse aligned_size current s) as [r0 s0]. injection H as -> ->.
      cbn [fst] in F. unfold NULL, sizeof_Block in *. lia.
    + eapply IH; [| exact Hb | exact H]. apply b_next_range.
Qed.

Lemma my_free_reports (fuel : nat) (ptr : Z) (s s' : state) :
  my_free fuel ptr s = Some s' ->
  reports_only ["invalid memory block"%string] s s'
  /\ (ptr <> NULL -> err s' = err s).
Proof.
  unfold my_free. destruct (Z.eqb_spec ptr NULL) as [->|Hne].
  - intros [= <-]. split; [|congruence].
    apply reports_only_report; [apply reports_only_refl; reflexivity | left; reflexivity].
  - destruct (free_fwd _ _ _ _) as [[m cf]|]; [|discriminate].
    destruct (free_bck _ _ _ _) as [m'|]; [|discriminate].
    intros [= <-]. split; [apply reports_only_refl|]; reflexivity.
Qed.

(** ** Resize *)

Lemma realloc_shrink_frame (aligned_size ptr : Z) (s : state) :
  fst (realloc_shrink aligned_size ptr s) = ptr
  /\ err (snd (realloc_shrink aligned_size ptr s)) = err s.
Proof. split; reflexivity. Qed.

Lemma realloc_grow_reports (fuel : nat) (aligned_size ptr : Z) (s s' : state) (r : Z) :
  ptr <> NULL ->
  realloc_grow fuel aligned_size ptr s = Some (r, s') ->
  reports_only [perror_line "sbrk error" ENOMEM; "realoc error"%string] s s'
  /\ exists s1, my_malloc fuel aligned_size s = Some (r, s1)
                /\ (r = NULL -> s' = report s1 "realoc error").
Proof.
  intros Hp H. unfold realloc_grow in H.
  destruct (my_malloc fuel aligned_size s) as [[np s1]|] eqn:Hm; [|discriminate].
  assert (R1 : reports_only [perror_line "sbrk error" ENOMEM; "realoc error"%string] s s1).
  { apply malloc_loop_reports in Hm as (new & E & Hin). exists new. split; [exact E|].
    intros x Hx. apply Hin in Hx as [<-|[]]. left. reflexivity. }
  destruct (Z.eqb_spec np NULL) as [->|Hnp].
  - injection H as <- <-. split.
    + apply reports_only_report; [exact R1 | right; left; reflexivity].
    + exists s1. split; [reflexivity | reflexivity].
  - destruct (my_free fuel ptr _) as [s2|] eqn:Hf; [|discriminate].
    injection H as <- <-. apply my_free_reports in Hf as [_ Hf].
    specialize (Hf Hp). cbn [err with_mem] in Hf. split.
    + destruct R1 as (new & E & Hin). exists new. split; [congruence | exact Hin].
    + exists s1. split; [reflexivity | contradiction].
Qed.

(** The two size comparisons of [my_realloc] leave nothing for the final
    branch. *)
Lemma realloc_branches_exhaustive (fuel : nat) (ptr size : Z) (s : state) :
  ptr <> NULL -> size <> 0 ->
  my_realloc fuel ptr size s
  = if ALIGN size <=? b_size (mem s) (ptr - sizeof_Block)
    then Some (realloc_shrink (ALIGN size) ptr s)
    else realloc_grow fuel (ALIGN size) ptr s.
Proof.
  intros Hp Hs. unfold my_realloc.
  destruct (Z.eqb_spec ptr NULL); [contradiction|].
  destruct (Z.eqb_spec size 0); [contradiction|].
  destruct (Z.leb_spec (ALIGN size) (b_size (mem s) (ptr - sizeof_Block))); [reflexivity|].
  destruct (Z.ltb_spec (b_size (mem s) (ptr - sizeof_Block)) (ALIGN size)); [reflexivity|lia].
Qed.

(** C9.  For a non-null pointer and a nonzero size, the comparisons
    [current->size >= aligned_size] and [current->size < aligned_size] are
    exhaustive, so Resize is its shrink path or its grow path and the
    final branch is dead: a call that returns has returned the original
    pointer (shrink path), or what the inner Allocate returned (a fresh
    pointer, or null together with the "realoc error" line), and
    "invalid ptr" is not among the lines it wrote. *)
Theorem my_realloc_invalid_ptr_unreachable
    (fuel : nat) (ptr size : Z) (s : state) :
  ptr <> NULL -> size <> 0 ->
  my_realloc fuel ptr size s
  = (if ALIGN size <=? b_size (mem s) (ptr - sizeof_Block)
     then Some (realloc_shrink (ALIGN size) ptr s)
     else realloc_grow fuel (ALIGN size) ptr s)
  /\ forall (r : Z) (s' : state),
       my_realloc fuel ptr size s = Some (r, s') ->
       (exists new, err s' = err s ++ new /\ ~ In "invalid ptr"%string new)
       /\ ((ALIGN size <= b_size (mem s) (ptr - sizeof_Block) /\ r = ptr)
           \/ (b_size (mem s) (ptr - sizeof_Block) < ALIGN size
               /\ exists s1, my_malloc fuel (ALIGN size) s = Some (r, s1)
                             /\ (r = NULL -> s' = report s1 "realoc error"))).
Proof.
  intros Hp Hs. split; [apply realloc_branches_exhaustive; assumption|].
  intros r s' H. rewrite realloc_branches_exhaustive in H by assumption.
  destruct (Z.leb_spec (ALIGN size) (b_size (mem s) (ptr - sizeof_Block))) as [Hle|Hlt].
  - pose proof (realloc_shrink_frame (ALIGN size) ptr s) as [F1 F2].
    destruct (realloc_shrink (ALIGN size) ptr s) as [r0 s0]. injection H as -> ->.
    cbn [fst snd] in F1, F2. split.
    + exists []. rewrite app_nil_r. split; [exact F2 | intros []].
    + left. split; [exact Hle | exact F1].
  - apply realloc_grow_reports in H as [(new & E & Hin) Hr]; [|exact Hp]. split.
    + exists new. split; [exact E|]. intros Hbad. apply Hin in Hbad.
      destruct Hbad as [Hbad|[Hbad|[]]]; discriminate Hbad.
    + right. split; [exact Hlt | exact Hr].
Qed.

Lemma my_realloc_invalid_ptr_unreachable_witness :
  (exists new,
      err (run_state (my_realloc 5 4128 64 heap_one_block) heap_one_block)
      = err heap_one_block ++ new
      /\ ~ In "invalid ptr"%string new)
  /\ ((ALIGN 64 <= b_size (mem heap_one_block) (4128 - sizeof_Block) /\ 4192 = 4128)
      \/ (b_size (mem heap_one_block) (4128 - sizeof_Block) < ALIGN 64
          /\ exists s1, my_malloc 5 (ALIGN 64) heap_one_block = Some (4192, s1)
                        /\ (4192 = NULL ->
                            run_state (my_realloc 5 4128 64 heap_one_block) heap_one_block
                            = report s1 "realoc error"))).
Proof.
  apply (proj2 (my_realloc_invalid_ptr_unreachable 5 4128 64 heap_one_block
                  ltac:(discriminate) ltac:(discriminate))).
  vm_compute. reflexivity.
Defined.

(** C6.  On the grow path of Resize (non-null pointer, nonzero size, the
    aligned size exceeds the block's size), when the inner Allocate
    returns null, Resize writes "realoc error" and returns null; the
    memory is byte for byte what it was, and so are the list anchors: the
    original block is still linked, still marked used, with its size and
    payload unchanged. *)
Theorem my_realloc_grow_failure
    (fuel : nat) (ptr size : Z) (s s1 : state) :
  ptr <> NULL -> size <> 0 ->
  b_size (mem s) (ptr - sizeof_Block) < ALIGN size ->
  0 <= head s -> 0 <= brk s ->
  my_malloc fuel (ALIGN size) s = Some (NULL, s1) ->
  exists s',
    my_realloc fuel ptr size s = Some (NULL, s')
    /\ err s' = err s ++ [perror_line "sbrk error" ENOMEM; "realoc error"%string]
    /\ mem s' = mem s /\ head s' = head s /\ last s' = last s
    /\ b_free (mem s') (ptr - sizeof_Block) = b_free (mem s) (ptr - sizeof_Block)
    /\ b_size (mem s') (ptr - sizeof_Block) = b_size (mem s) (ptr - sizeof_Block)
    /\ (forall i, load8 (mem s') (ptr + i) = load8 (mem s) (ptr + i)).
Proof.
  intros Hp Hs Hlt Hh Hb Hm.
  rewrite realloc_branches_exhaustive by assumption.
  destruct (Z.leb_spec (ALIGN size) (b_size (mem s) (ptr - sizeof_Block))); [lia|].
  unfold realloc_grow. rewrite Hm, Z.eqb_refl.
  apply malloc_loop_null in Hm as (Em & Eh & El & Ee); [|assumption..].
  exists (report s1 "realoc error"). split; [reflexivity|].
  cbn [report mem head last err]. rewrite Ee, Em, Eh, El, <- app_assoc.
  repeat (split; [reflexivity|]). reflexivity.
Qed.

Lemma my_realloc_grow_failure_witness :
  exists s',
    my_realloc 5 4128 16 heap_full = Some (NULL, s')
    /\ err s' = err heap_full ++ [perror_line "sbrk error" ENOMEM; "realoc error"%string]
    /\ mem s' = mem heap_full /\ head s' = head heap_full /\ last s' = last heap_full
    /\ b_free (mem s') (4128 - sizeof_Block) = b_free (mem heap_full) (4128 - sizeof_Block)
    /\ b_size (mem s') (4128 - sizeof_Block) = b_size (mem heap_full) (4128 - sizeof_Block)
    /\ (forall i, load8 (mem s') (4128 + i) = load8 (mem heap_full) (4128 + i)).
Proof.
  apply (my_realloc_grow_failure 5 4128 16 heap_full
           (report heap_full (perror_line "sbrk error" ENOMEM)));
    [discriminate | discriminate | vm_compute; reflexivity
    | vm_compute; discriminate | vm_compute; discriminate | vm_compute; reflexivity].
Defined.

(** ** Linked segments and the first-fit walk *)

Lemma lseg_app (link : Z -> Z) (l1 l2 : list Z) (a z : Z) :
  lseg link a (l1 ++ l2) z <-> exists b, lseg link a l1 b /\ lseg link b l2 z.
Proof.
  revert a. induction l1 as [|x l1 IH]; intros a; cbn [lseg app].
  - split; [intros H; exists a; auto | intros (b & -> & H); exact H].
  - rewrite IH. split.
    + intros (-> & Hx & b & H1 & H2). exists b. auto.
    + intros (b & (-> & Hx & H1) & H2). eauto.
Qed.

Lemma lseg_ext (link link' : Z -> Z) (l : list Z) (a z : Z) :
  (forall x, In x l -> link' x = link x) ->
  lseg link a l z -> lseg link' a l z.
Proof.
  revert a. induction l as [|x l IH]; intros a Hext H; cbn [lseg] in *; [exact H|].
  destruct H as (-> & Hx & H). split; [reflexivity|]. split; [exact Hx|].
  rewrite Hext by (left; reflexivity). apply IH; [|exact H].
  intros y Hy. apply Hext. right. exact Hy.
Qed.

Lemma lseg_nonnull (link : Z -> Z) (l : list Z) (a z : Z) :
  lseg link a l z -> forall x, In x l -> x <> NULL.
Proof.
  revert a. induction l as [|y l IH]; intros a H x Hx; [destruct Hx|].
  destruct H as (-> & Hy & H). destruct Hx as [<-|Hx]; [exact Hy | eapply IH; eauto].
Qed.

Lemma malloc_loop_skip (skipped : list Z) (fuel : nat) (aligned_size current z : Z)
    (s : state) :
  lseg (b_next (mem s)) current skipped z ->
  (forall x, In x skipped -> fits (mem s) aligned_size x = false) ->
  malloc_loop (length skipped + fuel) aligned_size current s
  = malloc_loop fuel aligned_size z s.
Proof.
  revert current. induction skipped as [|x l IH]; intros current H Hun.
  - cbn [lseg] in H. subst. reflexivity.
  - destruct H as (-> & Hx & H). cbn [length Nat.add malloc_loop].
    destruct (Z.eqb_spec x NULL); [contradiction|].
    unfold fits in Hun. rewrite (Hun x) by (left; reflexivity).
    apply IH; [exact H|]. intros y Hy. apply Hun. right. exact Hy.
Qed.

Lemma malloc_loop_found (skipped : list Z) (fuel : nat) (aligned_size b : Z) (s : state) :
  lseg (b_next (mem s)) (head s) skipped b -> b <> NULL ->
  (forall x, In x skipped -> fits (mem s) aligned_size x = false) ->
  fits (mem s) aligned_size b = true ->
  (length skipped < fuel)%nat ->
  malloc_loop fuel aligned_size (head s) s = Some (malloc_reuse aligned_size b s).
Proof.
  intros H Hb Hun Hfit Hfuel.
  replace fuel with (length skipped + S (fuel - S (length skipped)))%nat by lia.
  rewrite (malloc_loop_skip skipped _ _ _ b) by assumption.
  cbn [malloc_loop]. destruct (Z.eqb_spec b NULL); [contradiction|].
  unfold fits in Hfit. rewrite Hfit. reflexivity.
Qed.

Lemma malloc_loop_none_fit (l : list Z) (fuel : nat) (aligned_size : Z) (s : state) :
  lseg (b_next (mem s)) (head s) l NULL ->
  (forall x, In x l -> fits (mem s) aligned_size x = false) ->
  (length l < fuel)%nat ->
  malloc_loop fuel aligned_size (head s) s = Some (malloc_grow aligned_size s).
Proof.
  intros H Hun Hfuel.
  replace fuel with (length l + S (fuel - S (length l)))%nat by lia.
  rewrite (malloc_loop_skip l _ _ _ NULL) by assumption.
  reflexivity.
Qed.

(** ** Arena growth *)

Lemma malloc_grow_ok (aligned_size : Z) (s : state) :
  0 <= aligned_size < 2 ^ 64 ->
  wrap64 (aligned_size + sizeof_Block) < 2 ^ 63 ->
  brk_min s <= brk s + wrap64 (aligned_size + sizeof_Block) <= brk_max s ->
  0 <= brk s < 2 ^ 64 - 1 ->
  0 <= last s < 2 ^ 64 ->
  head s = NULL \/ sep (last s) (brk s) ->
  exists s',
    malloc_grow aligned_size s = (brk s + sizeof_Block, s')
    /\ brk s' = brk s + wrap64 (aligned_size + sizeof_Block)
    /\ brk_min s' = brk_min s /\ brk_max s' = brk_max s /\ err s' = err s
    /\ last s' = brk s
    /\ head s' = (if head s =? NULL then brk s else head s)
    /\ b_size (mem s') (brk s) = aligned_size
    /\ b_free (mem s') (brk s) = 0
    /\ b_next (mem s') (brk s) = NULL
    /\ b_prev (mem s') (brk s) = (if head s =? NULL then NULL else last s)
    /\ (head s <> NULL -> b_next (mem s') (last s) = brk s)
    /\ (forall x, x < brk s \/ brk s + sizeof_Block <= x ->
        head s = NULL \/ x < last s + off_next \/ last s + off_prev <= x ->
        load8 (mem s') x = load8 (mem s) x).
Proof.
  intros Hal Hinc Hroom Hbrk Hlast Hsep.
  unfold malloc_grow, sbrk.
  destruct (Z.ltb_spec (wrap64 (aligned_size + sizeof_Block)) (2 ^ 63)); [|lia].
  destruct (Z.leb_spec (brk_min s) (brk s + wrap64 (aligned_size + sizeof_Block))); [|lia].
  destruct (Z.leb_spec (brk s + wrap64 (aligned_size + sizeof_Block)) (brk_max s)); [|lia].
  cbn [andb]. unfold SBRK_FAILED.
  destruct (Z.eqb_spec (brk s) (2 ^ 64 - 1)); [lia|].
  cbn [head with_brk mem last].
  destruct (Z.eqb_spec (head s) NULL) as [Hh|Hh].
  - eexists. split; [reflexivity|].
    cbn [brk brk_min brk_max err last head mem with_head_last with_mem with_brk].
    repeat (split; [reflexivity|]).
    split; [mem_simpl; apply wrap64_small; lia|].
    split; [mem_simpl; reflexivity|].
    split; [mem_simpl; reflexivity|].
    split; [mem_simpl; reflexivity|].
    split; [contradiction|].
    intros x Hx _. mem_simpl. reflexivity.
  - destruct Hsep as [Hsep|Hsep]; [contradiction|]. unfold sep, sizeof_Block in Hsep.
    eexists. split; [reflexivity|].
    cbn [brk brk_min brk_max err last head mem with_last with_mem with_brk].
    repeat (split; [reflexivity|]).
    split; [mem_simpl; apply wrap64_small; lia|].
    split; [mem_simpl; reflexivity|].
    split; [mem_simpl; reflexivity|].
    split; [mem_simpl; apply wrap64_small; lia|].
    split; [intros _; mem_simpl; apply wrap64_small; lia|].
    intros x Hx [Hn|Hn]; [contradiction|]. mem_simpl. reflexivity.
Qed.

(** ** Allocate of size zero *)

(** C10.  Allocate does not reject a request of size 0.  The aligned size
    is 0, so the first block of the list whose [free] flag is 1 is taken,
    whatever its capacity; when the list holds no such block and [sbrk]
    grants one header's worth of bytes, a block of capacity 0 is placed at
    the old break and becomes the tail.  The pointer returned is non-null
    in both cases, whereas Zero-Allocate returns null when either of its
    arguments is 0. *)
Theorem my_malloc_zero_not_rejected :
  ALIGN 0 = 0
  /\ (forall (s : state) (skipped : list Z) (b : Z) (fuel : nat),
        lseg (b_next (mem s)) (head s) skipped b -> 0 < b ->
        (forall x, In x skipped -> b_free (mem s) x <> 1) ->
        b_free (mem s) b = 1 ->
        (length skipped < fuel)%nat ->
        exists s', my_malloc fuel 0 s = Some (b + sizeof_Block, s')
                   /\ b + sizeof_Block <> NULL /\ brk s' = brk s)
  /\ (forall (s : state) (l : list Z) (fuel : nat),
        lseg (b_next (mem s)) (head s) l NULL ->
        (forall x, In x l -> b_free (mem s) x <> 1) ->
        brk_min s <= brk s + sizeof_Block <= brk_max s ->
        0 <= brk s < 2 ^ 64 - 1 -> 0 <= last s < 2 ^ 64 ->
        head s = NULL \/ sep (last s) (brk s) ->
        (length l < fuel)%nat ->
        exists s', my_malloc fuel 0 s = Some (brk s + sizeof_Block, s')
                   /\ brk s + sizeof_Block <> NULL
                   /\ brk s' = brk s + sizeof_Block
                   /\ last s' = brk s
                   /\ b_size (mem s') (brk s) = 0
                   /\ b_free (mem s') (brk s) = 0)
  /\ (forall (fuel : nat) (n : Z) (s : state),
        my_calloc fuel n 0 s = Returns (NULL, s)
        /\ my_calloc fuel 0 n s = Returns (NULL, s)).
Proof.
  split; [reflexivity|]. split; [|split].
  - intros s skipped b fuel Hseg Hb Hused Hfree Hfuel.
    unfold my_malloc. change (ALIGN 0) with 0.
    rewrite (malloc_loop_found skipped fuel 0 b s); try assumption.
    + pose proof (malloc_reuse_fst 0 b s) as F1.
      pose proof (malloc_reuse_frame 0 b s) as (_ & _ & F2 & _).
      destruct (malloc_reuse 0 b s) as [r s']. cbn [fst snd] in F1, F2. subst r.
      exists s'. split; [reflexivity|]. split; [unfold NULL, sizeof_Block; lia | exact F2].
    + unfold NULL. lia.
    + intros x Hx. unfold fits. destruct (Z.eqb_spec (b_free (mem s) x) 1); [|reflexivity].
      exfalso. eapply Hused; eauto.
    + unfold fits. rewrite Hfree. pose proof (b_size_range (mem s) b).
      destruct (Z.leb_spec 0 (b_size (mem s) b)); [reflexivity | lia].
  - intros s l fuel Hseg Hused Hroom Hbrk Hlast Hsep Hfuel.
    unfold my_malloc. change (ALIGN 0) with 0.
    rewrite (malloc_loop_none_fit l fuel 0 s); try assumption.
    + destruct (malloc_grow_ok 0 s) as (s' & E & Eb & _ & _ & _ & El & _ & Es & Ef & _);
        try assumption; try (change (wrap64 (0 + sizeof_Block)) with 32; unfold sizeof_Block in *; lia).
      rewrite E. exists s'. split; [reflexivity|].
      split; [unfold NULL, sizeof_Block; lia|].
      split; [exact Eb|]. split; [exact El|]. split; [exact Es | exact Ef].
    + intros x Hx. unfold fits. destruct (Z.eqb_spec (b_free (mem s) x) 1); [|reflexivity].
      exfalso. eapply Hused; eauto.
  - intros fuel n s. unfold my_calloc, calloc_with. split.
    + reflexivity.
    + rewrite Z.eqb_refl, orb_true_r. reflexivity.
Qed.

Lemma my_malloc_zero_not_rejected_witness :
  (exists s', my_malloc 5 0 heap_one_free = Some (4096 + sizeof_Block, s')
              /\ 4096 + sizeof_Block <> NULL /\ brk s' = brk heap_one_free)
  /\ (exists s', my_malloc 5 0 (init_state 4096 1024)
                 = Some (brk (init_state 4096 1024) + sizeof_Block, s')
                 /\ brk (init_state 4096 1024) + sizeof_Block <> NULL
                 /\ brk s' = brk (init_state 4096 1024) + sizeof_Block
                 /\ last s' = brk (init_state 4096 1024)
                 /\ b_size (mem s') (brk (init_state 4096 1024)) = 0
                 /\ b_free (mem s') (brk (init_state 4096 1024)) = 0).
Proof.
  split.
  - apply (proj1 (proj2 my_malloc_zero_not_rejected) heap_one_free [] 4096 5%nat);
      [reflexivity | lia | intros x [] | reflexivity | simpl; lia].
  - apply (proj1 (proj2 (proj2 my_malloc_zero_not_rejected))
             (init_state 4096 1024) [] 5%nat);
      [reflexivity | intros x [] | vm_compute; split; discriminate
      | vm_compute; split; [discriminate | reflexivity]
      | vm_compute; split; [discriminate | reflexivity]
      | left; reflexivity | simpl; lia].
Defined.

(** ** The split inside Allocate *)

(** C1 (the code departs from the claim).  After
    [p = my_malloc(64); my_free(p); q = my_malloc(8)] the free 64-byte
    block at 4096 satisfies [64 >= 8 + 32 + 8], so the split branch runs:
    the remainder block at 4136 is linked after the block at 4096 with size
    [64 - 8 - 32 = 24].  But the block handed out keeps size 64 instead of
    8, and the [free] field of the remainder is never written: it reads 0
    (used), the bytes the arena held there. *)
Theorem my_malloc_split_keeps_size :
  heap_after_split = Some (4128, run_state heap_after_split heap_one_free)
  /\ b_size (mem heap_one_free) 4096 = 64
  /\ b_free (mem heap_one_free) 4096 = 1
  /\ b_next (mem (run_state heap_after_split heap_one_free)) 4096 = 4136
  /\ b_prev (mem (run_state heap_after_split heap_one_free)) 4136 = 4096
  /\ b_size (mem (run_state heap_after_split heap_one_free)) 4136 = 24
  /\ b_size (mem (run_state heap_after_split heap_one_free)) 4096 = 64
  /\ b_free (mem (run_state heap_after_split heap_one_free)) 4136 = 0.
Proof. each_conjunct ltac:(vm_compute; reflexivity). Qed.

(** The sibling split of Resize does both: the current block gets the
    aligned size and the remainder is marked free. *)
Lemma my_realloc_split_sets_both :
  my_malloc 5 64 (init_state 4096 1024) = Some (4128, heap_one_64)
  /\ my_realloc 5 4128 8 heap_one_64 = Some (4128, heap_64_shrunk)
  /\ b_size (mem heap_64_shrunk) 4096 = 8
  /\ b_next (mem heap_64_shrunk) 4096 = 4136
  /\ b_size (mem heap_64_shrunk) 4136 = 24
  /\ b_free (mem heap_64_shrunk) 4136 = 1.
Proof. each_conjunct ltac:(vm_compute; reflexivity). Qed.

(** ** The byte totals of the statistics *)

(** C3 (the code departs from the claim).  With two used blocks of 32 and
    16 bytes the used-byte figure is 16, the size of the block seen last,
    not the sum 48: line 378 assigns where the claim adds. *)
Theorem my_malloc_stats_last_seen :
  my_malloc_stats 5 heap_two_used
  = Some (mkStats 2 0 2 16 0)
  /\ b_size (mem heap_two_used) 4096 = 32
  /\ b_size (mem heap_two_used) 4160 = 16
  /\ used_bytes (mkStats 2 0 2 16 0) <> 32 + 16.
Proof.
  split; [vm_compute; reflexivity|].
  split; [vm_compute; reflexivity|].
  split; [vm_compute; reflexivity|]. discriminate.
Qed.

(** ** Requests close to [SIZE_MAX] *)

(** C4 (the code departs from the claim).  [ALIGN] wraps for the seven
    largest sizes: [my_malloc(SIZE_MAX)] on an empty heap asks [sbrk] for
    one header only and returns a non-null pointer to a block of
    capacity 0. *)
Theorem my_malloc_size_max :
  ALIGN (2 ^ 64 - 1) = 0
  /\ my_malloc 5 (2 ^ 64 - 1) (init_state 4096 1024) = Some (4128, heap_size_max)
  /\ brk heap_size_max = 4096 + sizeof_Block
  /\ b_size (mem heap_size_max) 4096 = 0
  /\ b_size (mem heap_size_max) 4096 < 2 ^ 64 - 1.
Proof. each_conjunct ltac:(vm_compute; reflexivity). Qed.

(** ** The concrete heaps are reached by the calls *)

Lemma heap_one_free_reached :
  my_malloc 5 64 (init_state 4096 1024) = Some (4128, heap_one_64)
  /\ my_free 5 4128 heap_one_64 = Some heap_one_free.
Proof. split; vm_compute; reflexivity. Qed.

Lemma heap_two_used_reached :
  my_malloc 5 32 (init_state 4096 1024) = Some (4128, heap_one_block)
  /\ my_calloc 5 4 4 heap_one_block = Returns (4192, heap_two_used).
Proof. split; vm_compute; reflexivity. Qed.

Lemma heap_free_used_free_reached :
  let s0 := init_state 4096 1024 in
  let s1 := then_malloc 16 s0 in
  let s2 := then_malloc 16 s1 in
  let s3 := then_malloc 16 s2 in
  let s4 := then_free 4128 s3 in
  my_malloc 16 16 s0 = Some (4128, s1)
  /\ my_malloc 16 16 s1 = Some (4176, s2)
  /\ my_malloc 16 16 s2 = Some (4224, s3)
  /\ my_free 16 4128 s3 = Some s4
  /\ my_free 16 4224 s4 = Some heap_free_used_free.
Proof. cbv zeta. each_conjunct ltac:(vm_compute; reflexivity). Qed.

Lemma heap_shrunk_reached :
  let s0 := init_state 4096 1024 in
  let s1 := then_malloc 64 s0 in
  let s2 := then_malloc 64 s1 in
  let s3 := then_malloc 8 s2 in
  let s4 := then_malloc 8 s3 in
  let s5 := then_free 4224 s4 in
  my_malloc 16 64 s0 = Some (4128, s1)
  /\ my_malloc 16 64 s1 = Some (4224, s2)
  /\ my_malloc 16 8 s2 = Some (4320, s3)
  /\ my_malloc 16 8 s3 = Some (4360, s4)
  /\ my_free 16 4224 s4 = Some s5
  /\ my_realloc 16 4128 8 s5 = Some (4128, heap_shrunk).
Proof. cbv zeta. each_conjunct ltac:(vm_compute; reflexivity). Qed.

Lemma heap_free_24_reached :
  my_malloc 16 24 (init_state 4096 1024)
  = Some (4128, then_malloc 24 (init_state 4096 1024))
  /\ my_free 16 4128 (then_malloc 24 (init_state 4096 1024)) = Some heap_free_24.
Proof. split; vm_compute; reflexivity. Qed.

(** ** Frames *)

Lemma wrap64_add_r (a b : Z) : wrap64 (a + wrap64 b) = wrap64 (a + b).
Proof. unfold wrap64. apply Zplus_mod_idemp_r. Qed.

Lemma wrap64_add_l (a b : Z) : wrap64 (wrap64 a + b) = wrap64 (a + b).
Proof. unfold wrap64. apply Zplus_mod_idemp_l. Qed.

Lemma wrap64_fold (a b c : Z) :
  wrap64 (wrap64 (a + wrap64 b) + c) = wrap64 (a + (b + c)).
Proof.
  rewrite wrap64_add_l.
  replace (a + wrap64 b + c) with (a + c + wrap64 b) by lia.
  rewrite wrap64_add_r. f_equal. lia.
Qed.

Lemma same_header_fields (m m' : memory) (b : Z) :
  same_header m m' b ->
  b_size m' b = b_size m b /\ b_free m' b = b_free m b
  /\ b_next m' b = b_next m b /\ b_prev m' b = b_prev m b.
Proof.
  unfold same_header, sizeof_Block. intros H.
  repeat split; autounfold with fields; apply loadn_ext; intros x Hx; apply H; simpl in Hx; lia.
Qed.

Lemma same_header_refl (m : memory) (b : Z) : same_header m m b.
Proof. intros x _. reflexivity. Qed.

Lemma same_header_trans (m1 m2 m3 : memory) (b : Z) :
  same_header m1 m2 b -> same_header m2 m3 b -> same_header m1 m3 b.
Proof. intros H1 H2 x Hx. rewrite H2, H1 by exact Hx. reflexivity. Qed.

(** A store to a field of [a] leaves the header of a separate block alone. *)
Lemma same_header_set_size (m : memory) (a b v : Z) :
  sep a b -> same_header m (set_size m a v) b.
Proof. unfold sep, sizeof_Block. intros H x Hx. mem_simpl. reflexivity. Qed.

Lemma same_header_set_free (m : memory) (a b v : Z) :
  sep a b -> same_header m (set_free m a v) b.
Proof. unfold sep, sizeof_Block. intros H x Hx. mem_simpl. reflexivity. Qed.

Lemma same_header_set_next (m : memory) (a b v : Z) :
  sep a b -> same_header m (set_next m a v) b.
Proof. unfold sep, sizeof_Block. intros H x Hx. mem_simpl. reflexivity. Qed.

Lemma same_header_set_prev (m : memory) (a b v : Z) :
  sep a b -> same_header m (set_prev m a v) b.
Proof. unfold sep, sizeof_Block. intros H x Hx. mem_simpl. reflexivity. Qed.

Lemma sep_sym (a b : Z) : sep a b -> sep b a.
Proof. unfold sep. lia. Qed.

(** Reading one field after writing another field of the same block. *)
Lemma fields_set_size (m : memory) (b v : Z) :
  b_size (set_size m b v) b = wrap64 v
  /\ b_free (set_size m b v) b = b_free m b
  /\ b_next (set_size m b v) b = b_next m b
  /\ b_prev (set_size m b v) b = b_prev m b.
Proof. repeat split; mem_simpl; reflexivity. Qed.

Lemma fields_set_free (m : memory) (b v : Z) :
  b_size (set_free m b v) b = b_size m b
  /\ b_free (set_free m b v) b = wrap32 v
  /\ b_next (set_free m b v) b = b_next m b
  /\ b_prev (set_free m b v) b = b_prev m b.
Proof. repeat split; mem_simpl; reflexivity. Qed.

Lemma fields_set_next (m : memory) (b v : Z) :
  b_size (set_next m b v) b = b_size m b
  /\ b_free (set_next m b v) b = b_free m b
  /\ b_next (set_next m b v) b = wrap64 v
  /\ b_prev (set_next m b v) b = b_prev m b.
Proof. repeat split; mem_simpl; reflexivity. Qed.

Lemma fields_set_prev (m : memory) (b v : Z) :
  b_size (set_prev m b v) b = b_size m b
  /\ b_free (set_prev m b v) b = b_free m b
  /\ b_next (set_prev m b v) b = b_next m b
  /\ b_prev (set_prev m b v) b = wrap64 v.
Proof. repeat split; mem_simpl; reflexivity. Qed.

Lemma same_outside_refl (m : memory) (a n : Z) : same_outside m m a n.
Proof. intros x _. reflexivity. Qed.

Lemma same_outside_trans (m1 m2 m3 : memory) (a n : Z) :
  same_outside m1 m2 a n -> same_outside m2 m3 a n -> same_outside m1 m3 a n.
Proof. intros H1 H2 x Hx. rewrite H2, H1 by exact Hx. reflexivity. Qed.

Lemma same_outside_header (m m' : memory) (a n b : Z) :
  same_outside m m' a n -> b + sizeof_Block <= a \/ a + n <= b ->
  same_header m m' b.
Proof. intros H Hb x Hx. apply H. unfold sizeof_Block in *. lia. Qed.

Lemma same_outside_set_size (m : memory) (b v : Z) :
  same_outside m (set_size m b v) b 8.
Proof. intros x Hx. mem_simpl. reflexivity. Qed.

(** ** Coalescing *)

Lemma span_ext (m m' : memory) (l : list Z) :
  (forall x, In x l -> b_size m' x = b_size m x) -> span m' l = span m l.
Proof.
  induction l as [|x l IH]; intros H; [reflexivity|].
  cbn [span]. rewrite H by (left; reflexivity). rewrite IH; [reflexivity|].
  intros y Hy. apply H. right. exact Hy.
Qed.

Lemma span_app (m : memory) (l1 l2 : list Z) :
  span m (l1 ++ l2) = span m l1 + span m l2.
Proof. induction l1 as [|x l1 IH]; cbn [span app]; lia. Qed.

Lemma span_nonneg (m : memory) (l : list Z) : 0 <= span m l.
Proof.
  induction l as [|x l IH]; cbn [span]; [lia|].
  pose proof (b_size_range m x). unfold sizeof_Block. lia.
Qed.

(** The forward loop of Free folds a run of free successors into
    [free_block] and stops at the block that ends the run. *)
Lemma free_fwd_spec (N1 : list Z) :
  forall (fuel : nat) (m : memory) (free_block current_fwd z : Z),
    lseg (b_next m) current_fwd N1 z ->
    (forall x, In x N1 -> b_free m x = 1 /\ sep free_block x) ->
    z = NULL \/ (sep free_block z /\ b_free m z <> 1) ->
    (length N1 < fuel)%nat ->
    exists m',
      free_fwd fuel m free_block current_fwd = Some (m', z)
      /\ b_size m' free_block = wrap64 (b_size m free_block + span m N1)
      /\ same_outside m m' free_block 8.
Proof.
  induction N1 as [|x N1 IH]; intros fuel m fb cf z Hseg Hfree Hz Hfuel.
  - cbn [lseg] in Hseg. subst cf. destruct fuel as [|fuel]; [cbn in Hfuel; lia|].
    exists m. cbn [free_fwd span].
    assert (E : negb (z =? NULL) && (b_free m z =? 1) = false).
    { destruct Hz as [->|[_ Hz]]; [reflexivity|].
      apply Z.eqb_neq in Hz. rewrite Hz. apply andb_false_r. }
    rewrite E. split; [reflexivity|]. split; [|apply same_outside_refl].
    rewrite Z.add_0_r, wrap64_small; [reflexivity | apply b_size_range].
  - destruct Hseg as (-> & Hx & Hseg). destruct fuel as [|fuel]; [cbn in Hfuel; lia|].
    destruct (Hfree x (or_introl eq_refl)) as [Hfx Hsx].
    cbn [free_fwd]. destruct (Z.eqb_spec x NULL); [contradiction|].
    rewrite Hfx. cbn [negb andb Z.eqb Pos.eqb].
    set (m1 := set_size m fb _).
    assert (F1 : same_outside m m1 fb 8) by apply same_outside_set_size.
    assert (Hsame : forall y, sep fb y -> same_header m m1 y).
    { intros y Hy. apply (same_outside_header _ _ _ _ _ F1).
      unfold sep, sizeof_Block in *. lia. }
    destruct (same_header_fields _ _ _ (Hsame x Hsx)) as (_ & _ & En & _).
    rewrite En.
    destruct (IH fuel m1 fb (b_next m x) z) as (m' & E & Es & Fo).
    + eapply lseg_ext; [|exact Hseg]. intros y Hy.
      destruct (Hfree y (or_intror Hy)) as [_ Hsy].
      apply (same_header_fields _ _ _ (Hsame y Hsy)).
    + intros y Hy. destruct (Hfree y (or_intror Hy)) as [Hfy Hsy].
      split; [|exact Hsy].
      destruct (same_header_fields _ _ _ (Hsame y Hsy)) as (_ & -> & _). exact Hfy.
    + destruct Hz as [->|[Hsz Hfz]]; [left; reflexivity|]. right. split; [exact Hsz|].
      destruct (same_header_fields _ _ _ (Hsame z Hsz)) as (_ & -> & _). exact Hfz.
    + cbn [length] in Hfuel. lia.
    + exists m'. split; [exact E|]. split; [|eapply same_outside_trans; eassumption].
      rewrite Es. cbn [span].
      rewrite (span_ext m m1).
      * subst m1. destruct (fields_set_size m fb
          (wrap64 (b_size m fb + wrap64 (sizeof_Block + b_size m x)))) as (-> & _).
        rewrite (wrap64_small (wrap64 _)) by apply wrap64_range.
        apply wrap64_fold.
      * intros y Hy. destruct (Hfree y (or_intror Hy)) as [_ Hsy].
        apply (same_header_fields _ _ _ (Hsame y Hsy)).
Qed.

Lemma last_cons (x d : Z) (l : list Z) : List.last (x :: l) d = List.last l x.
Proof.
  revert x d. induction l as [|y l IH]; intros x d; [reflexivity|].
  change (List.last (x :: y :: l) d) with (List.last (y :: l) d).
  rewrite IH. symmetry. apply IH.
Qed.

Lemma last_in (l : list Z) (d : Z) : List.last l d = d \/ In (List.last l d) l.
Proof.
  revert d. induction l as [|x l IH]; intros d; [left; reflexivity|].
  right. rewrite last_cons. destruct (IH x) as [->|H]; [left; reflexivity | right; exact H].
Qed.

Lemma free_bck_unfold (fuel : nat) (m : memory) (fb cb : Z) :
  free_bck (S fuel) m fb cb
  = if negb (cb =? NULL) && (b_free m cb =? 1)
    then free_bck fuel (absorb m fb cb) cb (b_prev (absorb m fb cb) cb)
    else Some m.
Proof. reflexivity. Qed.

Lemma absorb_spec (m : memory) (fb x cf : Z) :
  sep fb x -> cf = NULL \/ (sep cf x /\ sep cf fb) ->
  b_next m fb = cf -> 0 <= x < 2 ^ 64 ->
  let m' := absorb m fb x in
  b_size m' x = wrap64 (b_size m x + wrap64 (sizeof_Block + b_size m fb))
  /\ b_free m' x = b_free m x
  /\ b_next m' x = cf
  /\ b_prev m' x = b_prev m x
  /\ (cf <> NULL ->
      b_prev m' cf = x /\ b_size m' cf = b_size m cf
      /\ b_free m' cf = b_free m cf /\ b_next m' cf = b_next m cf)
  /\ (forall y, sep x y -> cf = NULL \/ sep cf y -> same_header m m' y).
Proof.
  intros Hs Hcf Hn Hx m'. subst m'. unfold absorb.
  pose proof (b_next_range m fb) as Hr. rewrite Hn in Hr.
  assert (E1 : b_next (set_size m x
                 (wrap64 (b_size m x + wrap64 (sizeof_Block + b_size m fb)))) fb = cf).
  { rewrite <- Hn. unfold sep, sizeof_Block in Hs. mem_simpl. reflexivity. }
  rewrite E1.
  assert (E2 : b_next (set_next (set_size m x
                 (wrap64 (b_size m x + wrap64 (sizeof_Block + b_size m fb)))) x cf) fb = cf).
  { rewrite <- Hn at 2. unfold sep, sizeof_Block in Hs. mem_simpl. reflexivity. }
  rewrite E2.
  destruct (Z.eqb_spec cf NULL) as [E0|Hne].
  - repeat split.
    + mem_simpl. apply wrap64_small, wrap64_range.
    + mem_simpl. reflexivity.
    + mem_simpl. apply wrap64_small. exact Hr.
    + mem_simpl. reflexivity.
    + contradiction.
    + contradiction.
    + contradiction.
    + contradiction.
    + intros y Hy _ a Ha. unfold sep, sizeof_Block in *. mem_simpl. reflexivity.
  - destruct Hcf as [Hcf|[Hcx Hcfb]]; [contradiction|].
    unfold sep, sizeof_Block in Hcx, Hcfb, Hs.
    repeat split.
    + mem_simpl. apply wrap64_small, wrap64_range.
    + mem_simpl. reflexivity.
    + mem_simpl. apply wrap64_small. exact Hr.
    + mem_simpl. reflexivity.
    + mem_simpl. apply wrap64_small. exact Hx.
    + mem_simpl. reflexivity.
    + mem_simpl. reflexivity.
    + mem_simpl. reflexivity.
    + intros y Hy [Hc|Hc] a Ha; [contradiction|].
      unfold sep, sizeof_Block in *. mem_simpl. reflexivity.
Qed.

(** The backward loop of Free folds [free_block] into a run [Pr] of free
    predecessors (listed in the order the loop meets them); the last of
    them ends up holding the whole run, linked to the successor [cf]. *)
Lemma free_bck_spec (Pr : list Z) :
  forall (fuel : nat) (m : memory) (fb cb z cf : Z),
    lseg (b_prev m) cb Pr z ->
    (forall x, In x Pr -> b_free m x = 1 /\ 0 <= x < 2 ^ 64) ->
    all_sep (fb :: Pr) ->
    cf = NULL \/ (forall x, In x (fb :: Pr) -> sep cf x) ->
    b_next m fb = cf ->
    (cf <> NULL -> b_prev m cf = fb) ->
    z = NULL \/ ((forall x, In x Pr -> sep x z) /\ (cf = NULL \/ sep cf z)
                 /\ b_free m z <> 1) ->
    (length Pr < fuel)%nat ->
    exists m',
      free_bck fuel m fb cb = Some m'
      /\ b_size m' (List.last Pr fb) = wrap64 (b_size m fb + span m Pr)
      /\ b_free m' (List.last Pr fb) = b_free m (List.last Pr fb)
      /\ b_next m' (List.last Pr fb) = cf
      /\ b_prev m' (List.last Pr fb) = b_prev m (List.last Pr fb)
      /\ (cf <> NULL ->
          b_prev m' cf = List.last Pr fb /\ b_size m' cf = b_size m cf
          /\ b_free m' cf = b_free m cf /\ b_next m' cf = b_next m cf)
      /\ (forall y, (forall x, In x Pr -> sep x y) -> cf = NULL \/ sep cf y ->
          same_header m m' y).
Proof.
  induction Pr as [|x Pr IH]; intros fuel m fb cb z cf Hseg Hfree Hsep Hcf Hn Hp Hz Hfuel.
  - cbn [lseg] in Hseg. subst cb. destruct fuel as [|fuel]; [cbn in Hfuel; lia|].
    exists m. rewrite free_bck_unfold.
    assert (E : negb (z =? NULL) && (b_free m z =? 1) = false).
    { destruct Hz as [->|(_ & _ & Hz)]; [reflexivity|].
      apply Z.eqb_neq in Hz. rewrite Hz. apply andb_false_r. }
    rewrite E. cbn [List.last span]. split; [reflexivity|].
    split; [rewrite Z.add_0_r, wrap64_small; [reflexivity | apply b_size_range]|].
    split; [reflexivity|]. split; [exact Hn|]. split; [reflexivity|].
    split; [|intros; apply same_header_refl].
    intros Hne. split; [exact (Hp Hne)|]. repeat split; reflexivity.
  - destruct Hseg as (-> & Hx & Hseg). destruct fuel as [|fuel]; [cbn in Hfuel; lia|].
    destruct (Hfree x (or_introl eq_refl)) as [Hfx Hrx].
    destruct Hsep as [Hsfb Hsep].
    assert (Hsx : sep fb x) by (apply Hsfb; left; reflexivity).
    assert (Hcf' : cf = NULL \/ (sep cf x /\ sep cf fb)).
    { destruct Hcf as [->|Hcf]; [left; reflexivity|]. right. split; apply Hcf.
      - right. left. reflexivity.
      - left. reflexivity. }
    rewrite free_bck_unfold. destruct (Z.eqb_spec x NULL); [contradiction|].
    rewrite Hfx. cbn [negb andb Z.eqb Pos.eqb].
    destruct (absorb_spec m fb x cf Hsx Hcf' Hn Hrx) as (As & Af & An & Ap & Ac & Afr).
    set (m3 := absorb m fb x) in *.
    assert (Hsame : forall y, In y Pr -> same_header m m3 y).
    { intros y Hy. apply Afr.
      - destruct Hsep as [Hsep _]. apply Hsep. exact Hy.
      - destruct Hcf as [->|Hcf]; [left; reflexivity|]. right. apply Hcf. right. right. exact Hy. }
    rewrite Ap.
    destruct (IH fuel m3 x (b_prev m x) z cf) as (m' & E & Es & Ef & En & Epv & Ec & Efr).
    + eapply lseg_ext; [|exact Hseg]. intros y Hy.
      apply (same_header_fields _ _ _ (Hsame y Hy)).
    + intros y Hy. destruct (Hfree y (or_intror Hy)) as [Hfy Hry]. split; [|exact Hry].
      destruct (same_header_fields _ _ _ (Hsame y Hy)) as (_ & -> & _). exact Hfy.
    + exact Hsep.
    + destruct Hcf as [->|Hcf]; [left; reflexivity|]. right.
      intros y Hy. apply Hcf. right. exact Hy.
    + exact An.
    + intros Hne. apply (Ac Hne).
    + destruct Hz as [->|(Hz1 & Hz2 & Hz3)]; [left; reflexivity|]. right.
      split; [intros y Hy; apply Hz1; right; exact Hy|]. split; [exact Hz2|].
      assert (Hsz : same_header m m3 z).
      { apply Afr; [apply Hz1; left; reflexivity | exact Hz2]. }
      destruct (same_header_fields _ _ _ Hsz) as (_ & -> & _). exact Hz3.
    + cbn [length] in Hfuel. lia.
    + exists m'. split; [exact E|]. rewrite last_cons.
      assert (Hlast : same_header m m3 (List.last Pr x) \/ List.last Pr x = x).
      { destruct (last_in Pr x) as [->|Hin]; [right; reflexivity | left; apply Hsame, Hin]. }
      split.
      { rewrite Es, As. rewrite (span_ext m m3).
        - cbn [span]. rewrite wrap64_fold. f_equal. lia.
        - intros y Hy. apply (same_header_fields _ _ _ (Hsame y Hy)). }
      split.
      { rewrite Ef. destruct Hlast as [Hl| ->]; [|exact Af].
        apply (same_header_fields _ _ _ Hl). }
      split; [exact En|].
      split.
      { rewrite Epv. destruct Hlast as [Hl| ->]; [|exact Ap].
        apply (same_header_fields _ _ _ Hl). }
      split.
      { intros Hne. destruct (Ec Hne) as (C1 & C2 & C3 & C4).
        destruct (Ac Hne) as (_ & D2 & D3 & D4).
        split; [exact C1|]. split; [congruence|]. split; congruence. }
      intros y Hy Hcy. eapply same_header_trans.
      * apply Afr; [apply Hy; left; reflexivity | exact Hcy].
      * apply Efr; [intros x' Hx'; apply Hy; right; exact Hx' | exact Hcy].
Qed.

Lemma all_sep_app (l1 l2 : list Z) :
  all_sep (l1 ++ l2) <-> all_sep l1 /\ all_sep l2 /\ cross_sep l1 l2.
Proof.
  unfold cross_sep. induction l1 as [|x l1 IH]; cbn [all_sep app].
  - split; [intros H; repeat split; [exact H | intros x y []] | intros (_ & H & _); exact H].
  - rewrite IH. split.
    + intros (Hx & H1 & H2 & Hc). repeat split; try assumption.
      * intros y Hy. apply Hx, in_or_app. left. exact Hy.
      * intros a b [<-|Ha] Hb; [apply Hx, in_or_app; right; exact Hb | apply Hc; assumption].
    + intros ((Hx & H1) & H2 & Hc). repeat split; try assumption.
      * intros y Hy. apply in_app_or in Hy as [Hy|Hy]; [apply Hx, Hy|].
        apply Hc; [left; reflexivity | exact Hy].
      * intros a b Ha Hb. apply Hc; [right; exact Ha | exact Hb].
Qed.

Lemma cross_sep_sym (l1 l2 : list Z) : cross_sep l1 l2 -> cross_sep l2 l1.
Proof. intros H x y Hx Hy. apply sep_sym, H; assumption. Qed.

Lemma all_sep_rev (l : list Z) : all_sep l -> all_sep (rev l).
Proof.
  induction l as [|x l IH]; intros H; [exact I|].
  destruct H as [Hx H]. cbn [rev]. apply all_sep_app. split; [apply IH, H|].
  split; [split; [intros y []|exact I]|].
  intros a b Ha [<-|[]]. apply sep_sym, Hx. apply in_rev. exact Ha.
Qed.

Lemma span_rev (m : memory) (l : list Z) : span m (rev l) = span m l.
Proof.
  induction l as [|x l IH]; [reflexivity|].
  cbn [rev]. rewrite span_app, IH. cbn [span]. lia.
Qed.

Lemma lseg_hd (link : Z -> Z) (l : list Z) (a z : Z) :
  lseg link a l z -> a = hd z l.
Proof. destruct l; cbn [lseg hd]; [auto | intros (-> & _); reflexivity]. Qed.

Lemma lseg_snoc (link : Z -> Z) (l : list Z) (a x z : Z) :
  lseg link a (l ++ [x]) z <-> lseg link a l x /\ x <> NULL /\ link x = z.
Proof.
  rewrite lseg_app. cbn [lseg]. split.
  - intros (b & H & -> & Hx & E). auto.
  - intros (H & Hx & E). exists x. auto.
Qed.

Lemma last_rev_hd (l : list Z) (d : Z) : List.last (rev l) d = hd d l.
Proof.
  destruct l as [|x l]; [reflexivity|]. cbn [rev hd].
  rewrite last_last. reflexivity.
Qed.

Lemma hd_rev_last (l : list Z) (d : Z) : hd d (rev l) = List.last l d.
Proof. rewrite <- (rev_involutive l) at 2. symmetry. apply last_rev_hd. Qed.

(** ** Free on a well-formed list *)

Lemma my_free_unfold (fuel : nat) (ptr : Z) (s : state) :
  ptr <> NULL ->
  my_free fuel ptr s
  = let fb := ptr - sizeof_Block in
    let m0 := set_free (mem s) fb 1 in
    match free_fwd fuel m0 fb (b_next m0 fb) with
    | None => None
    | Some (m1, cf) =>
        match free_bck fuel (free_link m1 fb cf) fb (b_prev (free_link m1 fb cf) fb) with
        | None => None
        | Some m' => Some (with_mem s m')
        end
    end.
Proof.
  intros Hp. unfold my_free. destruct (Z.eqb_spec ptr NULL); [contradiction|].
  reflexivity.
Qed.

Lemma free_link_spec (m : memory) (fb cf : Z) :
  cf = NULL \/ sep cf fb -> 0 <= cf < 2 ^ 64 -> 0 <= fb < 2 ^ 64 ->
  let m' := free_link m fb cf in
  b_size m' fb = b_size m fb
  /\ b_free m' fb = b_free m fb
  /\ b_next m' fb = cf
  /\ b_prev m' fb = b_prev m fb
  /\ (cf <> NULL ->
      b_prev m' cf = fb /\ b_size m' cf = b_size m cf
      /\ b_free m' cf = b_free m cf /\ b_next m' cf = b_next m cf)
  /\ (forall y, sep fb y -> cf = NULL \/ sep cf y -> same_header m m' y).
Proof.
  intros Hcf Hrc Hrf m'. subst m'. unfold free_link.
  destruct (Z.eqb_spec cf NULL) as [E0|Hne].
  - repeat split; try contradiction.
    + mem_simpl. reflexivity.
    + mem_simpl. reflexivity.
    + mem_simpl. apply wrap64_small. exact Hrc.
    + mem_simpl. reflexivity.
    + intros y Hy _ a Ha. unfold sep, sizeof_Block in *. mem_simpl. reflexivity.
  - destruct Hcf as [Hcf|Hcf]; [contradiction|]. unfold sep, sizeof_Block in Hcf.
    repeat split.
    + mem_simpl. reflexivity.
    + mem_simpl. reflexivity.
    + mem_simpl. apply wrap64_small. exact Hrc.
    + mem_simpl. reflexivity.
    + mem_simpl. apply wrap64_small. exact Hrf.
    + mem_simpl. reflexivity.
    + mem_simpl. reflexivity.
    + mem_simpl. reflexivity.
    + intros y Hy [Hc|Hc] a Ha; [contradiction|].
      unfold sep, sizeof_Block in *. mem_simpl. reflexivity.
Qed.

(** Membership in a list given by appends and conses. *)
Ltac in_search :=
  solve [ assumption | reflexivity | left; in_search | right; in_search ].
Ltac in_tac :=
  first [ solve [ repeat first [ rewrite in_app_iff | progress cbn [In] ]; in_search ]
        | repeat first [ rewrite in_app_iff in * | progress cbn [In] in * ];
          intuition auto ].

(** What [dll] says about a list cut around a block [fb]. *)
Section FreeSpec.
Variables (m : memory) (h : Z) (P1 P2 N1 N2 : list Z) (fb : Z).
Hypothesis Hdll : dll m h (P1 ++ P2 ++ fb :: N1 ++ N2).

Lemma free_fwd_chain :
  lseg (b_next m) h P1 (hd fb P2)
  /\ lseg (b_next m) (hd fb P2) P2 fb
  /\ fb <> NULL
  /\ lseg (b_next m) (b_next m fb) N1 (hd NULL N2)
  /\ lseg (b_next m) (hd NULL N2) N2 NULL.
Proof.
  destruct Hdll as (Hf & _).
  apply lseg_app in Hf as (a1 & H1 & Hf).
  apply lseg_app in Hf as (a2 & H2 & Hf).
  destruct Hf as (-> & Hfb & Hf).
  apply lseg_app in Hf as (a3 & H3 & H4).
  pose proof (lseg_hd _ _ _ _ H2) as E1.
  pose proof (lseg_hd _ _ _ _ H4) as E3.
  subst a1 a3. auto.
Qed.

Lemma free_bck_chain :
  lseg (b_prev m) (List.last (P1 ++ P2 ++ fb :: N1 ++ N2) NULL) (rev N2) (List.last N1 fb)
  /\ lseg (b_prev m) (List.last N1 fb) (rev N1) fb
  /\ lseg (b_prev m) (b_prev m fb) (rev P2) (List.last P1 NULL)
  /\ lseg (b_prev m) (List.last P1 NULL) (rev P1) NULL.
Proof.
  destruct Hdll as (_ & Hb & _).
  rewrite !rev_app_distr in Hb. cbn [rev] in Hb. rewrite !rev_app_distr in Hb.
  rewrite <- !app_assoc in Hb. cbn [app] in Hb.
  apply lseg_app in Hb as (a1 & H1 & Hb).
  apply lseg_app in Hb as (a2 & H2 & Hb).
  destruct Hb as (-> & Hfb & Hb).
  apply lseg_app in Hb as (a3 & H3 & H4).
  pose proof (lseg_hd _ _ _ _ H2) as E1. rewrite hd_rev_last in E1.
  pose proof (lseg_hd _ _ _ _ H4) as E3. rewrite hd_rev_last in E3.
  subst a1 a3. auto.
Qed.

Lemma free_seps :
  all_sep P1 /\ all_sep P2 /\ all_sep N1 /\ all_sep N2
  /\ cross_sep P1 P2 /\ cross_sep P1 [fb] /\ cross_sep P1 N1 /\ cross_sep P1 N2
  /\ cross_sep P2 [fb] /\ cross_sep P2 N1 /\ cross_sep P2 N2
  /\ cross_sep [fb] N1 /\ cross_sep [fb] N2 /\ cross_sep N1 N2.
Proof.
  destruct Hdll as (_ & _ & Hs & _).
  apply all_sep_app in Hs as (S1 & Hs & C1).
  apply all_sep_app in Hs as (S2 & Hs & C2).
  destruct Hs as (Cf & Hs).
  apply all_sep_app in Hs as (S3 & S4 & C3).
  repeat split; try assumption; intros x y Hx Hy;
    first [ apply C3; assumption
          | apply C1; [exact Hx | in_tac]
          | apply C2; [exact Hx | in_tac]
          | destruct Hx as [<-|[]]; apply Cf; in_tac ].
Qed.

Lemma free_ranges :
  (forall x, In x P1 -> 0 < x < 2 ^ 64) /\ (forall x, In x P2 -> 0 < x < 2 ^ 64)
  /\ 0 < fb < 2 ^ 64
  /\ (forall x, In x N1 -> 0 < x < 2 ^ 64) /\ (forall x, In x N2 -> 0 < x < 2 ^ 64).
Proof.
  destruct Hdll as (_ & _ & _ & Hr).
  split; [intros x Hx; apply Hr; in_tac|].
  split; [intros x Hx; apply Hr; in_tac|].
  split; [apply Hr; in_tac|].
  split; intros x Hx; apply Hr; in_tac.
Qed.
End FreeSpec.

Lemma same_outside_size_fields (m m' : memory) (b : Z) :
  same_outside m m' b 8 ->
  b_free m' b = b_free m b /\ b_next m' b = b_next m b /\ b_prev m' b = b_prev m b.
Proof.
  intros H. repeat split; autounfold with fields; apply loadn_ext;
    intros x Hx; apply H; simpl in Hx; lia.
Qed.

Lemma last_app_cons (l l' : list Z) (x d : Z) :
  List.last (l ++ x :: l') d = List.last (x :: l') d.
Proof.
  induction l as [|y l IH]; [reflexivity|].
  cbn [app]. rewrite last_cons. rewrite <- IH.
  destruct l; cbn [app]; rewrite !last_cons; reflexivity.
Qed.

Lemma my_free_free_mem (fuel : nat) (ptr : Z) (s : state) :
  ptr <> NULL ->
  my_free fuel ptr s
  = match free_mem fuel (mem s) (ptr - sizeof_Block) with
    | None => None
    | Some m' => Some (with_mem s m')
    end.
Proof.
  intros Hp. rewrite my_free_unfold by exact Hp. unfold free_mem. cbv zeta.
  destruct (free_fwd _ _ _ _) as [[m1 cf]|]; reflexivity.
Qed.

(** Free on a well-formed list: the run [P2] of free predecessors, the
    block [fb] and the run [N1] of free successors become one block, at
    the address of the first of them. *)
Lemma free_mem_spec (fuel : nat) (m : memory) (h : Z) (P1 P2 N1 N2 : list Z) (fb : Z) :
  dll m h (P1 ++ P2 ++ fb :: N1 ++ N2) ->
  (forall x, In x P2 -> b_free m x = 1) ->
  (forall x, In x N1 -> b_free m x = 1) ->
  P1 = [] \/ b_free m (List.last P1 NULL) <> 1 ->
  N2 = [] \/ b_free m (hd NULL N2) <> 1 ->
  (length P2 < fuel)%nat -> (length N1 < fuel)%nat ->
  exists m',
    free_mem fuel m fb = Some m'
    /\ dll m' h (P1 ++ hd fb P2 :: N2)
    /\ b_free m' (hd fb P2) = 1
    /\ b_size m' (hd fb P2) = wrap64 (b_size m fb + span m P2 + span m N1)
    /\ (forall y, In y (P1 ++ N2) ->
        b_size m' y = b_size m y /\ b_free m' y = b_free m y).
Proof.
  intros Hdll HfP HfN HsP HsN HlP HlN.
  destruct (free_fwd_chain _ _ _ _ _ _ _ Hdll) as (F1 & F2 & Hfb & F3 & F4).
  destruct (free_bck_chain _ _ _ _ _ _ _ Hdll) as (B1 & B2 & B3 & B4).
  destruct (free_seps _ _ _ _ _ _ _ Hdll)
    as (S1 & S2 & S3 & S4 & C12 & C1f & C1n & C1m & C2f & C2n & C2m & Cfn & Cfm & Cnm).
  destruct (free_ranges _ _ _ _ _ _ _ Hdll) as (R1 & R2 & Rf & R3 & R4).
  set (z := hd NULL N2) in *. set (w := List.last P1 NULL) in *.
  assert (Hz : z = NULL \/ In z N2).
  { subst z. destruct N2; [left; reflexivity | right; left; reflexivity]. }
  assert (Hw : w = NULL \/ In w P1).
  { subst w. apply last_in. }
  assert (Hzr : 0 <= z < 2 ^ 64).
  { destruct Hz as [->|Hz]; [unfold NULL; lia | apply R4 in Hz; lia]. }
  assert (Hzf : z = NULL \/ sep z fb).
  { destruct Hz as [Hz|Hz]; [left; exact Hz | right; apply sep_sym, Cfm; in_tac]. }
  (* the flag *)
  unfold free_mem. cbv zeta.
  set (m0 := set_free m fb 1).
  destruct (fields_set_free m fb 1) as (Z0s & Z0f & Z0n & Z0p). fold m0 in Z0s, Z0f, Z0n, Z0p.
  assert (H0 : forall y, sep fb y -> same_header m m0 y).
  { intros y Hy. apply same_header_set_free. exact Hy. }
  (* the forward walk *)
  destruct (free_fwd_spec N1 fuel m0 fb (b_next m0 fb) z) as (m1 & E1 & Z1s & Fo).
  { rewrite Z0n. eapply lseg_ext; [|exact F3]. intros y Hy.
    apply (same_header_fields _ _ _ (H0 y (Cfn fb y ltac:(in_tac) Hy))). }
  { intros y Hy. assert (Hs : sep fb y) by (apply Cfn; [in_tac | exact Hy]).
    split; [|exact Hs].
    destruct (same_header_fields _ _ _ (H0 y Hs)) as (_ & -> & _). apply HfN, Hy. }
  { destruct Hz as [Hz|Hz]; [left; exact Hz | right].
    assert (Hs : sep fb z) by (apply Cfm; [in_tac | exact Hz]).
    split; [exact Hs|].
    destruct (same_header_fields _ _ _ (H0 z Hs)) as (_ & -> & _).
    destruct HsN as [HsN|HsN]; [rewrite HsN in Hz; destruct Hz | exact HsN]. }
  { exact HlN. }
  rewrite E1.
  destruct (same_outside_size_fields _ _ _ Fo) as (Z1f & Z1n & Z1p).
  assert (H1 : forall y, sep fb y -> same_header m0 m1 y).
  { intros y Hy. apply (same_outside_header _ _ _ _ _ Fo).
    unfold sep, sizeof_Block in *. lia. }
  (* the link to the successor *)
  destruct (free_link_spec m1 fb z Hzf Hzr ltac:(lia)) as (Z2s & Z2f & Z2n & Z2p & Z2c & H2).
  set (m2 := free_link m1 fb z) in *.
  assert (H02 : forall y, sep fb y -> z = NULL \/ sep z y -> same_header m m2 y).
  { intros y Hy Hzy. eapply same_header_trans; [apply H0, Hy|].
    eapply same_header_trans; [apply H1, Hy | apply H2; assumption]. }
  assert (HP2 : forall y, In y P2 -> same_header m m2 y).
  { intros y Hy. apply H02; [apply sep_sym, C2f; in_tac|].
    destruct Hz as [Hz|Hz]; [left; exact Hz | right; apply sep_sym, C2m; assumption]. }
  assert (HP1 : forall y, In y P1 -> same_header m m2 y).
  { intros y Hy. apply H02; [apply sep_sym, C1f; in_tac|].
    destruct Hz as [Hz|Hz]; [left; exact Hz | right; apply sep_sym, C1m; assumption]. }
  (* the backward walk *)
  destruct (free_bck_spec (rev P2) fuel m2 fb (b_prev m2 fb) w z)
    as (m' & E' & Zs & Zf & Zn & Zp & Zc & H').
  { rewrite Z2p, Z1p, Z0p. eapply lseg_ext; [|exact B3]. intros y Hy.
    apply in_rev in Hy. apply (same_header_fields _ _ _ (HP2 y Hy)). }
  { intros y Hy. apply in_rev in Hy. split; [|apply R2 in Hy; lia].
    destruct (same_header_fields _ _ _ (HP2 y Hy)) as (_ & -> & _). apply HfP, Hy. }
  { split; [|apply all_sep_rev, S2].
    intros y Hy. apply in_rev in Hy. apply sep_sym, C2f; in_tac. }
  { destruct Hz as [Hz|Hz]; [left; exact Hz | right].
    intros y [<-|Hy]; [apply sep_sym, Cfm; in_tac|].
    apply in_rev in Hy. apply sep_sym, C2m; assumption. }
  { exact Z2n. }
  { intros Hne. apply (Z2c Hne). }
  { destruct Hw as [Hw|Hw]; [left; exact Hw | right].
    split; [intros y Hy; apply in_rev in Hy; apply sep_sym, C12; assumption|].
    split; [destruct Hz as [Hz|Hz]; [left; exact Hz | right; apply sep_sym, C1m; assumption]|].
    destruct (same_header_fields _ _ _ (HP1 w Hw)) as (_ & -> & _).
    destruct HsP as [HsP|HsP]; [rewrite HsP in Hw; destruct Hw | exact HsP]. }
  { rewrite length_rev. exact HlP. }
  rewrite last_rev_hd in Zs, Zf, Zn, Zp, Zc.
  set (fb' := hd fb P2) in *.
  assert (Hfb' : fb' = fb /\ P2 = [] \/ In fb' P2).
  { subst fb'. destruct P2; [left; split; reflexivity | right; left; reflexivity]. }
  assert (Hfbin : In fb' (P2 ++ [fb])).
  { destruct Hfb' as [[-> _]|Hin]; in_tac. }
  assert (Hframe : forall y, sep fb y -> (forall x, In x P2 -> sep x y) ->
                             z = NULL \/ sep z y -> same_header m m' y).
  { intros y Hy HPy Hzy. eapply same_header_trans; [apply H02; assumption|].
    apply H'; [|exact Hzy]. intros x Hx. apply in_rev in Hx. apply HPy, Hx. }
  assert (HF1 : forall y, In y P1 -> same_header m m' y).
  { intros y Hy. apply Hframe.
    - apply sep_sym, C1f; in_tac.
    - intros x Hx. apply sep_sym, C12; assumption.
    - destruct Hz as [Hz|Hz]; [left; exact Hz | right; apply sep_sym, C1m; assumption]. }
  assert (HN2 : forall y, In y N2 ->
                b_size m' y = b_size m y /\ b_free m' y = b_free m y
                /\ b_next m' y = b_next m y
                /\ (y <> z -> b_prev m' y = b_prev m y)).
  { intros y Hy. destruct (Z.eq_dec y z) as [->|Hyz].
    - assert (Hne : z <> NULL).
      { apply R4 in Hy. unfold NULL. lia. }
      destruct (Zc Hne) as (_ & A1 & A2 & A3). destruct (Z2c Hne) as (_ & D1 & D2 & D3).
      assert (Hs : sep fb z) by (apply Cfm; [in_tac | exact Hy]).
      destruct (same_header_fields _ _ _ (H0 z Hs)) as (G1 & G2 & G3 & _).
      destruct (same_header_fields _ _ _ (H1 z Hs)) as (K1 & K2 & K3 & _).
      repeat split; try congruence.
    - assert (Hs : same_header m m' y).
      { apply Hframe.
        - apply Cfm; [in_tac | exact Hy].
        - intros x Hx. apply C2m; assumption.
        - right. subst z. destruct N2 as [|z0 N2']; [destruct Hy|].
          cbn [hd] in *. destruct Hy as [Hy|Hy]; [congruence|].
          destruct S4 as [S4 _]. apply S4, Hy. }
      destruct (same_header_fields _ _ _ Hs) as (G1 & G2 & G3 & G4). auto. }
  assert (Hprev : b_prev m' fb' = w).
  { rewrite Zp. destruct Hfb' as [[-> HP2e]|Hin].
    - rewrite Z2p, Z1p, Z0p. rewrite HP2e in B3. cbn [rev lseg] in B3. exact B3.
    - destruct (same_header_fields _ _ _ (HP2 fb' Hin)) as (_ & _ & _ & ->).
      subst fb'. destruct P2 as [|p P2']; [destruct Hin|]. cbn [hd rev] in *.
      apply lseg_snoc in B3 as (_ & _ & B3). exact B3. }
  assert (Hfbne : fb' <> NULL).
  { apply in_app_or in Hfbin as [Hin|[<-|[]]]; [apply R2 in Hin; unfold NULL; lia | exact Hfb]. }
  assert (Hbk : lseg (b_prev m') fb' (fb' :: rev P1) NULL).
  { cbn [lseg]. split; [reflexivity|]. split; [exact Hfbne|]. rewrite Hprev.
    eapply lseg_ext; [|exact B4]. intros y Hy. apply in_rev in Hy.
    apply (same_header_fields _ _ _ (HF1 y Hy)). }
  exists m'. split; [exact E'|]. split; [|split; [|split]].
  - (* the list *)
    split; [|split; [|split]].
    + apply lseg_app. exists fb'. split.
      * eapply lseg_ext; [|exact F1]. intros y Hy.
        apply (same_header_fields _ _ _ (HF1 y Hy)).
      * cbn [lseg]. split; [reflexivity|]. split; [exact Hfbne|]. rewrite Zn.
        eapply lseg_ext; [|exact F4]. intros y Hy. apply (HN2 y Hy).
    + rewrite rev_app_distr. cbn [rev]. rewrite <- app_assoc. cbn [app].
      destruct N2 as [|z0 N2'].
      * cbn [rev app]. rewrite last_last. exact Hbk.
      * cbn [hd] in z. rewrite last_app_cons, !last_cons.
        replace (P1 ++ P2 ++ fb :: N1 ++ z0 :: N2')
          with ((P1 ++ P2 ++ fb :: N1) ++ z0 :: N2') in B1
          by (rewrite <- !app_assoc; reflexivity).
        rewrite last_app_cons, last_cons in B1.
        cbn [rev] in B1 |- *. rewrite <- app_assoc. cbn [app].
        apply lseg_snoc in B1 as (B1 & Hz0 & _).
        apply lseg_app. exists z0. split.
        -- eapply lseg_ext; [|exact B1]. intros y Hy. apply in_rev in Hy.
           apply (HN2 y (or_intror Hy)).
           intros ->. destruct S4 as [S4 _]. specialize (S4 z0 Hy).
           unfold sep, sizeof_Block in S4. lia.
        -- cbn [lseg]. split; [reflexivity|]. split; [exact Hz0|].
           destruct (Zc Hz0) as (Ez & _). unfold z in Ez. rewrite Ez. exact Hbk.
    + apply all_sep_app. split; [exact S1|]. split; [split; [|exact S4]|].
      * intros y Hy. apply in_app_or in Hfbin as [Hin|[<-|[]]];
          [apply C2m; assumption | apply Cfm; [in_tac | exact Hy]].
      * intros x y Hx [<-|Hy]; [|apply C1m; assumption].
        apply in_app_or in Hfbin as [Hin|[<-|[]]];
          [apply C12; assumption | apply C1f; [exact Hx | in_tac]].
    + intros x Hx. apply in_app_or in Hx as [Hx|[<-|Hx]]; [apply R1, Hx| |apply R4, Hx].
      apply in_app_or in Hfbin as [Hin|[<-|[]]]; [apply R2, Hin | exact Rf].
  - (* the flag *)
    rewrite Zf. destruct Hfb' as [[-> _]|Hin].
    + rewrite Z2f, Z1f. exact Z0f.
    + destruct (same_header_fields _ _ _ (HP2 fb' Hin)) as (_ & -> & _). apply HfP, Hin.
  - (* the size *)
    rewrite Zs, Z2s, Z1s, Z0s.
    rewrite (span_ext m m0 N1), (span_ext m m2 (rev P2)), span_rev.
    + rewrite wrap64_add_l. f_equal. lia.
    + intros y Hy. apply in_rev in Hy. apply (same_header_fields _ _ _ (HP2 y Hy)).
    + intros y Hy. apply (same_header_fields _ _ _ (H0 y (Cfn fb y ltac:(in_tac) Hy))).
  - intros y Hy. apply in_app_or in Hy as [Hy|Hy].
    + destruct (same_header_fields _ _ _ (HF1 y Hy)) as (G1 & G2 & _). auto.
    + destruct (HN2 y Hy) as (G1 & G2 & _). auto.
Qed.

Lemma naf_ext (m m' : memory) (l : list Z) :
  (forall x, In x l -> b_free m' x = b_free m x) ->
  no_adjacent_free m l -> no_adjacent_free m' l.
Proof.
  induction l as [|x l IH]; intros He H; [exact I|].
  destruct H as [Hx H]. split.
  - destruct l as [|y l]; [exact I|].
    rewrite (He x), (He y) by in_tac. exact Hx.
  - apply IH; [|exact H]. intros y Hy. apply He. right. exact Hy.
Qed.

Lemma naf_app_inv (m : memory) (l1 l2 : list Z) :
  no_adjacent_free m (l1 ++ l2) -> no_adjacent_free m l1 /\ no_adjacent_free m l2.
Proof.
  induction l1 as [|x l1 IH]; intros H; [split; [exact I | exact H]|].
  cbn [app] in H. destruct H as [Hx H]. destruct (IH H) as [H1 H2].
  split; [|exact H2]. split; [|exact H1].
  destruct l1 as [|y l1]; [exact I | exact Hx].
Qed.

Lemma naf_join (m : memory) (l1 l2 : list Z) (x : Z) :
  no_adjacent_free m l1 -> no_adjacent_free m (x :: l2) ->
  l1 = [] \/ b_free m (List.last l1 NULL) <> 1 ->
  no_adjacent_free m (l1 ++ x :: l2).
Proof.
  induction l1 as [|a l1 IH]; intros H1 H2 Hl; [exact H2|].
  destruct H1 as [Ha H1]. destruct Hl as [Hl|Hl]; [discriminate|].
  cbn [app]. split.
  - destruct l1 as [|b l1]; [|exact Ha].
    cbn [app]. cbn [List.last] in Hl. intros [Hf _]. contradiction.
  - apply IH; [exact H1 | exact H2|].
    destruct l1 as [|b l1]; [left; reflexivity | right].
    rewrite last_cons in Hl. rewrite last_cons. rewrite last_cons in Hl. exact Hl.
Qed.

(** C2 (amended).  Free of the payload pointer of a block [fb] of a
    well-formed list, where [P2] and [N1] are the runs of free blocks just
    before and just after [fb] (the blocks next to the runs, if any, are
    not free): the call returns, the list loses the blocks of the runs and
    of [fb] but for the first of them, which is free and whose size is the
    sum of their sizes plus one header for each block absorbed; its
    neighbours are not free; and if no two neighbours of the list were
    free before the call, none are after it. *)
Theorem my_free_coalesces
    (fuel : nat) (s : state) (P1 P2 N1 N2 : list Z) (fb : Z) :
  dll (mem s) (head s) (P1 ++ P2 ++ fb :: N1 ++ N2) ->
  (forall x, In x P2 -> b_free (mem s) x = 1) ->
  (forall x, In x N1 -> b_free (mem s) x = 1) ->
  P1 = [] \/ b_free (mem s) (List.last P1 NULL) <> 1 ->
  N2 = [] \/ b_free (mem s) (hd NULL N2) <> 1 ->
  (length P2 < fuel)%nat -> (length N1 < fuel)%nat ->
  exists s',
    my_free fuel (fb + sizeof_Block) s = Some s'
    /\ head s' = head s
    /\ dll (mem s') (head s') (P1 ++ hd fb P2 :: N2)
    /\ b_free (mem s') (hd fb P2) = 1
    /\ b_size (mem s') (hd fb P2)
       = wrap64 (b_size (mem s) fb + span (mem s) P2 + span (mem s) N1)
    /\ (P1 = [] \/ b_free (mem s') (List.last P1 NULL) <> 1)
    /\ (N2 = [] \/ b_free (mem s') (hd NULL N2) <> 1)
    /\ (no_adjacent_free (mem s) (P1 ++ P2 ++ fb :: N1 ++ N2) ->
        no_adjacent_free (mem s') (P1 ++ hd fb P2 :: N2)).
Proof.
  intros Hdll HfP HfN HsP HsN HlP HlN.
  destruct (free_mem_spec fuel (mem s) (head s) P1 P2 N1 N2 fb
              Hdll HfP HfN HsP HsN HlP HlN) as (m' & E & Hd & Hf & Hs & Hk).
  destruct (free_ranges _ _ _ _ _ _ _ Hdll) as (_ & _ & Rf & _).
  exists (with_mem s m').
  assert (Hp : fb + sizeof_Block <> NULL) by (unfold NULL, sizeof_Block; lia).
  rewrite my_free_free_mem by exact Hp.
  replace (fb + sizeof_Block - sizeof_Block) with fb by lia. rewrite E.
  cbn [mem head with_mem].
  assert (HkP : P1 = [] \/ b_free m' (List.last P1 NULL) <> 1).
  { destruct P1 as [|p P1']; [left; reflexivity | right].
    destruct HsP as [HsP|HsP]; [discriminate|].
    destruct (Hk (List.last (p :: P1') NULL)) as [_ ->]; [|exact HsP].
    rewrite last_cons. destruct (last_in P1' p) as [->|Hin]; in_tac. }
  assert (HkN : N2 = [] \/ b_free m' (hd NULL N2) <> 1).
  { destruct N2 as [|z N2']; [left; reflexivity | right].
    destruct HsN as [HsN|HsN]; [discriminate|].
    cbn [hd] in *. destruct (Hk z) as [_ ->]; [in_tac | exact HsN]. }
  repeat (split; [first [reflexivity | assumption]|]).
  intros Hnaf.
  apply naf_app_inv in Hnaf as [Hn1 Hnaf].
  apply naf_app_inv in Hnaf as [_ Hnaf].
  change (fb :: N1 ++ N2) with ([fb] ++ N1 ++ N2) in Hnaf.
  apply naf_app_inv in Hnaf as [_ Hnaf].
  apply naf_app_inv in Hnaf as [_ Hn2].
  apply naf_join; [| |exact HkP].
  - apply (naf_ext (mem s)); [|exact Hn1]. intros y Hy. apply Hk. in_tac.
  - split.
    + destruct N2 as [|z N2']; [exact I|]. intros [_ Hz].
      destruct HkN as [HkN|HkN]; [discriminate | contradiction].
    + apply (naf_ext (mem s)); [|exact Hn2]. intros y Hy. apply Hk. in_tac.
Qed.

(** Closes [dll] and its parts on a concrete heap. *)
Ltac concrete_lseg :=
  vm_compute; repeat split; first [reflexivity | discriminate].
Ltac concrete_sep :=
  cbn [all_sep app hd]; repeat split; try exact I;
  intros y Hy; cbn [In] in Hy; unfold sep, sizeof_Block; lia.
Ltac concrete_dll :=
  split; [concrete_lseg | split; [concrete_lseg | split; [concrete_sep|]]];
  intros x Hx; cbn [In app hd] in Hx; lia.

Lemma my_free_coalesces_witness :
  exists s',
    my_free 5 (4144 + sizeof_Block) heap_free_used_free = Some s'
    /\ head s' = head heap_free_used_free
    /\ dll (mem s') (head s') ([] ++ hd 4144 [4096] :: [])
    /\ b_free (mem s') (hd 4144 [4096]) = 1
    /\ b_size (mem s') (hd 4144 [4096])
       = wrap64 (b_size (mem heap_free_used_free) 4144
                 + span (mem heap_free_used_free) [4096]
                 + span (mem heap_free_used_free) [4192])
    /\ (@nil Z = [] \/ b_free (mem s') (List.last [] NULL) <> 1)
    /\ (@nil Z = [] \/ b_free (mem s') (hd NULL []) <> 1)
    /\ (no_adjacent_free (mem heap_free_used_free) ([] ++ [4096] ++ 4144 :: [4192] ++ []) ->
        no_adjacent_free (mem s') ([] ++ hd 4144 [4096] :: [])).
Proof.
  apply (my_free_coalesces 5 heap_free_used_free [] [4096] [4192] [] 4144).
  - concrete_dll.
  - intros x [<-|[]]. vm_compute. reflexivity.
  - intros x [<-|[]]. vm_compute. reflexivity.
  - left. reflexivity.
  - left. reflexivity.
  - simpl. lia.
  - simpl. lia.
Defined.

(** C2 as stated fails: [my_free(d)] on that heap returns with the blocks
    at 4136 and 4192 both free and adjacent in the list. *)
Lemma my_free_leaves_adjacent_free :
  my_free 5 4360 heap_shrunk = Some heap_adjacent_free
  /\ dll (mem heap_adjacent_free) (head heap_adjacent_free)
         [4096; 4136; 4192; 4288; 4328]
  /\ b_free (mem heap_adjacent_free) 4136 = 1
  /\ b_free (mem heap_adjacent_free) 4192 = 1
  /\ ~ no_adjacent_free (mem heap_adjacent_free) [4096; 4136; 4192; 4288; 4328].
Proof.
  split; [vm_compute; reflexivity|].
  split; [concrete_dll|].
  split; [vm_compute; reflexivity|]. split; [vm_compute; reflexivity|].
  intros (_ & H & _). apply H. split; vm_compute; reflexivity.
Qed.

(** ** Address order *)

Lemma laid_out_le (m : memory) (L : list Z) (lo hi : Z) :
  laid_out m L lo hi -> lo <= hi.
Proof.
  revert lo. induction L as [|x L IH]; intros lo H; [exact H|].
  destruct H as [Hx H]. apply IH in H. pose proof (b_size_range m x).
  unfold sizeof_Block in H. lia.
Qed.

Lemma laid_out_bounds (m : memory) (L : list Z) (lo hi : Z) :
  laid_out m L lo hi ->
  forall x, In x L -> lo <= x /\ x + sizeof_Block + b_size m x <= hi.
Proof.
  revert lo. induction L as [|y L IH]; intros lo H x Hx; [destruct Hx|].
  destruct H as [Hy H]. destruct Hx as [<-|Hx].
  - split; [exact Hy | apply (laid_out_le _ _ _ _ H)].
  - destruct (IH _ H x Hx) as [H1 H2]. pose proof (b_size_range m y).
    unfold sizeof_Block in *. lia.
Qed.

Lemma laid_out_app (m : memory) (L1 L2 : list Z) (lo hi : Z) :
  laid_out m (L1 ++ L2) lo hi <->
  exists mid, laid_out m L1 lo mid /\ laid_out m L2 mid hi.
Proof.
  revert lo. induction L1 as [|x L1 IH]; intros lo; cbn [app laid_out].
  - split.
    + intros H. exists lo. split; [lia | exact H].
    + intros (mid & Hle & H). destruct L2 as [|y L2]; cbn [laid_out] in *; [lia|].
      destruct H as [Hy H]. split; [lia | exact H].
  - rewrite IH. split.
    + intros (Hx & mid & H1 & H2). exists mid. auto.
    + intros (mid & (Hx & H1) & H2). split; [exact Hx|]. exists mid. auto.
Qed.

Lemma laid_out_all_sep (m : memory) (L : list Z) (lo hi : Z) :
  laid_out m L lo hi -> all_sep L.
Proof.
  revert lo. induction L as [|x L IH]; intros lo H; [exact I|].
  destruct H as [Hx H]. split; [|apply (IH _ H)].
  intros y Hy. destruct (laid_out_bounds _ _ _ _ H y Hy) as [Hlo _].
  pose proof (b_size_range m x). unfold sep, sizeof_Block in *. lia.
Qed.

Lemma laid_out_span (m : memory) (L : list Z) (lo hi : Z) :
  laid_out m L lo hi -> span m L <= hi - lo.
Proof.
  revert lo. induction L as [|x L IH]; intros lo H; cbn [span]; [cbn in H; lia|].
  destruct H as [Hx H]. apply IH in H. unfold sizeof_Block in *. lia.
Qed.

(** ** Where the walks stop *)

Lemma first_fit_split (m : memory) (aligned_size : Z) (L : list Z) :
  (forall x, In x L -> fits m aligned_size x = false)
  \/ exists Pre b Post,
       L = Pre ++ b :: Post
       /\ (forall x, In x Pre -> fits m aligned_size x = false)
       /\ fits m aligned_size b = true.
Proof.
  induction L as [|x L IH]; [left; intros x []|].
  destruct (fits m aligned_size x) eqn:Hx.
  - right. exists [], x, L. split; [reflexivity|]. split; [intros y []|exact Hx].
  - destruct IH as [IH|(Pre & b & Post & -> & Hpre & Hb)].
    + left. intros y [<-|Hy]; [exact Hx | apply IH, Hy].
    + right. exists (x :: Pre), b, Post. split; [reflexivity|].
      split; [|exact Hb]. intros y [<-|Hy]; [exact Hx | apply Hpre, Hy].
Qed.

Lemma free_prefix_split (m : memory) (l : list Z) :
  exists l1 l2,
    l = l1 ++ l2 /\ (forall x, In x l1 -> b_free m x = 1)
    /\ (l2 = [] \/ b_free m (hd NULL l2) <> 1).
Proof.
  induction l as [|x l (l1 & l2 & -> & H1 & H2)].
  - exists [], []. split; [reflexivity|]. split; [intros x []|left; reflexivity].
  - destruct (Z.eq_dec (b_free m x) 1) as [Hx|Hx].
    + exists (x :: l1), l2. split; [reflexivity|]. split; [|exact H2].
      intros y [<-|Hy]; [exact Hx | apply H1, Hy].
    + exists [], (x :: l1 ++ l2). split; [reflexivity|].
      split; [intros y []|right; exact Hx].
Qed.

Lemma free_suffix_split (m : memory) (l : list Z) :
  exists l1 l2,
    l = l1 ++ l2 /\ (forall x, In x l2 -> b_free m x = 1)
    /\ (l1 = [] \/ b_free m (List.last l1 NULL) <> 1).
Proof.
  destruct (free_prefix_split m (rev l)) as (r1 & r2 & E & H1 & H2).
  exists (rev r2), (rev r1). split; [|split].
  - rewrite <- rev_app_distr, <- E. symmetry. apply rev_involutive.
  - intros x Hx. apply H1, in_rev. exact Hx.
  - destruct H2 as [->|H2]; [left; reflexivity | right].
    rewrite <- hd_rev_last, rev_involutive. exact H2.
Qed.

(** ** The split of Allocate, field by field *)

Lemma malloc_reuse_unfold (aligned_size current : Z) (s : state) :
  malloc_reuse aligned_size current s
  = (current + sizeof_Block,
     with_mem s
       (let m1 := set_free (mem s) current 0 in
        if wrap64 (aligned_size + sizeof_Block + ALIGNMENT) <=? b_size m1 current
        then split_mem m1 aligned_size current else m1)).
Proof. reflexivity. Qed.

Lemma split_mem_spec (m : memory) (aligned_size b nx : Z) :
  0 <= aligned_size -> b_next m b = nx ->
  nx = NULL \/ (sep nx b /\ sep nx (b + sizeof_Block + aligned_size)) ->
  0 <= b + sizeof_Block + aligned_size < 2 ^ 64 -> 0 <= b < 2 ^ 64 ->
  let nb := b + sizeof_Block + aligned_size in
  let m' := split_mem m aligned_size b in
  (b_size m' b = b_size m b /\ b_free m' b = b_free m b
   /\ b_next m' b = nb /\ b_prev m' b = b_prev m b)
  /\ (b_size m' nb = wrap64 (b_size m b - aligned_size - sizeof_Block)
      /\ b_free m' nb = b_free m nb
      /\ b_next m' nb = nx /\ b_prev m' nb = b)
  /\ (nx <> NULL ->
      b_prev m' nx = nb /\ b_size m' nx = b_size m nx
      /\ b_free m' nx = b_free m nx /\ b_next m' nx = b_next m nx)
  /\ (forall y, sep b y -> sep nb y -> nx = NULL \/ sep nx y -> same_header m m' y).
Proof.
  intros Hal Hn Hnx Hrn Hrb nb m'. subst m' nb. unfold split_mem.
  pose proof (b_next_range m b) as Hr. rewrite Hn in Hr.
  set (nb := b + sizeof_Block + aligned_size) in *.
  set (v := wrap64 (b_size m b - aligned_size - sizeof_Block)).
  assert (Hnb : b + 32 <= nb) by (subst nb; unfold sizeof_Block; lia).
  assert (E1 : b_next (set_prev (set_size m nb v) nb b) b = nx).
  { rewrite <- Hn. mem_simpl. reflexivity. }
  rewrite E1.
  assert (E2 : b_next (set_next (set_next (set_prev (set_size m nb v) nb b) nb nx) b nb) nb = nx).
  { mem_simpl. apply wrap64_small. exact Hr. }
  rewrite E2.
  destruct (Z.eqb_spec nx NULL) as [E0|Hne].
  - split; [|split; [|split]].
    + repeat split; mem_simpl; try reflexivity. apply wrap64_small. exact Hrn.
    + repeat split; mem_simpl; try reflexivity.
      * apply wrap64_small, wrap64_range.
      * apply wrap64_small. exact Hr.
      * apply wrap64_small. exact Hrb.
    + contradiction.
    + intros y Hy Hny _ a Ha. unfold sep, sizeof_Block in *. mem_simpl. reflexivity.
  - destruct Hnx as [Hnx|[Hxb Hxn]]; [contradiction|].
    unfold sep, sizeof_Block in Hxb, Hxn. fold nb in Hxn.
    split; [|split; [|split]].
    + repeat split; mem_simpl; try reflexivity. apply wrap64_small. exact Hrn.
    + repeat split; mem_simpl; try reflexivity.
      * apply wrap64_small, wrap64_range.
      * apply wrap64_small. exact Hr.
      * apply wrap64_small. exact Hrb.
    + intros _. repeat split; mem_simpl; try reflexivity. apply wrap64_small. exact Hrn.
    + intros y Hy Hny [Hc|Hc] a Ha; [contradiction|].
      unfold sep, sizeof_Block in *. mem_simpl. reflexivity.
Qed.

Lemma split_mem_keeps_size (m : memory) (aligned_size b : Z) :
  0 <= aligned_size ->
  b_next m b = NULL \/ sep (b_next m b) b ->
  b_size (split_mem m aligned_size b) b = b_size m b.
Proof.
  intros Hal Hnx. unfold split_mem.
  set (nb := b + sizeof_Block + aligned_size).
  set (v := wrap64 (b_size m b - aligned_size - sizeof_Block)).
  assert (Hnb : b + 32 <= nb) by (subst nb; unfold sizeof_Block; lia).
  pose proof (b_next_range m b) as Hr.
  assert (E1 : b_next (set_prev (set_size m nb v) nb b) b = b_next m b).
  { mem_simpl. reflexivity. }
  rewrite E1.
  assert (E2 : b_next (set_next (set_next (set_prev (set_size m nb v) nb b) nb (b_next m b))
                         b nb) nb = b_next m b).
  { mem_simpl. apply wrap64_small. exact Hr. }
  rewrite E2.
  destruct (Z.eqb_spec (b_next m b) NULL) as [E0|Hne].
  - mem_simpl. reflexivity.
  - destruct Hnx as [Hnx|Hnx]; [contradiction|]. unfold sep, sizeof_Block in Hnx.
    mem_simpl. reflexivity.
Qed.

Lemma malloc_reuse_keeps_size (aligned_size b : Z) (s : state) :
  0 <= aligned_size ->
  b_next (mem s) b = NULL \/ sep (b_next (mem s) b) b ->
  b_size (mem (snd (malloc_reuse aligned_size b s))) b = b_size (mem s) b.
Proof.
  intros Hal Hnx. rewrite malloc_reuse_unfold. cbn [snd mem with_mem]. cbv zeta.
  destruct (fields_set_free (mem s) b 0) as (Es & _ & En & _).
  destruct (_ <=? _).
  - rewrite split_mem_keeps_size; [exact Es | exact Hal | rewrite En; exact Hnx].
  - exact Es.
Qed.

Lemma span_le_app_l (m : memory) (l1 l2 : list Z) : span m l2 <= span m (l1 ++ l2).
Proof. rewrite span_app. pose proof (span_nonneg m l1). lia. Qed.

Lemma span_le_app_r (m : memory) (l1 l2 : list Z) : span m l1 <= span m (l1 ++ l2).
Proof. rewrite span_app. pose proof (span_nonneg m l2). lia. Qed.

(** Free of a used block, then Allocate of an aligned size that the block
    could hold: the walk stops at the block that Free left (the freed
    block, or the predecessor that absorbed it), and the arena stays as it
    is. *)
Lemma free_then_alloc (fuel : nat) (s1 : state) (Pre Post : list Z) (b aligned_size : Z) :
  dll (mem s1) (head s1) (Pre ++ b :: Post) ->
  (forall x, In x Pre -> fits (mem s1) aligned_size x = false) ->
  0 <= aligned_size <= b_size (mem s1) b ->
  b_size (mem s1) b + span (mem s1) Pre + span (mem s1) Post < 2 ^ 64 ->
  (length (Pre ++ b :: Post) < fuel)%nat ->
  exists s2 q s3,
    my_free fuel (b + sizeof_Block) s1 = Some s2
    /\ malloc_loop fuel aligned_size (head s2) s2 = Some (q, s3)
    /\ q <> NULL /\ brk s2 = brk s1 /\ brk s3 = brk s1
    /\ aligned_size <= b_size (mem s3) (q - sizeof_Block)
    /\ In (q - sizeof_Block) (Pre ++ [b]).
Proof.
  intros Hdll Hun Hal Hsum Hfuel.
  destruct (free_suffix_split (mem s1) Pre) as (P1 & P2 & -> & HP2 & HP1).
  destruct (free_prefix_split (mem s1) Post) as (N1 & N2 & -> & HN1 & HN2).
  rewrite <- app_assoc in Hdll.
  rewrite !length_app in Hfuel. cbn [length] in Hfuel. rewrite length_app in Hfuel.
  destruct (free_mem_spec fuel (mem s1) (head s1) P1 P2 N1 N2 b
              Hdll HP2 HN1 HP1 HN2 ltac:(lia) ltac:(lia)) as (m2 & E & Hd & Hf & Hs & Hk).
  destruct (free_ranges _ _ _ _ _ _ _ Hdll) as (_ & R2 & Rb & _).
  assert (Hp : b + sizeof_Block <> NULL) by (unfold NULL, sizeof_Block; lia).
  set (fb' := hd b P2) in *.
  assert (Hfbin : In fb' (P2 ++ [b])).
  { subst fb'. destruct P2; in_tac. }
  assert (Hsize : aligned_size <= b_size m2 fb').
  { rewrite Hs. rewrite !span_app in Hsum.
    pose proof (span_nonneg (mem s1) P1). pose proof (span_nonneg (mem s1) P2).
    pose proof (span_nonneg (mem s1) N1). pose proof (span_nonneg (mem s1) N2).
    pose proof (b_size_range (mem s1) b).
    rewrite wrap64_small by lia. lia. }
  exists (with_mem s1 m2), (fb' + sizeof_Block),
         (snd (malloc_reuse aligned_size fb' (with_mem s1 m2))).
  split.
  { rewrite my_free_free_mem by exact Hp.
    replace (b + sizeof_Block - sizeof_Block) with b by lia. rewrite E. reflexivity. }
  destruct Hd as (Hfw & _ & Hsep & Hr).
  apply lseg_app in Hfw as (a & Hfw1 & Hfw2). destruct Hfw2 as (-> & Hne & Hfw2).
  split.
  { rewrite (malloc_loop_found P1 fuel aligned_size fb' (with_mem s1 m2)).
    - rewrite (surjective_pairing (malloc_reuse _ _ _)) at 1.
      rewrite malloc_reuse_fst. reflexivity.
    - exact Hfw1.
    - exact Hne.
    - intros x Hx. cbn [mem with_mem]. unfold fits.
      destruct (Hk x ltac:(in_tac)) as [-> ->]. apply Hun. in_tac.
    - cbn [mem with_mem]. unfold fits. rewrite Hf.
      destruct (Z.leb_spec aligned_size (b_size m2 fb')); [reflexivity | lia].
    - lia. }
  split; [unfold NULL, sizeof_Block; specialize (Hr fb' ltac:(in_tac)); lia|].
  split; [reflexivity|]. split; [reflexivity|].
  replace (fb' + sizeof_Block - sizeof_Block) with fb' by lia.
  split.
  - rewrite malloc_reuse_keeps_size; [exact Hsize | lia|].
    cbn [mem with_mem]. pose proof (lseg_hd _ _ _ _ Hfw2) as Ehd.
    apply all_sep_app in Hsep as (_ & (Hsfb & _) & _).
    destruct N2 as [|z N2']; [left; exact Ehd | right].
    cbn [hd] in Ehd. rewrite Ehd. apply sep_sym, Hsfb. in_tac.
  - in_tac.
Qed.

(** ** The list after Allocate *)

Lemma dll_ext (m m' : memory) (h : Z) (L : list Z) :
  (forall x, In x L -> b_next m' x = b_next m x /\ b_prev m' x = b_prev m x) ->
  dll m h L -> dll m' h L.
Proof.
  intros He (Hf & Hb & Hs & Hr). split; [|split; [|split]]; try assumption.
  - eapply lseg_ext; [|exact Hf]. intros x Hx. apply He, Hx.
  - eapply lseg_ext; [|exact Hb]. intros x Hx. apply in_rev in Hx. apply He, Hx.
Qed.

(** Reuse without a split: only the flag of [b] changes. *)
Lemma reuse_nosplit_dll (m : memory) (h : Z) (Pre Post : list Z) (b : Z) :
  dll m h (Pre ++ b :: Post) ->
  let m' := set_free m b 0 in
  dll m' h (Pre ++ b :: Post)
  /\ (forall x, In x (Pre ++ Post) -> b_size m' x = b_size m x /\ b_free m' x = b_free m x)
  /\ b_size m' b = b_size m b.
Proof.
  intros Hdll m'.
  destruct (free_seps m h Pre [] [] Post b Hdll)
    as (_ & _ & _ & _ & _ & C1f & _ & _ & _ & _ & _ & _ & Cfm & _).
  assert (Hs : forall x, In x (Pre ++ Post) -> same_header m m' x).
  { intros x Hx. apply same_header_set_free. apply in_app_or in Hx as [Hx|Hx].
    - apply sep_sym, C1f; [exact Hx | in_tac].
    - apply Cfm; [in_tac | exact Hx]. }
  destruct (fields_set_free m b 0) as (Es & _ & En & Ep). fold m' in Es, En, Ep.
  split; [|split; [|exact Es]].
  - apply (dll_ext m); [|exact Hdll]. intros x Hx.
    apply in_app_or in Hx as [Hx|[<-|Hx]]; [|auto|];
      apply (same_header_fields _ _ _ (Hs x ltac:(in_tac))).
  - intros x Hx. destruct (same_header_fields _ _ _ (Hs x Hx)) as (G1 & G2 & _). auto.
Qed.

Lemma laid_out_ext (m m' : memory) (L : list Z) (lo hi : Z) :
  (forall x, In x L -> b_size m' x = b_size m x) ->
  laid_out m L lo hi -> laid_out m' L lo hi.
Proof.
  revert lo. induction L as [|x L IH]; intros lo He H; [exact H|].
  destruct H as [Hx H]. split; [exact Hx|]. rewrite He by in_tac.
  apply IH; [|exact H]. intros y Hy. apply He. in_tac.
Qed.

(** Reuse with a split: the remainder block [nb] enters the list right
    after [b]. *)
Lemma reuse_split_dll (m : memory) (h : Z) (Pre Post : list Z) (b aligned_size hi : Z) :
  dll m h (Pre ++ b :: Post) ->
  laid_out m (Pre ++ b :: Post) 1 hi -> hi <= 2 ^ 63 ->
  0 <= aligned_size -> aligned_size + 40 <= b_size m b ->
  let nb := b + sizeof_Block + aligned_size in
  let m' := split_mem m aligned_size b in
  dll m' h (Pre ++ b :: nb :: Post)
  /\ (forall x, In x (Pre ++ Post) -> b_size m' x = b_size m x /\ b_free m' x = b_free m x)
  /\ b_size m' b = b_size m b
  /\ b_size m' nb = b_size m b - aligned_size - sizeof_Block.
Proof.
  intros Hdll Hlay Hhi Hal Hbig nb m'.
  destruct (free_fwd_chain m h Pre [] [] Post b Hdll) as (F1 & _ & Hb & F3 & F4).
  destruct (free_bck_chain m h Pre [] [] Post b Hdll) as (B1 & _ & B3 & B4).
  destruct (free_seps m h Pre [] [] Post b Hdll)
    as (S1 & _ & _ & S4 & _ & C1f & _ & C1m & _ & _ & _ & _ & Cfm & _).
  destruct (free_ranges m h Pre [] [] Post b Hdll) as (R1 & _ & Rb & _ & R4).
  cbn [hd rev lseg List.last app] in F1, F3, F4, B1, B3, B4.
  apply laid_out_app in Hlay as (mid & L1 & L2). destruct L2 as [Hmid L2].
  pose proof (laid_out_bounds _ _ _ _ L1) as Bpre.
  pose proof (laid_out_bounds _ _ _ _ L2) as Bpost.
  pose proof (laid_out_le _ _ _ _ L2) as Hle.
  set (nx := hd NULL Post) in *.
  assert (Hnx : nx = NULL \/ In nx Post).
  { subst nx. destruct Post; [left; reflexivity | right; left; reflexivity]. }
  assert (Hnbr : 0 < nb < 2 ^ 64) by (subst nb; unfold sizeof_Block in *; lia).
  assert (Snb_pre : forall x, In x Pre -> sep nb x).
  { intros x Hx. destruct (Bpre x Hx) as [G1 G2]. pose proof (b_size_range m x).
    subst nb. unfold sep, sizeof_Block in *. lia. }
  assert (Snb_post : forall x, In x Post -> sep nb x).
  { intros x Hx. destruct (Bpost x Hx) as [G1 G2].
    subst nb. unfold sep, sizeof_Block in *. lia. }
  assert (Sb_nb : sep b nb) by (subst nb; unfold sep, sizeof_Block; lia).
  destruct (split_mem_spec m aligned_size b nx Hal F3) as (Zb & Zn & Zx & Hfr).
  { destruct Hnx as [Hnx|Hnx]; [left; exact Hnx | right]. split.
    - apply sep_sym, Cfm; [in_tac | exact Hnx].
    - apply sep_sym, Snb_post, Hnx. }
  { fold nb. lia. }
  { lia. }
  fold nb in Zb, Zn, Zx, Hfr. fold m' in Zb, Zn, Zx, Hfr.
  destruct Zb as (Zbs & Zbf & Zbn & Zbp). destruct Zn as (Zns & Znf & Znn & Znp).
  assert (HPre : forall x, In x Pre -> same_header m m' x).
  { intros x Hx. apply Hfr.
    - apply sep_sym, C1f; [exact Hx | in_tac].
    - apply Snb_pre, Hx.
    - destruct Hnx as [Hnx|Hnx]; [left; exact Hnx | right; apply sep_sym, C1m; assumption]. }
  assert (HPost : forall y, In y Post ->
                  b_size m' y = b_size m y /\ b_free m' y = b_free m y
                  /\ b_next m' y = b_next m y
                  /\ (y <> nx -> b_prev m' y = b_prev m y)).
  { intros y Hy. destruct (Z.eq_dec y nx) as [->|Hyx].
    - assert (Hne : nx <> NULL) by (apply R4 in Hy; unfold NULL; lia).
      destruct (Zx Hne) as (_ & A1 & A2 & A3). repeat split; try assumption. contradiction.
    - assert (Hs : same_header m m' y).
      { apply Hfr; [apply Cfm; [in_tac | exact Hy] | apply Snb_post, Hy|].
        right. subst nx. destruct Post as [|z0 Post']; [destruct Hy|].
        cbn [hd] in *. destruct Hy as [Hy|Hy]; [congruence|].
        destruct S4 as [S4 _]. apply S4, Hy. }
      destruct (same_header_fields _ _ _ Hs) as (G1 & G2 & G3 & G4). auto. }
  assert (Hbk : lseg (b_prev m') nb (nb :: b :: rev Pre) NULL).
  { cbn [lseg]. split; [reflexivity|]. split; [unfold NULL; lia|]. rewrite Znp.
    split; [reflexivity|]. split; [exact Hb|]. rewrite Zbp, B3.
    eapply lseg_ext; [|exact B4]. intros y Hy. apply in_rev in Hy.
    apply (same_header_fields _ _ _ (HPre y Hy)). }
  split; [|split; [|split]].
  - split; [|split; [|split]].
    + apply lseg_app. exists b. split.
      * eapply lseg_ext; [|exact F1]. intros y Hy.
        apply (same_header_fields _ _ _ (HPre y Hy)).
      * cbn [lseg]. split; [reflexivity|]. split; [exact Hb|]. rewrite Zbn.
        split; [reflexivity|]. split; [unfold NULL; lia|]. rewrite Znn.
        eapply lseg_ext; [|exact F4]. intros y Hy. apply (HPost y Hy).
    + rewrite rev_app_distr. cbn [rev]. rewrite <- !app_assoc. cbn [app].
      destruct Post as [|z0 Post'].
      * cbn [rev app]. rewrite last_app_cons, !last_cons. cbn [List.last]. exact Hbk.
      * cbn [hd] in nx. rewrite last_app_cons, !last_cons.
        rewrite last_app_cons, !last_cons in B1.
        cbn [rev] in B1 |- *. rewrite <- app_assoc. cbn [app].
        apply lseg_snoc in B1 as (B1 & Hz0 & _).
        apply lseg_app. exists z0. split.
        -- eapply lseg_ext; [|exact B1]. intros y Hy. apply in_rev in Hy.
           apply (HPost y (or_intror Hy)).
           intros ->. destruct S4 as [S4 _]. specialize (S4 z0 Hy).
           unfold sep, sizeof_Block in S4. lia.
        -- cbn [lseg]. split; [reflexivity|]. split; [exact Hz0|].
           destruct (Zx Hz0) as (Ez & _). unfold nx in Ez. rewrite Ez. exact Hbk.
    + apply all_sep_app. split; [exact S1|]. split; [split; [|split; [|exact S4]]|].
      * intros y [<-|Hy]; [exact Sb_nb | apply Cfm; [in_tac | exact Hy]].
      * exact Snb_post.
      * intros x y Hx [<-|[<-|Hy]];
          [apply C1f; [exact Hx | in_tac] | apply sep_sym, Snb_pre, Hx
          | apply C1m; assumption].
    + intros x Hx. apply in_app_or in Hx as [Hx|[<-|[<-|Hx]]];
        [apply R1, Hx | exact Rb | exact Hnbr | apply R4, Hx].
  - intros x Hx. apply in_app_or in Hx as [Hx|Hx].
    + destruct (same_header_fields _ _ _ (HPre x Hx)) as (G1 & G2 & _). auto.
    + destruct (HPost x Hx) as (G1 & G2 & _). auto.
  - exact Zbs.
  - rewrite Zns. apply wrap64_small. pose proof (b_size_range m b).
    unfold sizeof_Block. lia.
Qed.

Lemma malloc_grow_success_inv (aligned_size : Z) (s s' : state) (p : Z) :
  malloc_grow aligned_size s = (p, s') -> p <> NULL ->
  0 < wrap64 (aligned_size + sizeof_Block) < 2 ^ 63 ->
  brk_min s <= brk s + wrap64 (aligned_size + sizeof_Block) <= brk_max s
  /\ brk s <> SBRK_FAILED.
Proof.
  intros H Hp Hinc. unfold malloc_grow, sbrk in H.
  destruct (Z.ltb_spec (wrap64 (aligned_size + sizeof_Block)) (2 ^ 63)); [|lia].
  destruct (Z.leb_spec (wrap64 (aligned_size + sizeof_Block)) 0); [lia|].
  rewrite andb_false_r in H.
  destruct (Z.leb_spec (brk_min s) (brk s + wrap64 (aligned_size + sizeof_Block)));
    destruct (Z.leb_spec (brk s + wrap64 (aligned_size + sizeof_Block)) (brk_max s));
    cbn [andb] in H;
    try (rewrite Z.eqb_refl in H; injection H as <- _; contradiction).
  split; [lia|]. intros E.
  destruct (Z.eqb_spec (brk s) SBRK_FAILED); [|contradiction].
  injection H as <- _. contradiction.
Qed.

Lemma snoc_or_nil (L : list Z) : L = [] \/ exists L' t, L = L' ++ [t].
Proof. induction L as [|t L' _] using rev_ind; [left; reflexivity | right; eauto]. Qed.

Lemma all_sep_in (L : list Z) (x y : Z) :
  all_sep L -> In x L -> In y L -> x <> y -> sep x y.
Proof.
  induction L as [|a L IH]; intros Hs Hx Hy Hne; [destruct Hx|].
  destruct Hs as [Ha Hs]. destruct Hx as [<-|Hx], Hy as [<-|Hy].
  - congruence.
  - apply Ha, Hy.
  - apply sep_sym, Ha, Hx.
  - apply IH; assumption.
Qed.

(** Growth appends the new block at the tail of a list whose [last]
    anchor is its tail. *)
Lemma grow_dll (s0 s1 : state) (L : list Z) (aligned_size p : Z) :
  dll (mem s0) (head s0) L ->
  laid_out (mem s0) L 1 (brk s0) ->
  last s0 = List.last L NULL ->
  0 < brk s0 <= 2 ^ 63 ->
  0 <= aligned_size -> aligned_size + sizeof_Block < 2 ^ 63 ->
  malloc_grow aligned_size s0 = (p, s1) -> p <> NULL ->
  p = brk s0 + sizeof_Block
  /\ dll (mem s1) (head s1) (L ++ [brk s0])
  /\ (forall x, In x L ->
      b_size (mem s1) x = b_size (mem s0) x /\ b_free (mem s1) x = b_free (mem s0) x)
  /\ b_size (mem s1) (brk s0) = aligned_size.
Proof.
  intros Hdll Hlay Hlast Hbrk Hal Hal2 Hg Hp.
  assert (Hw : wrap64 (aligned_size + sizeof_Block) = aligned_size + sizeof_Block).
  { apply wrap64_small. unfold sizeof_Block in *. lia. }
  destruct (malloc_grow_success_inv _ _ _ _ Hg Hp
              ltac:(rewrite Hw; unfold sizeof_Block in *; lia)) as [Hroom Hnf].
  destruct Hdll as (Hf & Hb & Hs & Hr).
  pose proof (laid_out_bounds _ _ _ _ Hlay) as Bnd.
  assert (Hhd : head s0 = hd NULL L) by apply (lseg_hd _ _ _ _ Hf).
  assert (Hlin : L = [] \/ In (last s0) L).
  { rewrite Hlast. destruct L as [|x L']; [left; reflexivity | right].
    rewrite last_cons. destruct (last_in L' x) as [->|Hin]; in_tac. }
  assert (Hlr : 0 <= last s0 < 2 ^ 64).
  { destruct Hlin as [->|Hin]; [rewrite Hlast; cbn; unfold NULL; lia|].
    apply Hr in Hin. lia. }
  destruct (malloc_grow_ok aligned_size s0)
    as (s' & E & Eb & _ & _ & _ & El & Eh & Es & Ef & En & Ep & Et & Hfr).
  { unfold sizeof_Block in *. lia. }
  { lia. }
  { exact Hroom. }
  { unfold SBRK_FAILED in Hnf. lia. }
  { exact Hlr. }
  { destruct Hlin as [->|Hin]; [left; exact Hhd | right].
    destruct (Bnd _ Hin) as [_ G]. pose proof (b_size_range (mem s0) (last s0)).
    unfold sep, sizeof_Block in *. lia. }
  rewrite E in Hg. injection Hg as <- <-.
  set (c := brk s0) in *. set (m := mem s0) in *. set (m' := mem s') in *.
  assert (Hsame : forall y, In y L -> y <> last s0 -> same_header m m' y).
  { intros y Hy Hne a Ha. apply Hfr.
    - destruct (Bnd _ Hy) as [_ G]. pose proof (b_size_range m y).
      unfold sizeof_Block in *. lia.
    - destruct Hlin as [->|Hin]; [destruct Hy | right].
      assert (Hsy : sep y (last s0)) by (apply (all_sep_in L); assumption).
      unfold sep, sizeof_Block, off_next, off_prev in *. lia. }
  assert (Hkeep : forall y, In y L ->
                  b_size m' y = b_size m y /\ b_free m' y = b_free m y
                  /\ b_prev m' y = b_prev m y
                  /\ (y <> last s0 -> b_next m' y = b_next m y)).
  { intros y Hy. destruct (Z.eq_dec y (last s0)) as [->|Hne].
    - assert (Hb' : forall a, last s0 <= a < last s0 + 16 \/ last s0 + 24 <= a < last s0 + 32 ->
                              load8 m' a = load8 m a).
      { intros a Ha. apply Hfr.
        - destruct (Bnd _ Hy) as [_ G]. pose proof (b_size_range m (last s0)).
          unfold sizeof_Block in *. lia.
        - unfold off_next, off_prev. lia. }
      repeat split; try contradiction; autounfold with fields; apply loadn_ext;
        intros a Ha; apply Hb'; simpl in Ha; lia.
    - destruct (same_header_fields _ _ _ (Hsame y Hy Hne)) as (G1 & G2 & G3 & G4). auto. }
  assert (Hc0 : c <> NULL) by (unfold NULL; lia).
  assert (Hpc : b_prev m' c = List.last L NULL).
  { rewrite Ep, Hhd. destruct L as [|x L']; [reflexivity|]. cbn [hd].
    destruct (Z.eqb_spec x NULL) as [E0|_]; [|exact Hlast].
    specialize (Hr x ltac:(in_tac)). unfold NULL in E0. lia. }
  split; [reflexivity|]. split; [|split; [|exact Es]].
  - split; [|split; [|split]].
    + rewrite Eh, Hhd. destruct (snoc_or_nil L) as [->|(L' & t & ->)].
      * cbn [hd app lseg]. rewrite Z.eqb_refl. repeat split; assumption.
      * assert (Et' : last s0 = t) by (rewrite Hlast, last_last; reflexivity).
        apply lseg_snoc in Hf as (Hf & Ht & _).
        assert (Hh : hd NULL (L' ++ [t]) <> NULL).
        { destruct L' as [|x L'']; cbn [hd app]; [exact Ht|].
          specialize (Hr x ltac:(in_tac)). unfold NULL. lia. }
        destruct (Z.eqb_spec (hd NULL (L' ++ [t])) NULL); [contradiction|].
        rewrite <- app_assoc. apply lseg_app. exists t. split.
        -- rewrite <- Hhd. eapply lseg_ext; [|exact Hf]. intros y Hy.
           apply (Hkeep y ltac:(in_tac)). rewrite Et'. intros ->.
           apply all_sep_app in Hs as (_ & _ & Hc). specialize (Hc t t Hy ltac:(in_tac)).
           unfold sep, sizeof_Block in Hc. lia.
        -- cbn [app lseg]. split; [reflexivity|]. split; [exact Ht|].
           rewrite <- Et', Et by (rewrite Hhd; exact Hh).
           repeat split; assumption.
    + rewrite rev_app_distr, last_last. cbn [rev app lseg].
      split; [reflexivity|]. split; [exact Hc0|]. rewrite Hpc.
      eapply lseg_ext; [|exact Hb]. intros y Hy. apply in_rev in Hy. apply (Hkeep y Hy).
    + apply all_sep_app. split; [exact Hs|]. split; [split; [intros y []|exact I]|].
      intros x y Hx [<-|[]]. destruct (Bnd _ Hx) as [_ G]. pose proof (b_size_range m x).
      unfold sep, sizeof_Block in *. lia.
    + intros x Hx. apply in_app_or in Hx as [Hx|[<-|[]]]; [apply Hr, Hx | lia].
  - intros x Hx. destruct (Hkeep x Hx) as (G1 & G2 & _). auto.
Qed.

(** ** Allocate, Free, Allocate *)

(** C5 (amended).  On the empty heap, after allocate A, allocate B (16
    bytes each) and free A, allocate C (16 bytes) returns A's pointer and
    leaves the break where it was.  More generally, on a well-formed heap,
    a successful Allocate, Free of its result and Allocate of the same
    size return a non-null pointer without moving the break, to a block
    whose capacity is at least the aligned size. *)
Theorem alloc_free_alloc_reuses :
  (run_ptr example_a = 4128 /\ run_ptr example_b = 4176
   /\ run_ptr example_c = run_ptr example_a
   /\ brk (run_state example_c (init_state 4096 1024))
      = brk (run_state example_b (init_state 4096 1024))
   /\ b_size (mem (run_state example_c (init_state 4096 1024))) (4128 - sizeof_Block)
      = ALIGN 16)
  /\ forall (fuel : nat) (s0 s1 : state) (L : list Z) (size p : Z),
       heap_ok s0 L -> 0 <= size < 2 ^ 63 - 40 ->
       (S (length L) < fuel)%nat ->
       my_malloc fuel size s0 = Some (p, s1) -> p <> NULL ->
       exists s2 q s3,
         my_free fuel p s1 = Some s2
         /\ my_malloc fuel size s2 = Some (q, s3)
         /\ q <> NULL
         /\ brk s3 = brk s1
         /\ ALIGN size <= b_size (mem s3) (q - sizeof_Block).
Proof.
  split.
  { each_conjunct ltac:(vm_compute; reflexivity). }
  intros fuel s0 s1 L size p (Hdll & Hlay & Hlast & Hbrk) Hsize Hfuel Hm Hp.
  unfold my_malloc in *.
  pose proof (ALIGN_ge size ltac:(lia)) as Hal. set (al := ALIGN size) in *.
  pose proof (laid_out_span _ _ _ _ Hlay) as Hspan.
  destruct Hdll as (Hf & Hdll'). pose proof (conj Hf Hdll') as Hdll.
  destruct (first_fit_split (mem s0) al L) as [Hnone|(Pre & b & Post & -> & Hpre & Hb)].
  - (* the arena grows *)
    rewrite (malloc_loop_none_fit L) in Hm by (assumption || lia).
    injection Hm as Hm.
    destruct (grow_dll s0 s1 L al p Hdll Hlay Hlast Hbrk ltac:(lia)
                ltac:(unfold sizeof_Block; lia) Hm Hp) as (-> & Hd1 & Hk1 & Hs1).
    destruct (free_then_alloc fuel s1 L [] (brk s0) al)
      as (s2 & q & s3 & E2 & E3 & Hq & _ & Hb3 & Hc & _).
    + exact Hd1.
    + intros x Hx. unfold fits. destruct (Hk1 x Hx) as [-> ->]. apply Hnone, Hx.
    + lia.
    + rewrite Hs1. cbn [span]. rewrite (span_ext (mem s0)); [lia|].
      intros x Hx. apply (Hk1 x Hx).
    + rewrite length_app. cbn [length]. lia.
    + exists s2, q, s3. split; [exact E2|]. unfold my_malloc. fold al. auto.
  - (* a free block is taken *)
    destruct (free_fwd_chain (mem s0) (head s0) Pre [] [] Post b Hdll) as (F1 & _ & Hb0 & _).
    cbn [hd] in F1. rewrite length_app in Hfuel. cbn [length] in Hfuel.
    rewrite (malloc_loop_found Pre fuel al b s0) in Hm by (assumption || lia).
    rewrite malloc_reuse_unfold in Hm. injection Hm as <- <-.
    unfold fits in Hb. apply andb_prop in Hb as [Hbf Hbs].
    apply Z.leb_le in Hbs.
    destruct (reuse_nosplit_dll (mem s0) (head s0) Pre Post b Hdll) as (Hd1 & Hk1 & Hs1).
    set (m1 := set_free (mem s0) b 0) in *. cbv zeta.
    rewrite span_app in Hspan. cbn [span] in Hspan.
    pose proof (span_nonneg (mem s0) Pre). pose proof (span_nonneg (mem s0) Post).
    assert (Hun1 : forall x, In x Pre -> fits m1 al x = false).
    { intros x Hx. unfold fits. destruct (Hk1 x ltac:(in_tac)) as [-> ->].
      apply Hpre, Hx. }
    assert (Hsp1 : span m1 Pre = span (mem s0) Pre /\ span m1 Post = span (mem s0) Post).
    { split; apply span_ext; intros x Hx; apply Hk1; in_tac. }
    destruct Hsp1 as [Hsp1 Hsp2].
    destruct (Z.leb_spec (wrap64 (al + sizeof_Block + ALIGNMENT)) (b_size m1 b)) as [Hsplit|Hno].
    + (* with a split *)
      rewrite wrap64_small in Hsplit by (unfold sizeof_Block, ALIGNMENT; lia).
      destruct (reuse_split_dll m1 (head s0) Pre Post b al (brk s0))
        as (Hd2 & Hk2 & Hs2 & Hn2); try assumption; try lia.
      { apply (laid_out_ext (mem s0)); [|exact Hlay]. intros x Hx.
        apply in_app_or in Hx as [Hx|[<-|Hx]]; [apply Hk1; in_tac | exact Hs1 | apply Hk1; in_tac]. }
      { unfold sizeof_Block, ALIGNMENT in Hsplit. lia. }
      set (nb := b + sizeof_Block + al) in *. set (m2 := split_mem m1 al b) in *.
      destruct (free_then_alloc fuel (with_mem s0 m2) Pre (nb :: Post) b al)
        as (s2 & q & s3 & E2 & E3 & Hq & _ & Hb3 & Hc & _).
      * exact Hd2.
      * intros x Hx. cbn [mem with_mem]. unfold fits.
        destruct (Hk2 x ltac:(in_tac)) as [-> ->]. apply Hun1, Hx.
      * cbn [mem with_mem]. rewrite Hs2, Hs1. lia.
      * cbn [mem with_mem span]. rewrite Hs2, Hs1, Hn2, Hs1.
        rewrite (span_ext m1 m2 Pre), (span_ext m1 m2 Post), Hsp1, Hsp2.
        -- unfold sizeof_Block in *. lia.
        -- intros x Hx. apply Hk2. in_tac.
        -- intros x Hx. apply Hk2. in_tac.
      * rewrite length_app. cbn [length]. lia.
      * exists s2, q, s3. split; [exact E2|]. unfold my_malloc. fold al. auto.
    + (* without *)
      destruct (free_then_alloc fuel (with_mem s0 m1) Pre Post b al)
        as (s2 & q & s3 & E2 & E3 & Hq & _ & Hb3 & Hc & _).
      * exact Hd1.
      * exact Hun1.
      * cbn [mem with_mem]. rewrite Hs1. lia.
      * cbn [mem with_mem]. rewrite Hs1, Hsp1, Hsp2. unfold sizeof_Block in *. lia.
      * rewrite length_app. cbn [length]. lia.
      * exists s2, q, s3. split; [exact E2|]. unfold my_malloc. fold al. auto.
Qed.

Ltac concrete_laid_out := vm_compute; repeat split; discriminate.

Lemma alloc_free_alloc_reuses_witness :
  exists s2 q s3,
    my_free 5 4128 (run_state heap_after_split heap_one_free) = Some s2
    /\ my_malloc 5 8 s2 = Some (q, s3)
    /\ q <> NULL
    /\ brk s3 = brk (run_state heap_after_split heap_one_free)
    /\ ALIGN 8 <= b_size (mem s3) (q - sizeof_Block).
Proof.
  apply (proj2 alloc_free_alloc_reuses 5%nat heap_one_free
           (run_state heap_after_split heap_one_free) [4096] 8 4128).
  - split; [concrete_dll|]. split; [concrete_laid_out|].
    split; [vm_compute; reflexivity | vm_compute; split; [reflexivity | discriminate]].
  - lia.
  - simpl. lia.
  - vm_compute. reflexivity.
  - discriminate.
Defined.

(** C5 as stated fails in its general part: on that heap
    [p = my_malloc(16); my_free(p); q = my_malloc(16)] returns the 24-byte
    block both times (24 < 16 + 32 + 8, so there is no split); its
    capacity is 24, not the aligned size 16 of the first allocation. *)
Lemma alloc_free_alloc_capacity_differs :
  my_malloc 5 16 heap_free_24 = Some (4128, heap_24_taken)
  /\ my_free 5 4128 heap_24_taken = Some heap_24_freed
  /\ my_malloc 5 16 heap_24_freed = Some (4128, heap_24_retaken)
  /\ brk heap_24_retaken = brk heap_free_24
  /\ ALIGN 16 = 16
  /\ b_size (mem heap_24_retaken) (4128 - sizeof_Block) = 24
  /\ b_size (mem heap_24_retaken) (4128 - sizeof_Block) <> ALIGN 16.
Proof.
  each_conjunct ltac:(vm_compute; first [reflexivity | discriminate]).
Qed.

(** ** Further properties *)

(** X1.  [ALIGN] on a [size_t] value: the result is a multiple of 8 that
    fits [size_t]; up to [2^64 - 8] it is the least multiple of 8 that is
    not below the size, and for the seven sizes above it is 0. *)
Theorem ALIGN_rounds_up (size : Z) :
  0 <= size < 2 ^ 64 ->
  ALIGN size mod 8 = 0
  /\ 0 <= ALIGN size < 2 ^ 64
  /\ (size <= 2 ^ 64 - 8 -> size <= ALIGN size < size + 8)
  /\ (2 ^ 64 - 8 < size -> ALIGN size = 0).
Proof.
  intros H. split; [apply ALIGN_mod8|]. split; [apply ALIGN_range|].
  split; intros H'; [apply ALIGN_ge | apply ALIGN_wraps]; lia.
Qed.

Lemma ALIGN_rounds_up_witness :
  ALIGN 13 mod 8 = 0
  /\ 0 <= ALIGN 13 < 2 ^ 64
  /\ (13 <= 2 ^ 64 - 8 -> 13 <= ALIGN 13 < 13 + 8)
  /\ (2 ^ 64 - 8 < 13 -> ALIGN 13 = 0).
Proof. apply (ALIGN_rounds_up 13). lia. Defined.

(** X2.  The overflow test of Zero-Allocate is exact: for nonzero
    arguments, [Total_size / value == size] holds if and only if the
    product fits [size_t]. *)
Theorem calloc_overflow_check_exact (value size : Z) :
  0 < value < 2 ^ 64 -> 0 < size < 2 ^ 64 ->
  wrap64 (size * value) / value = size <-> size * value < 2 ^ 64.
Proof.
  intros Hv Hs. pose proof (overflow_detected value size Hv Hs) as E.
  rewrite <- Z.eqb_eq, <- Z.ltb_lt, E. reflexivity.
Qed.

Lemma calloc_overflow_check_exact_witness :
  wrap64 (2 ^ 33 * 2 ^ 31) / 2 ^ 31 = 2 ^ 33 <-> 2 ^ 33 * 2 ^ 31 < 2 ^ 64.
Proof. apply (calloc_overflow_check_exact (2 ^ 31) (2 ^ 33)); lia. Defined.

(** X3.  Allocate returns null only after [sbrk] refused: the memory and
    the list anchors are untouched, and the one line written is that of
    [perror("sbrk error")]: "sbrk error: " and the text of [ENOMEM]. *)
Theorem my_malloc_null_is_sbrk_failure (fuel : nat) (size : Z) (s s' : state) :
  0 <= head s -> 0 <= brk s ->
  my_malloc fuel size s = Some (NULL, s') ->
  mem s' = mem s /\ head s' = head s /\ last s' = last s
  /\ err s' = err s ++ [perror_line "sbrk error" ENOMEM].
Proof. intros Hh Hb H. apply (malloc_loop_null fuel (ALIGN size) (head s)); assumption. Qed.

Lemma my_malloc_null_is_sbrk_failure_witness :
  mem (report heap_full (perror_line "sbrk error" ENOMEM)) = mem heap_full
  /\ head (report heap_full (perror_line "sbrk error" ENOMEM)) = head heap_full
  /\ last (report heap_full (perror_line "sbrk error" ENOMEM)) = last heap_full
  /\ err (report heap_full (perror_line "sbrk error" ENOMEM))
     = err heap_full ++ [perror_line "sbrk error" ENOMEM].
Proof.
  apply (my_malloc_null_is_sbrk_failure 5 16 heap_full
           (report heap_full (perror_line "sbrk error" ENOMEM)));
    [vm_compute; discriminate | vm_compute; discriminate | vm_compute; reflexivity].
Defined.

(** X4.  The split of Allocate in general: when the block [b] that is
    taken is large enough to split and its header, the remainder's header
    and the header of its successor do not overlap, the remainder
    [b + 32 + aligned_size] is linked after [b] with the leftover size,
    but the size of [b] is what it was and the [free] field of the
    remainder is not written. *)
Theorem my_malloc_split_in_general (aligned_size b : Z) (s : state) :
  0 <= aligned_size -> aligned_size + 40 <= b_size (mem s) b ->
  0 < b -> b + sizeof_Block + aligned_size < 2 ^ 64 ->
  b_next (mem s) b = NULL
  \/ (sep (b_next (mem s) b) b
      /\ sep (b_next (mem s) b) (b + sizeof_Block + aligned_size)) ->
  let nb := b + sizeof_Block + aligned_size in
  let s' := snd (malloc_reuse aligned_size b s) in
  fst (malloc_reuse aligned_size b s) = b + sizeof_Block
  /\ b_free (mem s') b = 0
  /\ b_next (mem s') b = nb
  /\ b_prev (mem s') nb = b
  /\ b_next (mem s') nb = b_next (mem s) b
  /\ b_size (mem s') nb = b_size (mem s) b - aligned_size - sizeof_Block
  /\ b_size (mem s') b = b_size (mem s) b
  /\ b_free (mem s') nb = b_free (mem s) nb.
Proof.
  intros Hal Hbig Hb Hnb Hnx nb s'. subst s'.
  split; [reflexivity|]. rewrite malloc_reuse_unfold. cbn [snd mem with_mem]. cbv zeta.
  destruct (fields_set_free (mem s) b 0) as (Es & Ef & En & Ep).
  set (m1 := set_free (mem s) b 0) in *.
  pose proof (b_size_range (mem s) b) as Hr.
  assert (Hc : wrap64 (aligned_size + sizeof_Block + ALIGNMENT) <= b_size m1 b).
  { rewrite Es, wrap64_small; unfold sizeof_Block, ALIGNMENT; lia. }
  apply Z.leb_le in Hc. rewrite Hc.
  destruct (split_mem_spec m1 aligned_size b (b_next (mem s) b) Hal En)
    as ((Zbs & Zbf & Zbn & _) & (Zns & Znf & Znn & Znp) & _).
  { exact Hnx. }
  { unfold sizeof_Block in *. lia. }
  { unfold sizeof_Block in *. lia. }
  fold nb in Zbn, Zns, Znf, Znn, Znp.
  rewrite Zbf, Ef, Zbn, Znp, Znn, Zns, Zbs, Znf, Es.
  repeat (split; [reflexivity|]).
  split; [apply wrap64_small; unfold sizeof_Block in *; lia|].
  split; [reflexivity|].
  subst m1 nb. unfold sizeof_Block. mem_simpl. reflexivity.
Qed.

Lemma my_malloc_split_in_general_witness :
  fst (malloc_reuse 8 4096 heap_one_free) = 4096 + sizeof_Block
  /\ b_free (mem (snd (malloc_reuse 8 4096 heap_one_free))) 4096 = 0
  /\ b_next (mem (snd (malloc_reuse 8 4096 heap_one_free))) 4096
     = 4096 + sizeof_Block + 8
  /\ b_prev (mem (snd (malloc_reuse 8 4096 heap_one_free))) (4096 + sizeof_Block + 8)
     = 4096
  /\ b_next (mem (snd (malloc_reuse 8 4096 heap_one_free))) (4096 + sizeof_Block + 8)
     = b_next (mem heap_one_free) 4096
  /\ b_size (mem (snd (malloc_reuse 8 4096 heap_one_free))) (4096 + sizeof_Block + 8)
     = b_size (mem heap_one_free) 4096 - 8 - sizeof_Block
  /\ b_size (mem (snd (malloc_reuse 8 4096 heap_one_free))) 4096
     = b_size (mem heap_one_free) 4096
  /\ b_free (mem (snd (malloc_reuse 8 4096 heap_one_free))) (4096 + sizeof_Block + 8)
     = b_free (mem heap_one_free) (4096 + sizeof_Block + 8).
Proof.
  apply (my_malloc_split_in_general 8 4096 heap_one_free);
    [lia | vm_compute; discriminate | lia | vm_compute; reflexivity
    | left; vm_compute; reflexivity].
Defined.

(** Free never moves the anchors or the break. *)
Lemma my_free_keeps_anchors (fuel : nat) (ptr : Z) (s s' : state) :
  my_free fuel ptr s = Some s' ->
  head s' = head s /\ last s' = last s /\ brk s' = brk s.
Proof.
  unfold my_free. destruct (ptr =? NULL).
  - intros [= <-]. repeat (split; [reflexivity|]). reflexivity.
  - destruct (free_fwd _ _ _ _) as [[m1 cf]|]; [|discriminate].
    destruct (free_bck _ _ _ _) as [m'|]; [|discriminate].
    intros [= <-]. repeat (split; [reflexivity|]). reflexivity.
Qed.

Lemma sep_irrefl (x : Z) : ~ sep x x.
Proof. unfold sep, sizeof_Block. lia. Qed.

Lemma last_in_nonempty (l : list Z) (d : Z) : l <> [] -> In (List.last l d) l.
Proof.
  destruct l as [|x l]; [congruence|]. intros _. rewrite last_cons.
  destruct (last_in l x) as [->|H]; in_tac.
Qed.

(** X5.  Free of a block of a well-formed list whose [last] anchor is
    the tail, when the tail is absorbed (the freed block is followed by
    free blocks up to the end of the list, or is itself the tail and has a
    free predecessor): the list ends at the block that absorbed the
    others, but [last] still holds the address of the old tail, which is
    not a block of the list any more. *)
Theorem my_free_leaves_last_behind
    (fuel : nat) (s : state) (P1 P2 N1 : list Z) (fb : Z) :
  dll (mem s) (head s) (P1 ++ P2 ++ fb :: N1) ->
  last s = List.last (P1 ++ P2 ++ fb :: N1) NULL ->
  (forall x, In x P2 -> b_free (mem s) x = 1) ->
  (forall x, In x N1 -> b_free (mem s) x = 1) ->
  P1 = [] \/ b_free (mem s) (List.last P1 NULL) <> 1 ->
  P2 <> [] \/ N1 <> [] ->
  (length P2 < fuel)%nat -> (length N1 < fuel)%nat ->
  exists s',
    my_free fuel (fb + sizeof_Block) s = Some s'
    /\ dll (mem s') (head s') (P1 ++ [hd fb P2])
    /\ last s' <> NULL
    /\ ~ In (last s') (P1 ++ [hd fb P2]).
Proof.
  intros Hdll Hlast HfP HfN HsP Habs HlP HlN.
  replace (P1 ++ P2 ++ fb :: N1) with (P1 ++ P2 ++ fb :: N1 ++ []) in Hdll
    by (rewrite app_nil_r; reflexivity).
  destruct (free_mem_spec fuel (mem s) (head s) P1 P2 N1 [] fb
              Hdll HfP HfN HsP (or_introl eq_refl) HlP HlN) as (m' & E & Hd & _).
  destruct (free_seps _ _ _ _ _ _ _ Hdll)
    as (_ & _ & _ & _ & _ & C1f & C1n & _ & C2f & C2n & _ & Cfn & _).
  destruct (free_ranges _ _ _ _ _ _ _ Hdll) as (_ & _ & Rf & R3 & _).
  exists (with_mem s m'). rewrite my_free_free_mem by (unfold NULL, sizeof_Block; lia).
  replace (fb + sizeof_Block - sizeof_Block) with fb by lia. rewrite E.
  split; [reflexivity|]. cbn [mem with_mem head last]. split; [exact Hd|].
  rewrite Hlast, (app_assoc P1 P2), last_app_cons, last_cons.
  set (t := List.last N1 fb).
  assert (Ht : t = fb \/ In t N1) by apply last_in.
  split.
  { destruct Ht as [->|Ht]; [|apply R3 in Ht]; unfold NULL; lia. }
  intros Hin. apply in_app_or in Hin as [Hin|[Hin|[]]].
  - destruct Ht as [Ht|Ht].
    + apply (sep_irrefl t), C1f; [exact Hin | rewrite Ht; in_tac].
    + apply (sep_irrefl t), C1n; assumption.
  - destruct P2 as [|x P2']; cbn [hd] in Hin.
    + destruct Habs as [Habs|Habs]; [congruence|].
      assert (G : sep fb t) by (apply Cfn; [in_tac | apply last_in_nonempty, Habs]).
      rewrite Hin in G. apply (sep_irrefl t G).
    + assert (G : sep x t).
      { destruct Ht as [Ht|Ht]; [rewrite Ht; apply C2f; in_tac | apply C2n; [in_tac | exact Ht]]. }
      rewrite Hin in G. apply (sep_irrefl t G).
Qed.

Lemma my_free_leaves_last_behind_witness :
  exists s',
    my_free 5 (4136 + sizeof_Block) (then_free 4128 (then_malloc 8 (then_malloc 8
              (init_state 4096 4096)))) = Some s'
    /\ dll (mem s') (head s') ([] ++ [hd 4136 [4096]])
    /\ last s' <> NULL
    /\ ~ In (last s') ([] ++ [hd 4136 [4096]]).
Proof.
  apply (my_free_leaves_last_behind 5 _ [] [4096] [] 4136).
  - concrete_dll.
  - vm_compute. reflexivity.
  - intros x [<-|[]]. vm_compute. reflexivity.
  - intros x [].
  - left. reflexivity.
  - left. discriminate.
  - cbn. lia.
  - cbn. lia.
Defined.

(** What the stale [last] leads to: after the tail at 4136 was absorbed,
    the block that growth places at 4176 is linked behind the absorbed
    header and is not reachable from [head]; once freed it is not found
    again, and the same request grows the arena a second time. *)
Lemma stale_last_grows_twice :
  head heap_tail_absorbed = 4096
  /\ b_next (mem heap_tail_absorbed) 4096 = NULL
  /\ b_size (mem heap_tail_absorbed) 4096 = 48
  /\ last heap_tail_absorbed = 4136
  /\ my_calloc 16 48 1 heap_tail_absorbed = Returns (4128, heap_tail_zeroed)
  /\ my_malloc 16 64 heap_tail_zeroed = Some (4208, heap_tail_grown)
  /\ b_next (mem heap_tail_grown) 4096 = NULL
  /\ my_free 16 4208 heap_tail_grown = Some heap_tail_freed
  /\ my_malloc 16 64 heap_tail_freed = Some (4304, heap_tail_regrown)
  /\ brk heap_tail_freed = 4272
  /\ brk heap_tail_regrown = 4368.
Proof. each_conjunct ltac:(vm_compute; reflexivity). Qed.

(** ** The statistics on a list *)

Lemma count_flag_cons (m : memory) (flag x : Z) (l : list Z) :
  count_flag m flag (x :: l)
  = (if b_free m x =? flag then 1 else 0) + count_flag m flag l.
Proof. reflexivity. Qed.

Lemma count_flag_range (m : memory) (flag : Z) (l : list Z) :
  0 <= count_flag m flag l <= Z.of_nat (length l).
Proof.
  induction l as [|x l IH]; [cbn; lia|].
  rewrite count_flag_cons. cbn [length]. destruct (b_free m x =? flag); lia.
Qed.

Lemma stats_loop_spec (L : list Z) :
  forall (fuel : nat) (m : memory) (current : Z) (st : stats),
    lseg (b_next m) current L NULL -> (length L < fuel)%nat ->
    exists st',
      stats_loop fuel m current st = Some st'
      /\ wrap64 (total_blocks st') = wrap64 (total_blocks st + Z.of_nat (length L))
      /\ wrap64 (used_blocks st') = wrap64 (used_blocks st + count_flag m 0 L)
      /\ wrap64 (free_blocks st') = wrap64 (free_blocks st + count_flag m 1 L)
      /\ used_bytes st' = last_seen m 0 L (used_bytes st)
      /\ free_bytes st' = last_seen m 1 L (free_bytes st).
Proof.
  induction L as [|x L IH]; intros fuel m current st Hseg Hfuel.
  - cbn [lseg] in Hseg. subst current. destruct fuel as [|fuel]; [cbn in Hfuel; lia|].
    exists st. cbn [stats_loop length last_seen]. rewrite Z.eqb_refl.
    cbn [count_flag]. rewrite !Z.add_0_r. auto 10.
  - destruct Hseg as (-> & Hx & Hseg). destruct fuel as [|fuel]; [cbn in Hfuel; lia|].
    cbn [stats_loop]. destruct (Z.eqb_spec x NULL); [contradiction|].
    cbn [length] in Hfuel |- *. rewrite !count_flag_cons. cbn [last_seen].
    destruct (b_free m x =? 0) eqn:E0; destruct (b_free m x =? 1) eqn:E1;
      [apply Z.eqb_eq in E0, E1; lia| | |];
      (edestruct (IH fuel m (b_next m x)) as (st' & E & Ht & Hu & Hf & Hub & Hfb);
       [exact Hseg | lia |];
       exists st'; split; [exact E|];
       cbn [total_blocks used_blocks free_blocks used_bytes free_bytes] in *;
       rewrite Ht, Hu, Hf, ?wrap64_add_l, Nat2Z.inj_succ;
       split; [f_equal; lia|]; split; [f_equal; lia|]; split; [f_equal; lia|];
       split; assumption).
Qed.

Lemma stats_loop_range (fuel : nat) :
  forall (m : memory) (current : Z) (st st' : stats),
    stats_loop fuel m current st = Some st' ->
    0 <= total_blocks st < 2 ^ 64 -> 0 <= used_blocks st < 2 ^ 64 ->
    0 <= free_blocks st < 2 ^ 64 ->
    0 <= total_blocks st' < 2 ^ 64 /\ 0 <= used_blocks st' < 2 ^ 64
    /\ 0 <= free_blocks st' < 2 ^ 64.
Proof.
  induction fuel as [|fuel IH]; intros m current st st' H Ht Hu Hf; [discriminate|].
  cbn [stats_loop] in H. destruct (current =? NULL).
  - injection H as <-. auto.
  - destruct (b_free m current =? 0); [|destruct (b_free m current =? 1)];
      apply IH in H; cbn [total_blocks used_blocks free_blocks] in *;
      try exact H; try apply wrap64_range; assumption.
Qed.

(** X6.  The statistics on a list that ends in null: the three counters
    are the number of blocks, of blocks whose [free] field is 0 and of
    blocks whose [free] field is 1 (as [size_t] values); the two byte
    figures are the size of the last used block and of the last free block
    of the list, 0 when there is none. *)
Theorem my_malloc_stats_counts (fuel : nat) (s : state) (L : list Z) :
  lseg (b_next (mem s)) (head s) L NULL -> (length L < fuel)%nat ->
  exists st,
    my_malloc_stats fuel s = Some st
    /\ total_blocks st = wrap64 (Z.of_nat (length L))
    /\ used_blocks st = wrap64 (count_flag (mem s) 0 L)
    /\ free_blocks st = wrap64 (count_flag (mem s) 1 L)
    /\ used_bytes st = last_seen (mem s) 0 L 0
    /\ free_bytes st = last_seen (mem s) 1 L 0.
Proof.
  intros Hseg Hfuel. unfold my_malloc_stats.
  destruct (stats_loop_spec L fuel (mem s) (head s) (mkStats 0 0 0 0 0) Hseg Hfuel)
    as (st & E & Ht & Hu & Hf & Hub & Hfb).
  destruct (stats_loop_range fuel _ _ _ _ E) as (Rt & Ru & Rf);
    try (cbn; lia).
  cbn [total_blocks used_blocks free_blocks used_bytes free_bytes] in *.
  exists st. split; [exact E|].
  rewrite <- (wrap64_small (total_blocks st)), <- (wrap64_small (used_blocks st)),
    <- (wrap64_small (free_blocks st)) by assumption.
  rewrite Ht, Hu, Hf. auto.
Qed.

Lemma my_malloc_stats_counts_witness :
  exists st,
    my_malloc_stats 8 heap_adjacent_free = Some st
    /\ total_blocks st = wrap64 (Z.of_nat (length [4096; 4136; 4192; 4288; 4328]))
    /\ used_blocks st
       = wrap64 (count_flag (mem heap_adjacent_free) 0 [4096; 4136; 4192; 4288; 4328])
    /\ free_blocks st
       = wrap64 (count_flag (mem heap_adjacent_free) 1 [4096; 4136; 4192; 4288; 4328])
    /\ used_bytes st = last_seen (mem heap_adjacent_free) 0 [4096; 4136; 4192; 4288; 4328] 0
    /\ free_bytes st = last_seen (mem heap_adjacent_free) 1 [4096; 4136; 4192; 4288; 4328] 0.
Proof.
  apply (my_malloc_stats_counts 8 heap_adjacent_free [4096; 4136; 4192; 4288; 4328]).
  - concrete_lseg.
  - simpl. lia.
Defined.

(** ** Zero-Allocate when Allocate fails *)

(** X7.  When the product fits [size_t] and the inner Allocate returns
    null, Zero-Allocate returns null after writing "my_calloc failed"
    behind the line that [perror("sbrk error")] wrote in Allocate
    ("sbrk error: " and the text of [ENOMEM]); no byte of the memory is
    written and the list anchors stay. *)
Theorem my_calloc_allocation_failure
    (fuel : nat) (value size : Z) (s s1 : state) :
  0 < value < 2 ^ 64 -> 0 < size < 2 ^ 64 -> value * size < 2 ^ 64 ->
  0 <= head s -> 0 <= brk s ->
  my_malloc fuel (value * size) s = Some (NULL, s1) ->
  exists s',
    my_calloc fuel value size s = Returns (NULL, s')
    /\ err s' = err s ++ [perror_line "sbrk error" ENOMEM; "my_calloc failed"%string]
    /\ mem s' = mem s /\ head s' = head s /\ last s' = last s.
Proof.
  intros Hv Hs Hfit Hh Hb Hm.
  unfold my_calloc, calloc_with.
  destruct (Z.eqb_spec size 0); [lia|]. destruct (Z.eqb_spec value 0); [lia|]. simpl.
  rewrite overflow_detected by lia.
  destruct (Z.ltb_spec (size * value) (2 ^ 64)); [|lia]. simpl.
  rewrite wrap64_small by nia. rewrite (Z.mul_comm size value), Hm, Z.eqb_refl.
  apply malloc_loop_null in Hm as (Em & Eh & El & Ee); [|assumption..].
  exists (report s1 "my_calloc failed"). split; [reflexivity|].
  cbn [report mem head last err]. rewrite Ee, Em, Eh, El, <- app_assoc.
  repeat (split; [reflexivity|]). reflexivity.
Qed.

Lemma my_calloc_allocation_failure_witness :
  exists s',
    my_calloc 5 4 4 heap_full = Returns (NULL, s')
    /\ err s' = err heap_full ++ [perror_line "sbrk error" ENOMEM; "my_calloc failed"%string]
    /\ mem s' = mem heap_full /\ head s' = head heap_full /\ last s' = last heap_full.
Proof.
  apply (my_calloc_allocation_failure 5 4 4 heap_full
           (report heap_full (perror_line "sbrk error" ENOMEM)));
    [lia | lia | lia | vm_compute; discriminate | vm_compute; discriminate
    | vm_compute; reflexivity].
Defined.

(** ** Allocate on a well-formed heap *)

Lemma laid_out_pairwise (m : memory) (L : list Z) (lo hi : Z) :
  laid_out m L lo hi ->
  forall x y, In x L -> In y L ->
    x = y \/ x + sizeof_Block + b_size m x <= y \/ y + sizeof_Block + b_size m y <= x.
Proof.
  revert lo. induction L as [|a L IH]; intros lo H x y Hx Hy; [destruct Hx|].
  destruct H as [Ha H]. pose proof (laid_out_bounds _ _ _ _ H) as Bnd.
  destruct Hx as [<-|Hx], Hy as [<-|Hy].
  - left. reflexivity.
  - right. left. apply (Bnd y Hy).
  - right. right. apply (Bnd x Hx).
  - apply (IH _ H); assumption.
Qed.

(** The payload of a block of a laid-out list meets no header of the list. *)
Lemma laid_out_payload (m : memory) (L : list Z) (lo hi : Z) (x y a : Z) :
  laid_out m L lo hi -> In x L -> In y L ->
  x + sizeof_Block <= a < x + sizeof_Block + b_size m x ->
  a < y \/ y + sizeof_Block <= a.
Proof.
  intros H Hx Hy Ha. pose proof (b_size_range m y).
  destruct (laid_out_pairwise _ _ _ _ H x y Hx Hy) as [<-|[G|G]];
    unfold sizeof_Block in *; lia.
Qed.

(** The bytes that the split of Allocate can write: the headers of the
    block, of the remainder, and the [prev] field of the successor. *)
Lemma split_mem_frame (m : memory) (aligned_size b a : Z) :
  0 <= aligned_size ->
  a < b \/ b + sizeof_Block <= a ->
  a < b + sizeof_Block + aligned_size \/ b + sizeof_Block + aligned_size + sizeof_Block <= a ->
  b_next m b = NULL \/ a < b_next m b + off_prev \/ b_next m b + sizeof_Block <= a ->
  load8 (split_mem m aligned_size b) a = load8 m a.
Proof.
  intros Hal Hb Hnb Hnx. unfold split_mem.
  set (nb := b + sizeof_Block + aligned_size) in *.
  set (v := wrap64 (b_size m b - aligned_size - sizeof_Block)).
  assert (Hnb' : b + 32 <= nb) by (subst nb; unfold sizeof_Block; lia).
  pose proof (b_next_range m b) as Hr.
  assert (E1 : b_next (set_prev (set_size m nb v) nb b) b = b_next m b).
  { mem_simpl. reflexivity. }
  rewrite E1.
  assert (E2 : b_next (set_next (set_next (set_prev (set_size m nb v) nb b) nb (b_next m b))
                         b nb) nb = b_next m b).
  { mem_simpl. apply wrap64_small. exact Hr. }
  rewrite E2. unfold sizeof_Block, off_prev in *.
  destruct (Z.eqb_spec (b_next m b) NULL) as [E0|Hne].
  - mem_simpl. reflexivity.
  - destruct Hnx as [Hnx|Hnx]; [contradiction|]. mem_simpl. reflexivity.
Qed.

(** How a successful Allocate went, on a list that ends in null. *)
Lemma malloc_loop_cases (fuel : nat) (s s' : state) (L : list Z) (aligned_size p : Z) :
  lseg (b_next (mem s)) (head s) L NULL -> (length L < fuel)%nat ->
  0 <= aligned_size < 2 ^ 63 ->
  malloc_loop fuel aligned_size (head s) s = Some (p, s') ->
  (exists Pre b Post,
      L = Pre ++ b :: Post
      /\ (forall x, In x Pre -> fits (mem s) aligned_size x = false)
      /\ b_free (mem s) b = 1 /\ aligned_size <= b_size (mem s) b
      /\ p = b + sizeof_Block
      /\ s' = with_mem s
                (if aligned_size + 40 <=? b_size (mem s) b
                 then split_mem (set_free (mem s) b 0) aligned_size b
                 else set_free (mem s) b 0))
  \/ ((forall x, In x L -> fits (mem s) aligned_size x = false)
      /\ malloc_grow aligned_size s = (p, s')).
Proof.
  intros Hseg Hfuel Hal Hm.
  destruct (first_fit_split (mem s) aligned_size L) as [Hnone|(Pre & b & Post & -> & Hpre & Hb)].
  - right. split; [exact Hnone|].
    rewrite (malloc_loop_none_fit L) in Hm by assumption. injection Hm as Hm. exact Hm.
  - left. exists Pre, b, Post. split; [reflexivity|]. split; [exact Hpre|].
    apply lseg_app in Hseg as (a & H1 & H2). destruct H2 as (-> & Hb0 & _).
    rewrite length_app in Hfuel. cbn [length] in Hfuel.
    rewrite (malloc_loop_found Pre fuel aligned_size b s) in Hm by (assumption || lia).
    rewrite malloc_reuse_unfold in Hm. injection Hm as <- <-.
    unfold fits in Hb. apply andb_prop in Hb as [Hbf Hbs].
    apply Z.eqb_eq in Hbf. apply Z.leb_le in Hbs.
    split; [exact Hbf|]. split; [exact Hbs|]. split; [reflexivity|].
    f_equal. cbv zeta.
    destruct (fields_set_free (mem s) b 0) as (-> & _).
    rewrite wrap64_small by (unfold sizeof_Block, ALIGNMENT; lia).
    replace (aligned_size + sizeof_Block + ALIGNMENT) with (aligned_size + 40)
      by (unfold sizeof_Block, ALIGNMENT; lia).
    reflexivity.
Qed.

(** What growth does besides linking the new block. *)
Lemma grow_more (s0 s1 : state) (L : list Z) (aligned_size p : Z) :
  dll (mem s0) (head s0) L ->
  laid_out (mem s0) L 1 (brk s0) ->
  last s0 = List.last L NULL ->
  0 < brk s0 <= 2 ^ 63 ->
  0 <= aligned_size -> aligned_size + sizeof_Block < 2 ^ 63 ->
  malloc_grow aligned_size s0 = (p, s1) -> p <> NULL ->
  b_free (mem s1) (brk s0) = 0
  /\ brk s1 = brk s0 + aligned_size + sizeof_Block
  /\ brk s1 <= brk_max s0
  /\ last s1 = brk s0
  /\ (forall a, a < brk s0 ->
      (forall x, In x L -> a < x \/ x + sizeof_Block <= a) ->
      load8 (mem s1) a = load8 (mem s0) a).
Proof.
  intros Hdll Hlay Hlast Hbrk Hal Hal2 Hg Hp.
  assert (Hw : wrap64 (aligned_size + sizeof_Block) = aligned_size + sizeof_Block).
  { apply wrap64_small. unfold sizeof_Block in *. lia. }
  destruct (malloc_grow_success_inv _ _ _ _ Hg Hp
              ltac:(rewrite Hw; unfold sizeof_Block in *; lia)) as [Hroom Hnf].
  destruct Hdll as (Hf & Hb & Hs & Hr).
  pose proof (laid_out_bounds _ _ _ _ Hlay) as Bnd.
  assert (Hhd : head s0 = hd NULL L) by apply (lseg_hd _ _ _ _ Hf).
  assert (Hlin : L = [] \/ In (last s0) L).
  { rewrite Hlast. destruct L as [|x L']; [left; reflexivity | right].
    rewrite last_cons. destruct (last_in L' x) as [->|Hin]; in_tac. }
  assert (Hlr : 0 <= last s0 < 2 ^ 64).
  { destruct Hlin as [->|Hin]; [rewrite Hlast; cbn; unfold NULL; lia|].
    apply Hr in Hin. lia. }
  destruct (malloc_grow_ok aligned_size s0)
    as (s' & E & Eb & _ & _ & _ & El & _ & _ & Ef & _ & _ & _ & Hfr).
  { unfold sizeof_Block in *. lia. }
  { lia. }
  { exact Hroom. }
  { unfold SBRK_FAILED in Hnf. lia. }
  { exact Hlr. }
  { destruct Hlin as [->|Hin]; [left; exact Hhd | right].
    destruct (Bnd _ Hin) as [_ G]. pose proof (b_size_range (mem s0) (last s0)).
    unfold sep, sizeof_Block in *. lia. }
  rewrite E in Hg. injection Hg as <- <-.
  split; [exact Ef|]. split; [lia|]. split; [lia|]. split; [exact El|].
  intros a Ha Hout. apply Hfr; [left; exact Ha|].
  destruct Hlin as [->|Hin]; [left; exact Hhd | right].
  specialize (Hout _ Hin). unfold sizeof_Block, off_next, off_prev in *. lia.
Qed.

(** What a successful Allocate does to a well-formed heap. *)
Lemma malloc_heap_spec
    (fuel : nat) (size p : Z) (s s' : state) (L : list Z) :
  heap_ok s L -> 0 <= size <= 2 ^ 62 -> (length L < fuel)%nat ->
  my_malloc fuel size s = Some (p, s') -> p <> NULL ->
  exists L',
    dll (mem s') (head s') L'
    /\ In (p - sizeof_Block) L'
    /\ b_free (mem s') (p - sizeof_Block) = 0
    /\ size <= ALIGN size <= b_size (mem s') (p - sizeof_Block)
    /\ p + ALIGN size <= brk s'
    /\ (forall x, In x L' -> x + sizeof_Block <= p \/ p + ALIGN size <= x)
    /\ (forall x, In x L -> x <> p - sizeof_Block ->
        In x L' /\ b_size (mem s') x = b_size (mem s) x
        /\ b_free (mem s') x = b_free (mem s) x)
    /\ (forall x a, In x L -> x <> p - sizeof_Block ->
        x + sizeof_Block <= a < x + sizeof_Block + b_size (mem s) x ->
        load8 (mem s') a = load8 (mem s) a)
    /\ ((exists Pre Post,
            L = Pre ++ (p - sizeof_Block) :: Post
            /\ (forall x, In x Pre -> fits (mem s) (ALIGN size) x = false)
            /\ fits (mem s) (ALIGN size) (p - sizeof_Block) = true
            /\ brk s' = brk s)
        \/ ((forall x, In x L -> fits (mem s) (ALIGN size) x = false)
            /\ p - sizeof_Block = brk s
            /\ L' = L ++ [brk s]
            /\ brk s' = brk s + ALIGN size + sizeof_Block))
    /\ (length L' <= S (length L))%nat
    /\ (forall x a, In x L -> x <> p - sizeof_Block ->
        x + sizeof_Block <= a < x + sizeof_Block + b_size (mem s) x ->
        a < p \/ p + ALIGN size <= a)
    /\ (forall x, In x L' -> In x L \/ x = p - sizeof_Block \/ x = p + ALIGN size).
Proof.
  intros (Hdll & Hlay & Hlast & Hbrk) Hsize Hfuel Hm Hp.
  unfold my_malloc in Hm.
  pose proof (ALIGN_ge size ltac:(lia)) as Hal. set (al := ALIGN size) in *.
  pose proof (laid_out_pairwise _ _ _ _ Hlay) as Hpw.
  pose proof (laid_out_bounds _ _ _ _ Hlay) as Bnd.
  assert (Hpay : forall x y a, In x L -> In y L ->
            x + sizeof_Block <= a < x + sizeof_Block + b_size (mem s) x ->
            a < y \/ y + sizeof_Block <= a).
  { intros x y a Hx Hy Ha. apply (laid_out_payload _ _ _ _ x y a Hlay Hx Hy Ha). }
  destruct (malloc_loop_cases fuel s s' L al p (proj1 Hdll) Hfuel ltac:(lia) Hm)
    as [(Pre & b & Post & -> & Hpre & Hbf & Hbs & -> & ->)|(Hnone & Hg)].
  - (* a free block is taken *)
    replace (b + sizeof_Block - sizeof_Block) with b by lia.
    destruct (reuse_nosplit_dll (mem s) (head s) Pre Post b Hdll) as (Hd1 & Hk1 & Hs1).
    destruct (fields_set_free (mem s) b 0) as (_ & Hf1 & Hn1 & _).
    set (m1 := set_free (mem s) b 0) in *.
    assert (Hb1 : forall a, a < b \/ b + sizeof_Block <= a -> load8 m1 a = load8 (mem s) a).
    { intros a Ha. subst m1. unfold sizeof_Block in Ha. mem_simpl. reflexivity. }
    assert (Hbin : In b (Pre ++ b :: Post)) by in_tac.
    assert (Hother : forall x, In x (Pre ++ b :: Post) -> x <> b -> In x (Pre ++ Post)).
    { intros x Hx Hne. apply in_app_or in Hx as [Hx|[Hx|Hx]]; [in_tac | congruence | in_tac]. }
    assert (Hfit : fits (mem s) al b = true).
    { unfold fits. rewrite Hbf. cbn. apply Z.leb_le. exact Hbs. }
    assert (Hreg : forall x, In x (Pre ++ b :: Post) ->
              x + sizeof_Block <= b + sizeof_Block \/ b + sizeof_Block + al <= x).
    { intros x Hx. pose proof (b_size_range (mem s) x).
      destruct (Hpw x b Hx Hbin) as [->|[G|G]]; unfold sizeof_Block in *; lia. }
    assert (Hend : b + sizeof_Block + al <= brk s).
    { destruct (Bnd b Hbin) as [_ G]. lia. }
    destruct (Z.leb_spec (al + 40) (b_size (mem s) b)) as [Hsplit|Hno].
    + (* with a split *)
      destruct (reuse_split_dll m1 (head s) Pre Post b al (brk s))
        as (Hd2 & Hk2 & Hs2 & Hn2); try assumption; try lia.
      { apply (laid_out_ext (mem s)); [|exact Hlay]. intros x Hx.
        destruct (Z.eq_dec x b) as [->|Hne]; [exact Hs1 | apply Hk1, Hother; assumption]. }
      set (nb := b + sizeof_Block + al) in *. set (m2 := split_mem m1 al b) in *.
      cbn [mem with_mem head brk].
      exists (Pre ++ b :: nb :: Post).
      split; [exact Hd2|]. split; [in_tac|].
      destruct (free_fwd_chain (mem s) (head s) Pre [] [] Post b Hdll) as (_ & _ & _ & F3 & _).
      cbn [lseg] in F3.
      assert (Hnx : b_next m1 b = NULL \/ In (b_next m1 b) Post).
      { rewrite Hn1, F3. destruct Post; [left; reflexivity | right; left; reflexivity]. }
      assert (Hbr : 0 < b < 2 ^ 64) by (apply (proj2 (proj2 (proj2 Hdll))); exact Hbin).
      destruct (split_mem_spec m1 al b (b_next m1 b)) as ((_ & Hf2 & _) & _);
        [lia | reflexivity | | subst nb; unfold sizeof_Block in *; lia | lia |].
      { destruct Hnx as [Hnx|Hnx]; [left; exact Hnx | right].
        assert (Hin : In (b_next m1 b) (Pre ++ b :: Post)) by in_tac.
        destruct (Bnd b Hbin) as [_ G1].
        pose proof (b_size_range (mem s) (b_next m1 b)).
        destruct (Hpw b (b_next m1 b) Hbin Hin) as [E|[G|G]];
          unfold sep, sizeof_Block in *; [|lia|lia].
        exfalso. destruct Hdll as (_ & _ & Hsep & _).
        apply all_sep_app in Hsep as (_ & (Hsep & _) & _).
        specialize (Hsep _ Hnx). unfold sep, sizeof_Block in Hsep. lia. }
      fold m2 in Hf2.
      split; [rewrite Hf2; exact Hf1|].
      split; [rewrite Hs2, Hs1; lia|].
      split; [exact Hend|].
      split.
      { intros x Hx. apply in_app_or in Hx as [Hx|[<-|[<-|Hx]]].
        - apply Hreg. in_tac.
        - left. lia.
        - right. subst nb. lia.
        - apply Hreg. in_tac. }
      split.
      { intros x Hx Hne. specialize (Hother x Hx Hne).
        split; [apply in_app_or in Hother as [G|G]; in_tac|].
        destruct (Hk2 x Hother) as [-> ->]. apply Hk1, Hother. }
      split.
      { intros x a Hx Hne Ha. rewrite <- Hb1 by (apply (Hpay x b a); assumption).
        pose proof (b_size_range (mem s) x).
        apply split_mem_frame.
        - lia.
        - apply (Hpay x b a); assumption.
        - destruct (Hpw x b Hx Hbin) as [E|[G|G]]; [contradiction| |];
            unfold sizeof_Block in *; lia.
        - destruct Hnx as [Hnx|Hnx]; [left; exact Hnx | right].
          assert (G : a < b_next m1 b \/ b_next m1 b + sizeof_Block <= a).
          { apply (Hpay x _ a); [exact Hx | in_tac | exact Ha]. }
          unfold sizeof_Block, off_prev in *. lia. }
      split; [left; exists Pre, Post; auto|].
      split; [rewrite !length_app; cbn [length]; lia|].
      split.
      { intros x a Hx Hne Ha. pose proof (b_size_range (mem s) x).
        destruct (Hpw x b Hx Hbin) as [E|[G|G]]; [contradiction| |];
          unfold sizeof_Block in *; lia. }
      intros x Hx. apply in_app_or in Hx as [Hx|[<-|[<-|Hx]]];
        [left; in_tac | left; in_tac | right; right; reflexivity | left; in_tac].
    + (* without *)
      cbn [mem with_mem head brk].
      exists (Pre ++ b :: Post).
      split; [exact Hd1|]. split; [exact Hbin|].
      split; [exact Hf1|].
      split; [rewrite Hs1; lia|].
      split; [exact Hend|].
      split; [exact Hreg|].
      split.
      { intros x Hx Hne. split; [exact Hx|]. apply Hk1, Hother; assumption. }
      split.
      { intros x a Hx Hne Ha. apply Hb1. apply (Hpay x b a); assumption. }
      split; [left; exists Pre, Post; auto|]. split; [lia|].
      split.
      { intros x a Hx Hne Ha. pose proof (b_size_range (mem s) x).
        destruct (Hpw x b Hx Hbin) as [E|[G|G]]; [contradiction| |];
          unfold sizeof_Block in *; lia. }
      intros x Hx. left. exact Hx.
  - (* the arena grows *)
    destruct (grow_dll s s' L al p Hdll Hlay Hlast Hbrk ltac:(lia)
                ltac:(unfold sizeof_Block; lia) Hg Hp) as (-> & Hd1 & Hk1 & Hs1).
    destruct (grow_more s s' L al _ Hdll Hlay Hlast Hbrk ltac:(lia)
                ltac:(unfold sizeof_Block; lia) Hg Hp) as (Hf1 & Hb1 & _ & _ & Hfr).
    replace (brk s + sizeof_Block - sizeof_Block) with (brk s) by lia.
    exists (L ++ [brk s]).
    split; [exact Hd1|]. split; [in_tac|].
    split; [exact Hf1|].
    split; [rewrite Hs1; lia|].
    split; [lia|].
    split.
    { intros x Hx. left. apply in_app_or in Hx as [Hx|[<-|[]]]; [|lia].
      destruct (Bnd x Hx) as [_ G]. pose proof (b_size_range (mem s) x).
      unfold sizeof_Block in *. lia. }
    split.
    { intros x Hx _. split; [in_tac|]. apply Hk1, Hx. }
    split.
    { intros x a Hx _ Ha. apply Hfr.
      - destruct (Bnd x Hx) as [_ G]. lia.
      - intros y Hy. apply (Hpay x y a); assumption. }
    split; [right; auto|]. split; [rewrite length_app; cbn [length]; lia|].
    split.
    { intros x a Hx _ Ha. destruct (Bnd x Hx) as [_ G]. unfold sizeof_Block in *. lia. }
    intros x Hx. apply in_app_or in Hx as [Hx|[<-|[]]]; [left; exact Hx | right; left; reflexivity].
Qed.


(** X8.  Allocate on a well-formed heap, when it returns a pointer [p]:
    the block behind [p] is in the list, marked used, and its capacity
    covers the request; the bytes handed out lie below the break and meet
    no header of the list and no payload of another block; every other
    block keeps its size, its flag and
    the contents of its payload; and the block is the first one of the list
    that was free and large enough, or, when there was none, a new block
    at the old break. *)
Theorem my_malloc_on_heap
    (fuel : nat) (size p : Z) (s s' : state) (L : list Z) :
  heap_ok s L -> 0 <= size <= 2 ^ 62 -> (length L < fuel)%nat ->
  my_malloc fuel size s = Some (p, s') -> p <> NULL ->
  exists L',
    dll (mem s') (head s') L'
    /\ In (p - sizeof_Block) L'
    /\ b_free (mem s') (p - sizeof_Block) = 0
    /\ size <= ALIGN size <= b_size (mem s') (p - sizeof_Block)
    /\ p + ALIGN size <= brk s'
    /\ (forall x, In x L' -> x + sizeof_Block <= p \/ p + ALIGN size <= x)
    /\ (forall x, In x L -> x <> p - sizeof_Block ->
        In x L' /\ b_size (mem s') x = b_size (mem s) x
        /\ b_free (mem s') x = b_free (mem s) x)
    /\ (forall x a, In x L -> x <> p - sizeof_Block ->
        x + sizeof_Block <= a < x + sizeof_Block + b_size (mem s) x ->
        a < p \/ p + ALIGN size <= a)
    /\ (forall x a, In x L -> x <> p - sizeof_Block ->
        x + sizeof_Block <= a < x + sizeof_Block + b_size (mem s) x ->
        load8 (mem s') a = load8 (mem s) a)
    /\ ((exists Pre Post,
            L = Pre ++ (p - sizeof_Block) :: Post
            /\ (forall x, In x Pre -> fits (mem s) (ALIGN size) x = false)
            /\ fits (mem s) (ALIGN size) (p - sizeof_Block) = true
            /\ brk s' = brk s)
        \/ ((forall x, In x L -> fits (mem s) (ALIGN size) x = false)
            /\ p - sizeof_Block = brk s
            /\ L' = L ++ [brk s]
            /\ brk s' = brk s + ALIGN size + sizeof_Block)).
Proof.
  intros Hok Hsize Hfuel Hm Hp.
  destruct (malloc_heap_spec fuel size p s s' L Hok Hsize Hfuel Hm Hp)
    as (L' & A1 & A2 & A3 & A4 & A5 & A6 & A7 & A8 & A9 & _ & A11 & _).
  exists L'. auto 12.
Qed.

Lemma my_malloc_on_heap_witness :
  exists L',
    dll (mem heap_24_taken) (head heap_24_taken) L'
    /\ In (4128 - sizeof_Block) L'
    /\ b_free (mem heap_24_taken) (4128 - sizeof_Block) = 0
    /\ 16 <= ALIGN 16 <= b_size (mem heap_24_taken) (4128 - sizeof_Block)
    /\ 4128 + ALIGN 16 <= brk heap_24_taken
    /\ (forall x, In x L' -> x + sizeof_Block <= 4128 \/ 4128 + ALIGN 16 <= x)
    /\ (forall x, In x [4096] -> x <> 4128 - sizeof_Block ->
        In x L' /\ b_size (mem heap_24_taken) x = b_size (mem heap_free_24) x
        /\ b_free (mem heap_24_taken) x = b_free (mem heap_free_24) x)
    /\ (forall x a, In x [4096] -> x <> 4128 - sizeof_Block ->
        x + sizeof_Block <= a < x + sizeof_Block + b_size (mem heap_free_24) x ->
        a < 4128 \/ 4128 + ALIGN 16 <= a)
    /\ (forall x a, In x [4096] -> x <> 4128 - sizeof_Block ->
        x + sizeof_Block <= a < x + sizeof_Block + b_size (mem heap_free_24) x ->
        load8 (mem heap_24_taken) a = load8 (mem heap_free_24) a)
    /\ ((exists Pre Post,
            [4096] = Pre ++ (4128 - sizeof_Block) :: Post
            /\ (forall x, In x Pre -> fits (mem heap_free_24) (ALIGN 16) x = false)
            /\ fits (mem heap_free_24) (ALIGN 16) (4128 - sizeof_Block) = true
            /\ brk heap_24_taken = brk heap_free_24)
        \/ ((forall x, In x [4096] -> fits (mem heap_free_24) (ALIGN 16) x = false)
            /\ 4128 - sizeof_Block = brk heap_free_24
            /\ L' = [4096] ++ [brk heap_free_24]
            /\ brk heap_24_taken = brk heap_free_24 + ALIGN 16 + sizeof_Block)).
Proof.
  apply (my_malloc_on_heap 5 16 4128 heap_free_24 heap_24_taken [4096]).
  - split; [concrete_dll|]. split; [concrete_laid_out|].
    split; vm_compute; [reflexivity | split; [reflexivity | discriminate]].
  - lia.
  - cbn. lia.
  - vm_compute. reflexivity.
  - discriminate.
Defined.

(** ** The [last] anchor after a split *)

(** X9.  Allocate that splits the tail of a well-formed heap: the
    remainder becomes the new tail of the list, but [last] keeps the
    address of the block that was split. *)
Theorem my_malloc_split_leaves_last_behind
    (fuel : nat) (s : state) (Pre : list Z) (b size : Z) :
  heap_ok s (Pre ++ [b]) -> 0 <= size <= 2 ^ 62 ->
  (forall x, In x Pre -> fits (mem s) (ALIGN size) x = false) ->
  b_free (mem s) b = 1 -> ALIGN size + 40 <= b_size (mem s) b ->
  (length Pre < fuel)%nat ->
  exists s',
    my_malloc fuel size s = Some (b + sizeof_Block, s')
    /\ dll (mem s') (head s') (Pre ++ [b; b + sizeof_Block + ALIGN size])
    /\ last s' = b
    /\ List.last (Pre ++ [b; b + sizeof_Block + ALIGN size]) NULL <> last s'.
Proof.
  intros (Hdll & Hlay & Hlast & Hbrk) Hsize Hpre Hbf Hbig Hfuel.
  pose proof (ALIGN_ge size ltac:(lia)) as Hal. set (al := ALIGN size) in *.
  destruct (free_fwd_chain (mem s) (head s) Pre [] [] [] b Hdll) as (F1 & _ & Hb0 & _).
  cbn [hd] in F1.
  assert (Hfit : fits (mem s) al b = true).
  { unfold fits. rewrite Hbf, Z.eqb_refl. cbn [andb]. apply Z.leb_le. lia. }
  destruct (reuse_nosplit_dll (mem s) (head s) Pre [] b Hdll) as (Hd1 & Hk1 & Hs1).
  set (m1 := set_free (mem s) b 0) in *.
  destruct (reuse_split_dll m1 (head s) Pre [] b al (brk s))
    as (Hd2 & _); try assumption; try lia.
  { apply (laid_out_ext (mem s)); [|exact Hlay]. intros x Hx.
    apply in_app_or in Hx as [Hx|[<-|[]]]; [|exact Hs1].
    apply Hk1. rewrite app_nil_r. exact Hx. }
  exists (with_mem s (split_mem m1 al b)).
  split.
  { unfold my_malloc. fold al.
    rewrite (malloc_loop_found Pre fuel al b s F1 Hb0 Hpre Hfit Hfuel).
    rewrite malloc_reuse_unfold. cbv zeta. fold m1. rewrite Hs1.
    rewrite wrap64_small by (unfold sizeof_Block, ALIGNMENT; lia).
    destruct (Z.leb_spec (al + sizeof_Block + ALIGNMENT) (b_size (mem s) b)) as [_|G];
      [reflexivity | unfold sizeof_Block, ALIGNMENT in G; lia]. }
  cbn [mem with_mem head last].
  split; [exact Hd2|].
  assert (E : last s = b).
  { rewrite Hlast, last_app_cons. reflexivity. }
  split; [exact E|].
  rewrite last_app_cons, E. cbn [List.last]. unfold sizeof_Block. lia.
Qed.

Lemma my_malloc_split_leaves_last_behind_witness :
  exists s',
    my_malloc 5 8 heap_one_free = Some (4096 + sizeof_Block, s')
    /\ dll (mem s') (head s') ([] ++ [4096; 4096 + sizeof_Block + ALIGN 8])
    /\ last s' = 4096
    /\ List.last ([] ++ [4096; 4096 + sizeof_Block + ALIGN 8]) NULL <> last s'.
Proof.
  apply (my_malloc_split_leaves_last_behind 5 heap_one_free [] 4096 8).
  - split; [concrete_dll|]. split; [concrete_laid_out|].
    split; vm_compute; [reflexivity | split; [reflexivity | discriminate]].
  - lia.
  - intros x [].
  - vm_compute. reflexivity.
  - vm_compute. discriminate.
  - cbn. lia.
Defined.

(** X11.  Growth appends behind [last], wherever that is: when [last]
    is the block [b] of a list whose headers lie below the break and no
    block fits, a successful Allocate links the new block at the old break
    right after [b], and the blocks that followed [b] are no longer
    reached from [head]. *)
Theorem my_malloc_grow_unlinks_after_last
    (fuel : nat) (s s' : state) (Pre Rest : list Z) (b size p : Z) :
  dll (mem s) (head s) (Pre ++ b :: Rest) ->
  (forall x, In x (Pre ++ b :: Rest) -> x + sizeof_Block <= brk s) ->
  0 < brk s <= 2 ^ 63 -> last s = b -> 0 <= size <= 2 ^ 62 ->
  (forall x, In x (Pre ++ b :: Rest) -> fits (mem s) (ALIGN size) x = false) ->
  (length (Pre ++ b :: Rest) < fuel)%nat ->
  my_malloc fuel size s = Some (p, s') -> p <> NULL ->
  p = brk s + sizeof_Block
  /\ lseg (b_next (mem s')) (head s') (Pre ++ [b; brk s]) NULL
  /\ (forall x, In x Rest -> ~ In x (Pre ++ [b; brk s])).
Proof.
  intros Hdll Bnd Hbrk Hlast Hsize Hnone Hfuel Hm Hp.
  pose proof (ALIGN_ge size ltac:(lia)) as Hal. set (al := ALIGN size) in *.
  destruct (free_fwd_chain (mem s) (head s) Pre [] [] Rest b Hdll) as (F1 & _ & Hb0 & _).
  destruct (free_seps (mem s) (head s) Pre [] [] Rest b Hdll)
    as (_ & _ & _ & _ & _ & C1f & _ & C1m & _ & _ & _ & _ & Cfm & _).
  destruct (free_ranges (mem s) (head s) Pre [] [] Rest b Hdll) as (R1 & _ & Rb & _).
  cbn [hd] in F1.
  assert (Hbin : In b (Pre ++ b :: Rest)) by in_tac.
  unfold my_malloc in Hm. fold al in Hm.
  rewrite (malloc_loop_none_fit (Pre ++ b :: Rest)) in Hm
    by (assumption || exact (proj1 Hdll)).
  injection Hm as Hm.
  assert (Hw : wrap64 (al + sizeof_Block) = al + sizeof_Block).
  { apply wrap64_small. unfold sizeof_Block in *. lia. }
  assert (Hinc : 0 < wrap64 (al + sizeof_Block) < 2 ^ 63).
  { rewrite Hw. unfold sizeof_Block. lia. }
  destruct (malloc_grow_success_inv _ _ _ _ Hm Hp Hinc) as [Hroom Hnf].
  assert (Hhd : head s = hd NULL (Pre ++ b :: Rest)) by apply (lseg_hd _ _ _ _ (proj1 Hdll)).
  assert (Hh0 : head s <> NULL).
  { rewrite Hhd. destruct Pre as [|x Pre']; cbn [hd app]; [exact Hb0|].
    specialize (R1 x ltac:(in_tac)). unfold NULL. lia. }
  destruct (malloc_grow_ok al s)
    as (s1 & E & _ & _ & _ & _ & _ & Eh & _ & _ & En & _ & Et & Hfr).
  { unfold sizeof_Block in *. lia. }
  { lia. }
  { exact Hroom. }
  { unfold SBRK_FAILED in Hnf. lia. }
  { rewrite Hlast. lia. }
  { right. rewrite Hlast. specialize (Bnd b Hbin).
    unfold sep, sizeof_Block in *. lia. }
  rewrite E in Hm. injection Hm as <- <-.
  split; [reflexivity|].
  split.
  - rewrite Eh. destruct (Z.eqb_spec (head s) NULL) as [E0|_]; [contradiction|].
    apply lseg_app. exists b. split.
    + eapply lseg_ext; [|exact F1]. intros y Hy.
      autounfold with fields. apply loadn_ext. intros a Ha. apply Hfr.
      * specialize (Bnd y ltac:(in_tac)).
        simpl in Ha. unfold sizeof_Block, off_next in *. lia.
      * right. rewrite Hlast. specialize (C1f y b Hy ltac:(in_tac)).
        simpl in Ha. unfold sep, sizeof_Block, off_next, off_prev in *. lia.
    + cbn [lseg]. split; [reflexivity|]. split; [exact Hb0|].
      rewrite <- Hlast at 1. rewrite (Et Hh0).
      split; [reflexivity|]. split; [unfold NULL; lia | exact En].
  - intros x Hx Hin. apply in_app_or in Hin as [Hin|[Hin|[Hin|[]]]].
    + apply (sep_irrefl x), C1m; assumption.
    + apply (sep_irrefl x). rewrite <- Hin at 1. apply Cfm; [in_tac | exact Hx].
    + specialize (Bnd x ltac:(in_tac)). unfold sizeof_Block in *. lia.
Qed.

Lemma my_malloc_grow_unlinks_after_last_witness :
  4224 = brk (then_malloc 8 heap_one_free) + sizeof_Block
  /\ lseg (b_next (mem (then_malloc 8 (then_malloc 8 heap_one_free))))
          (head (then_malloc 8 (then_malloc 8 heap_one_free)))
          ([] ++ [4096; brk (then_malloc 8 heap_one_free)]) NULL
  /\ (forall x, In x [4136] ->
      ~ In x ([] ++ [4096; brk (then_malloc 8 heap_one_free)])).
Proof.
  apply (my_malloc_grow_unlinks_after_last 5 (then_malloc 8 heap_one_free)
           (then_malloc 8 (then_malloc 8 heap_one_free)) [] [4136] 4096 8 4224).
  - concrete_dll.
  - intros x [<-|[<-|[]]]; vm_compute; discriminate.
  - vm_compute. split; [reflexivity | discriminate].
  - vm_compute. reflexivity.
  - lia.
  - intros x [<-|[<-|[]]]; vm_compute; reflexivity.
  - cbn. lia.
  - vm_compute. reflexivity.
  - discriminate.
Defined.

(** ** A block linked in after another *)

Section InsertAfter.
Variables (m m' : memory) (h : Z) (Pre Post : list Z) (b nb : Z).
Hypothesis Hdll : dll m h (Pre ++ b :: Post).
Hypothesis Hnbr : 0 < nb < 2 ^ 64.
Hypothesis Snb_pre : forall x, In x Pre -> sep nb x.
Hypothesis Snb_post : forall x, In x Post -> sep nb x.
Hypothesis Sb_nb : sep b nb.
Hypothesis Zbn : b_next m' b = nb.
Hypothesis Zbp : b_prev m' b = b_prev m b.
Hypothesis Znn : b_next m' nb = hd NULL Post.
Hypothesis Znp : b_prev m' nb = b.
Hypothesis Zx : hd NULL Post <> NULL ->
  b_prev m' (hd NULL Post) = nb
  /\ b_size m' (hd NULL Post) = b_size m (hd NULL Post)
  /\ b_free m' (hd NULL Post) = b_free m (hd NULL Post)
  /\ b_next m' (hd NULL Post) = b_next m (hd NULL Post).
Hypothesis Hfr : forall y, sep b y -> sep nb y ->
  hd NULL Post = NULL \/ sep (hd NULL Post) y -> same_header m m' y.

Lemma insert_after_dll :
  dll m' h (Pre ++ b :: nb :: Post)
  /\ (forall x, In x (Pre ++ Post) -> b_size m' x = b_size m x /\ b_free m' x = b_free m x).
Proof.
  destruct (free_fwd_chain m h Pre [] [] Post b Hdll) as (F1 & _ & Hb & F3 & F4).
  destruct (free_bck_chain m h Pre [] [] Post b Hdll) as (B1 & _ & B3 & B4).
  destruct (free_seps m h Pre [] [] Post b Hdll)
    as (S1 & _ & _ & S4 & _ & C1f & _ & C1m & _ & _ & _ & _ & Cfm & _).
  destruct (free_ranges m h Pre [] [] Post b Hdll) as (R1 & _ & Rb & _ & R4).
  cbn [hd rev lseg List.last app] in F1, F3, F4, B1, B3, B4.
  set (nx := hd NULL Post) in *.
  assert (Hnx : nx = NULL \/ In nx Post).
  { subst nx. destruct Post; [left; reflexivity | right; left; reflexivity]. }
  assert (HPre : forall x, In x Pre -> same_header m m' x).
  { intros x Hx. apply Hfr.
    - apply sep_sym, C1f; [exact Hx | in_tac].
    - apply Snb_pre, Hx.
    - destruct Hnx as [Hnx|Hnx]; [left; exact Hnx | right; apply sep_sym, C1m; assumption]. }
  assert (HPost : forall y, In y Post ->
                  b_size m' y = b_size m y /\ b_free m' y = b_free m y
                  /\ b_next m' y = b_next m y
                  /\ (y <> nx -> b_prev m' y = b_prev m y)).
  { intros y Hy. destruct (Z.eq_dec y nx) as [->|Hyx].
    - assert (Hne : nx <> NULL) by (apply R4 in Hy; unfold NULL; lia).
      destruct (Zx Hne) as (_ & A1 & A2 & A3). repeat split; try assumption. contradiction.
    - assert (Hs : same_header m m' y).
      { apply Hfr; [apply Cfm; [in_tac | exact Hy] | apply Snb_post, Hy|].
        right. subst nx. destruct Post as [|z0 Post']; [destruct Hy|].
        cbn [hd] in *. destruct Hy as [Hy|Hy]; [congruence|].
        destruct S4 as [S4 _]. apply S4, Hy. }
      destruct (same_header_fields _ _ _ Hs) as (G1 & G2 & G3 & G4). auto. }
  assert (Hbk : lseg (b_prev m') nb (nb :: b :: rev Pre) NULL).
  { cbn [lseg]. split; [reflexivity|]. split; [unfold NULL; lia|]. rewrite Znp.
    split; [reflexivity|]. split; [exact Hb|]. rewrite Zbp, B3.
    eapply lseg_ext; [|exact B4]. intros y Hy. apply in_rev in Hy.
    apply (same_header_fields _ _ _ (HPre y Hy)). }
  split; [split; [|split; [|split]]|].
  - apply lseg_app. exists b. split.
    + eapply lseg_ext; [|exact F1]. intros y Hy.
      apply (same_header_fields _ _ _ (HPre y Hy)).
    + cbn [lseg]. split; [reflexivity|]. split; [exact Hb|]. rewrite Zbn.
      split; [reflexivity|]. split; [unfold NULL; lia|]. rewrite Znn.
      eapply lseg_ext; [|exact F4]. intros y Hy. apply (HPost y Hy).
  - rewrite rev_app_distr. cbn [rev]. rewrite <- !app_assoc. cbn [app].
    destruct Post as [|z0 Post'].
    + cbn [rev app]. rewrite last_app_cons, !last_cons. cbn [List.last]. exact Hbk.
    + cbn [hd] in nx. rewrite last_app_cons, !last_cons.
      rewrite last_app_cons, !last_cons in B1.
      cbn [rev] in B1 |- *. rewrite <- app_assoc. cbn [app].
      apply lseg_snoc in B1 as (B1 & Hz0 & _).
      apply lseg_app. exists z0. split.
      * eapply lseg_ext; [|exact B1]. intros y Hy. apply in_rev in Hy.
        apply (HPost y (or_intror Hy)).
        intros ->. destruct S4 as [S4 _]. specialize (S4 z0 Hy).
        unfold sep, sizeof_Block in S4. lia.
      * cbn [lseg]. split; [reflexivity|]. split; [exact Hz0|].
        destruct (Zx Hz0) as (Ez & _). unfold nx in Ez. rewrite Ez. exact Hbk.
  - apply all_sep_app. split; [exact S1|]. split; [split; [|split; [|exact S4]]|].
    + intros y [<-|Hy]; [exact Sb_nb | apply Cfm; [in_tac | exact Hy]].
    + exact Snb_post.
    + intros x y Hx [<-|[<-|Hy]];
        [apply C1f; [exact Hx | in_tac] | apply sep_sym, Snb_pre, Hx
        | apply C1m; assumption].
  - intros x Hx. apply in_app_or in Hx as [Hx|[<-|[<-|Hx]]];
      [apply R1, Hx | exact Rb | exact Hnbr | apply R4, Hx].
  - intros x Hx. apply in_app_or in Hx as [Hx|Hx].
    + destruct (same_header_fields _ _ _ (HPre x Hx)) as (G1 & G2 & _). auto.
    + destruct (HPost x Hx) as (G1 & G2 & _). auto.
Qed.
End InsertAfter.

(** ** Resize in place *)

Lemma realloc_shrink_unfold (aligned_size ptr : Z) (s : state) :
  realloc_shrink aligned_size ptr s
  = (ptr, with_mem s
       (set_size (if wrap64 (aligned_size + sizeof_Block + ALIGNMENT)
                       <=? b_size (mem s) (ptr - sizeof_Block)
                  then shrink_split (mem s) aligned_size (ptr - sizeof_Block)
                  else mem s)
                 (ptr - sizeof_Block) aligned_size)).
Proof. reflexivity. Qed.

(** The split of Resize followed by line 314, field by field. *)
Lemma shrink_split_spec (m : memory) (aligned_size b nx : Z) :
  0 <= aligned_size < 2 ^ 64 -> b_next m b = nx ->
  nx = NULL \/ (sep nx b /\ sep nx (b + sizeof_Block + aligned_size)) ->
  0 <= b + sizeof_Block + aligned_size < 2 ^ 64 -> 0 <= b < 2 ^ 64 ->
  let nb := b + sizeof_Block + aligned_size in
  let m' := set_size (shrink_split m aligned_size b) b aligned_size in
  (b_size m' b = aligned_size /\ b_free m' b = b_free m b
   /\ b_next m' b = nb /\ b_prev m' b = b_prev m b)
  /\ (b_size m' nb = wrap64 (b_size m b - aligned_size - sizeof_Block)
      /\ b_free m' nb = 1
      /\ b_next m' nb = nx /\ b_prev m' nb = b)
  /\ (nx <> NULL ->
      b_prev m' nx = nb /\ b_size m' nx = b_size m nx
      /\ b_free m' nx = b_free m nx /\ b_next m' nx = b_next m nx)
  /\ (forall y, sep b y -> sep nb y -> nx = NULL \/ sep nx y -> same_header m m' y)
  /\ (forall a, a < b \/ b + sizeof_Block <= a ->
      a < nb \/ nb + sizeof_Block <= a ->
      nx = NULL \/ a < nx + off_prev \/ nx + sizeof_Block <= a ->
      load8 m' a = load8 m a).
Proof.
  intros Hal Hn Hnx Hrn Hrb nb m'. subst m' nb. unfold shrink_split.
  pose proof (b_next_range m b) as Hr. rewrite Hn in Hr.
  set (nb := b + sizeof_Block + aligned_size) in *.
  assert (Hnb : b + 32 <= nb) by (subst nb; unfold sizeof_Block; lia).
  assert (E1 : b_next (set_prev (set_free m nb 1) nb b) b = nx).
  { rewrite <- Hn. mem_simpl. reflexivity. }
  rewrite E1.
  assert (E2 : b_size (set_next (set_prev (set_free m nb 1) nb b) nb nx) b = b_size m b).
  { mem_simpl. reflexivity. }
  rewrite E2.
  set (v := wrap64 (b_size m b - aligned_size - sizeof_Block)).
  assert (E3 : b_next (set_size (set_next (set_prev (set_free m nb 1) nb b) nb nx) nb v) b = nx).
  { rewrite <- Hn. mem_simpl. reflexivity. }
  rewrite E3.
  destruct (Z.eqb_spec nx NULL) as [E0|Hne].
  - split; [|split; [|split; [|split]]].
    + repeat split; mem_simpl; try reflexivity; apply wrap64_small; assumption.
    + repeat split; mem_simpl; try reflexivity.
      * apply wrap64_small, wrap64_range.
      * apply wrap64_small. exact Hr.
      * apply wrap64_small. exact Hrb.
    + contradiction.
    + intros y Hy Hny _ a Ha. unfold sep, sizeof_Block in *. mem_simpl. reflexivity.
    + intros a Ha Hna _. unfold sizeof_Block in *. mem_simpl. reflexivity.
  - destruct Hnx as [Hnx|[Hxb Hxn]]; [contradiction|].
    unfold sep, sizeof_Block in Hxb, Hxn. fold nb in Hxn.
    split; [|split; [|split; [|split]]].
    + repeat split; mem_simpl; try reflexivity; apply wrap64_small; assumption.
    + repeat split; mem_simpl; try reflexivity.
      * apply wrap64_small, wrap64_range.
      * apply wrap64_small. exact Hr.
      * apply wrap64_small. exact Hrb.
    + intros _. repeat split; mem_simpl; try reflexivity. apply wrap64_small. exact Hrn.
    + intros y Hy Hny [Hc|Hc] a Ha; [contradiction|].
      unfold sep, sizeof_Block in *. mem_simpl. reflexivity.
    + intros a Ha Hna [Hc|Hc]; [contradiction|].
      unfold sizeof_Block, off_prev in *. mem_simpl. reflexivity.
Qed.

Lemma laid_out_lower (m : memory) (L : list Z) (lo lo' hi : Z) :
  lo' <= lo -> laid_out m L lo hi -> laid_out m L lo' hi.
Proof.
  intros Hle H. apply (proj2 (laid_out_app m [] L lo' hi)). exists lo. split; assumption.
Qed.

(** X10.  Resize to a size that the block already covers, on a list laid
    out in address order: the call returns the pointer it was given and
    sets the size of the block to the aligned request; when at least 40
    bytes are left over they become a free block linked in right after
    it; the list stays well linked and in address order; the first
    [ALIGN size] payload bytes, and the sizes, flags and payloads of all
    other blocks, are as before. *)
Theorem my_realloc_shrinks_in_place
    (fuel : nat) (s : state) (Pre Post : list Z) (b size : Z) :
  dll (mem s) (head s) (Pre ++ b :: Post) ->
  laid_out (mem s) (Pre ++ b :: Post) 1 (brk s) -> brk s <= 2 ^ 63 ->
  0 < size <= 2 ^ 63 -> ALIGN size <= b_size (mem s) b ->
  let p := b + sizeof_Block in
  let nb := p + ALIGN size in
  let L' := if ALIGN size + 40 <=? b_size (mem s) b
            then Pre ++ b :: nb :: Post else Pre ++ b :: Post in
  exists s',
    my_realloc fuel p size s = Some (p, s')
    /\ brk s' = brk s
    /\ dll (mem s') (head s') L'
    /\ laid_out (mem s') L' 1 (brk s')
    /\ b_size (mem s') b = ALIGN size
    /\ b_free (mem s') b = b_free (mem s) b
    /\ (ALIGN size + 40 <= b_size (mem s) b ->
        b_free (mem s') nb = 1
        /\ b_size (mem s') nb = b_size (mem s) b - ALIGN size - sizeof_Block)
    /\ (forall x, In x (Pre ++ Post) ->
        b_size (mem s') x = b_size (mem s) x /\ b_free (mem s') x = b_free (mem s) x)
    /\ (forall a, p <= a < p + ALIGN size -> load8 (mem s') a = load8 (mem s) a)
    /\ (forall x a, In x (Pre ++ Post) ->
        x + sizeof_Block <= a < x + sizeof_Block + b_size (mem s) x ->
        load8 (mem s') a = load8 (mem s) a).
Proof.
  intros Hdll Hlay Hbrk Hsize Hfit p nb L'.
  pose proof (ALIGN_ge size ltac:(lia)) as Hal. set (al := ALIGN size) in *.
  pose proof (laid_out_pairwise _ _ _ _ Hlay) as Hpw.
  pose proof (laid_out_bounds _ _ _ _ Hlay) as Bnd.
  assert (Hbin : In b (Pre ++ b :: Post)) by in_tac.
  destruct (Bnd b Hbin) as [Hb1 Hbe].
  destruct (free_seps (mem s) (head s) Pre [] [] Post b Hdll)
    as (_ & _ & _ & _ & _ & C1f & _ & _ & _ & _ & _ & _ & Cfm & _).
  assert (Hsepb : forall x, In x (Pre ++ Post) -> sep b x).
  { intros x Hx. apply in_app_or in Hx as [Hx|Hx];
      [apply sep_sym, C1f; [exact Hx | in_tac] | apply Cfm; [in_tac | exact Hx]]. }
  assert (Hin : forall x, In x (Pre ++ Post) -> In x (Pre ++ b :: Post)).
  { intros x Hx. apply in_app_or in Hx as [Hx|Hx]; in_tac. }
  assert (Hpay : forall x y a, In x (Pre ++ b :: Post) -> In y (Pre ++ b :: Post) ->
            x + sizeof_Block <= a < x + sizeof_Block + b_size (mem s) x ->
            a < y \/ y + sizeof_Block <= a).
  { intros x y a Hx Hy Ha. apply (laid_out_payload _ _ _ _ x y a Hlay Hx Hy Ha). }
  apply laid_out_app in Hlay as (mid & L1 & L2). destruct L2 as [Hmid L2].
  assert (E : my_realloc fuel p size s = Some (realloc_shrink al p s)).
  { unfold my_realloc. fold al.
    destruct (Z.eqb_spec p NULL) as [E0|_];
      [subst p; unfold NULL, sizeof_Block in E0; lia|].
    destruct (Z.eqb_spec size 0) as [E0|_]; [lia|].
    replace (p - sizeof_Block) with b by (subst p; lia).
    destruct (Z.leb_spec al (b_size (mem s) b)); [reflexivity | lia]. }
  rewrite E, realloc_shrink_unfold.
  replace (p - sizeof_Block) with b by (subst p; lia).
  rewrite wrap64_small by (unfold sizeof_Block, ALIGNMENT in *; lia).
  replace (al + sizeof_Block + ALIGNMENT) with (al + 40)
    by (unfold sizeof_Block, ALIGNMENT; lia).
  eexists. split; [reflexivity|]. cbn [mem with_mem head brk]. split; [reflexivity|].
  subst L'. destruct (Z.leb_spec (al + 40) (b_size (mem s) b)) as [Hsplit|Hno].
  - (* with a split *)
    destruct (free_fwd_chain (mem s) (head s) Pre [] [] Post b Hdll) as (_ & _ & _ & F3 & _).
    cbn [lseg] in F3.
    assert (Hnx : hd NULL Post = NULL \/ In (hd NULL Post) Post).
    { destruct Post; [left; reflexivity | right; left; reflexivity]. }
    pose proof (laid_out_bounds _ _ _ _ L1) as Bpre.
    pose proof (laid_out_bounds _ _ _ _ L2) as Bpost.
    assert (Hbr : 0 < b < 2 ^ 64) by (apply (proj2 (proj2 (proj2 Hdll))); exact Hbin).
    assert (Hnbe : nb = b + sizeof_Block + al) by reflexivity.
    assert (Snb_pre : forall x, In x Pre -> sep nb x).
    { intros x Hx. destruct (Bpre x Hx) as [G1 G2]. pose proof (b_size_range (mem s) x).
      unfold sep, sizeof_Block in *. lia. }
    assert (Snb_post : forall x, In x Post -> sep nb x).
    { intros x Hx. destruct (Bpost x Hx) as [G1 G2].
      unfold sep, sizeof_Block in *. lia. }
    destruct (shrink_split_spec (mem s) al b (hd NULL Post))
      as ((Zbs & Zbf & Zbn & Zbp) & (Zns & Znf & Znn & Znp) & Zx & Hfr & Hby).
    { unfold sizeof_Block in *. lia. }
    { exact F3. }
    { destruct Hnx as [Hnx|Hnx]; [left; exact Hnx | right]. split.
      - apply sep_sym, Cfm; [in_tac | exact Hnx].
      - apply sep_sym, Snb_post, Hnx. }
    { unfold sizeof_Block in *. lia. }
    { lia. }
    rewrite <- Hnbe in Zbn, Zns, Znf, Znn, Znp, Zx, Hfr, Hby.
    set (m' := set_size (shrink_split (mem s) al b) b al) in *.
    destruct (insert_after_dll (mem s) m' (head s) Pre Post b nb) as (Hd & Hk);
      try assumption.
    { unfold sizeof_Block in *. lia. }
    { unfold sep, sizeof_Block in *. lia. }
    assert (Hns : b_size m' nb = b_size (mem s) b - al - sizeof_Block).
    { rewrite Zns. apply wrap64_small. pose proof (b_size_range (mem s) b).
      unfold sizeof_Block. lia. }
    split; [exact Hd|].
    split.
    { apply laid_out_app. exists mid. split.
      - apply (laid_out_ext (mem s)); [|exact L1]. intros x Hx. apply Hk. in_tac.
      - cbn [laid_out]. split; [exact Hmid|]. rewrite Zbs. split; [lia|].
        rewrite Hns. replace (nb + sizeof_Block + (b_size (mem s) b - al - sizeof_Block))
          with (b + sizeof_Block + b_size (mem s) b) by lia.
        apply (laid_out_ext (mem s)); [|exact L2]. intros x Hx. apply Hk. in_tac. }
    split; [exact Zbs|]. split; [exact Zbf|].
    split; [intros _; split; [exact Znf | exact Hns]|].
    split; [exact Hk|].
    split.
    { intros a Ha. apply Hby.
      - unfold sizeof_Block in *. lia.
      - unfold sizeof_Block in *. lia.
      - destruct Hnx as [Hnx|Hnx]; [left; exact Hnx | right].
        destruct (Bpost _ Hnx) as [G _]. unfold sizeof_Block, off_prev in *. lia. }
    intros x a Hx Ha. pose proof (b_size_range (mem s) x). apply Hby.
    + apply (Hpay x b a); [apply Hin, Hx | exact Hbin | exact Ha].
    + specialize (Hsepb x Hx).
      destruct (Hpw x b (Hin x Hx) Hbin) as [->|[G|G]];
        unfold sep, sizeof_Block in *; lia.
    + destruct Hnx as [Hnx|Hnx]; [left; exact Hnx | right].
      assert (G : a < hd NULL Post \/ hd NULL Post + sizeof_Block <= a).
      { apply (Hpay x _ a); [apply Hin, Hx | in_tac | exact Ha]. }
      unfold sizeof_Block, off_prev in *. lia.
  - (* without *)
    destruct (fields_set_size (mem s) b al) as (Zs & Zf & Zn & Zp).
    rewrite wrap64_small in Zs by lia.
    set (m' := set_size (mem s) b al) in *.
    assert (Hs : forall x, In x (Pre ++ Post) -> same_header (mem s) m' x).
    { intros x Hx. apply same_header_set_size, Hsepb, Hx. }
    assert (Hk : forall x, In x (Pre ++ Post) ->
              b_size m' x = b_size (mem s) x /\ b_free m' x = b_free (mem s) x).
    { intros x Hx. destruct (same_header_fields _ _ _ (Hs x Hx)) as (G1 & G2 & _). auto. }
    assert (Hby : forall a, a < b \/ b + sizeof_Block <= a -> load8 m' a = load8 (mem s) a).
    { intros a Ha. subst m'. unfold sizeof_Block in Ha. mem_simpl. reflexivity. }
    split.
    { apply (dll_ext (mem s)); [|exact Hdll]. intros x Hx.
      destruct (Z.eq_dec x b) as [->|Hne]; [auto|].
      apply (same_header_fields _ _ _ (Hs x ltac:(apply in_app_or in Hx as [G|[G|G]];
                                                 [in_tac | congruence | in_tac]))). }
    split.
    { apply laid_out_app. exists mid. split.
      - apply (laid_out_ext (mem s)); [|exact L1]. intros x Hx. apply Hk. in_tac.
      - cbn [laid_out]. split; [exact Hmid|]. rewrite Zs.
        apply (laid_out_lower _ _ (b + sizeof_Block + b_size (mem s) b)); [lia|].
        apply (laid_out_ext (mem s)); [|exact L2]. intros x Hx. apply Hk. in_tac. }
    split; [exact Zs|]. split; [exact Zf|].
    split; [intros G; lia|].
    split; [exact Hk|].
    split.
    { intros a Ha. apply Hby. subst p. lia. }
    intros x a Hx Ha. apply Hby.
    apply (Hpay x b a); [apply Hin, Hx | exact Hbin | exact Ha].
Qed.

Lemma my_realloc_shrinks_in_place_witness :
  exists s',
    my_realloc 5 (4096 + sizeof_Block) 8 heap_one_64 = Some (4096 + sizeof_Block, s')
    /\ brk s' = brk heap_one_64
    /\ dll (mem s') (head s')
         (if ALIGN 8 + 40 <=? b_size (mem heap_one_64) 4096
          then [] ++ 4096 :: (4096 + sizeof_Block + ALIGN 8) :: []
          else [] ++ 4096 :: [])
    /\ laid_out (mem s')
         (if ALIGN 8 + 40 <=? b_size (mem heap_one_64) 4096
          then [] ++ 4096 :: (4096 + sizeof_Block + ALIGN 8) :: []
          else [] ++ 4096 :: []) 1 (brk s')
    /\ b_size (mem s') 4096 = ALIGN 8
    /\ b_free (mem s') 4096 = b_free (mem heap_one_64) 4096
    /\ (ALIGN 8 + 40 <= b_size (mem heap_one_64) 4096 ->
        b_free (mem s') (4096 + sizeof_Block + ALIGN 8) = 1
        /\ b_size (mem s') (4096 + sizeof_Block + ALIGN 8)
           = b_size (mem heap_one_64) 4096 - ALIGN 8 - sizeof_Block)
    /\ (forall x, In x ([] ++ []) ->
        b_size (mem s') x = b_size (mem heap_one_64) x
        /\ b_free (mem s') x = b_free (mem heap_one_64) x)
    /\ (forall a, 4096 + sizeof_Block <= a < 4096 + sizeof_Block + ALIGN 8 ->
        load8 (mem s') a = load8 (mem heap_one_64) a)
    /\ (forall x a, In x ([] ++ []) ->
        x + sizeof_Block <= a < x + sizeof_Block + b_size (mem heap_one_64) x ->
        load8 (mem s') a = load8 (mem heap_one_64) a).
Proof.
  apply (my_realloc_shrinks_in_place 5 heap_one_64 [] [] 4096 8).
  - concrete_dll.
  - concrete_laid_out.
  - vm_compute. discriminate.
  - lia.
  - vm_compute. discriminate.
Defined.

(** ** Free writes into headers only *)

Lemma lseg_link_in (link : Z -> Z) (l : list Z) (a z : Z) :
  lseg link a l z -> forall x, In x l -> link x = z \/ In (link x) l.
Proof.
  revert a. induction l as [|y l IH]; intros a H x Hx; [destruct Hx|].
  destruct H as (-> & _ & H). destruct Hx as [<-|Hx].
  - destruct l as [|y' l']; [left; exact H | right; right].
    destruct H as (-> & _). left. reflexivity.
  - destruct (IH _ H x Hx) as [G|G]; [left; exact G | right; right; exact G].
Qed.

Lemma dll_linked_within (m : memory) (h : Z) (L : list Z) :
  dll m h L -> linked_within m L.
Proof.
  intros (Hf & Hb & _) x Hx. split.
  - apply (lseg_link_in _ _ _ _ Hf x Hx).
  - destruct (lseg_link_in _ _ _ _ Hb x (proj1 (in_rev L x) Hx)) as [G|G];
      [left; exact G | right; apply in_rev, G].
Qed.

Section FreeFrame.
Variable L : list Z.
Hypothesis HL_sep : all_sep L.
Hypothesis HL_range : forall x, In x L -> 0 < x < 2 ^ 64.

Lemma linked_within_ext (m m' : memory) :
  (forall x, In x L -> b_next m' x = b_next m x /\ b_prev m' x = b_prev m x) ->
  linked_within m L -> linked_within m' L.
Proof. intros He H x Hx. destruct (He x Hx) as [-> ->]. apply H, Hx. Qed.

Lemma target_wrap (v : Z) : v = NULL \/ In v L -> wrap64 v = v.
Proof.
  intros [->|Hv]; [reflexivity|]. apply wrap64_small. apply HL_range in Hv. lia.
Qed.

Lemma linked_within_set_size (m : memory) (y v : Z) :
  In y L -> linked_within m L -> linked_within (set_size m y v) L.
Proof.
  intros Hy. apply linked_within_ext. intros x Hx.
  destruct (Z.eq_dec y x) as [->|Hne].
  - destruct (fields_set_size m x v) as (_ & _ & A & B). auto.
  - destruct (same_header_fields _ _ _
                (same_header_set_size m y x v (all_sep_in L y x HL_sep Hy Hx Hne)))
      as (_ & _ & A & B). auto.
Qed.

Lemma linked_within_set_free (m : memory) (y v : Z) :
  In y L -> linked_within m L -> linked_within (set_free m y v) L.
Proof.
  intros Hy. apply linked_within_ext. intros x Hx.
  destruct (Z.eq_dec y x) as [->|Hne].
  - destruct (fields_set_free m x v) as (_ & _ & A & B). auto.
  - destruct (same_header_fields _ _ _
                (same_header_set_free m y x v (all_sep_in L y x HL_sep Hy Hx Hne)))
      as (_ & _ & A & B). auto.
Qed.

Lemma linked_within_set_next (m : memory) (y v : Z) :
  In y L -> v = NULL \/ In v L -> linked_within m L -> linked_within (set_next m y v) L.
Proof.
  intros Hy Hv H x Hx. destruct (Z.eq_dec y x) as [->|Hne].
  - destruct (fields_set_next m x v) as (_ & _ & -> & ->).
    rewrite (target_wrap v Hv). split; [exact Hv | apply H, Hx].
  - destruct (same_header_fields _ _ _
                (same_header_set_next m y x v (all_sep_in L y x HL_sep Hy Hx Hne)))
      as (_ & _ & -> & ->). apply H, Hx.
Qed.

Lemma linked_within_set_prev (m : memory) (y v : Z) :
  In y L -> v = NULL \/ In v L -> linked_within m L -> linked_within (set_prev m y v) L.
Proof.
  intros Hy Hv H x Hx. destruct (Z.eq_dec y x) as [->|Hne].
  - destruct (fields_set_prev m x v) as (_ & _ & -> & ->).
    rewrite (target_wrap v Hv). split; [apply H, Hx | exact Hv].
  - destruct (same_header_fields _ _ _
                (same_header_set_prev m y x v (all_sep_in L y x HL_sep Hy Hx Hne)))
      as (_ & _ & -> & ->). apply H, Hx.
Qed.

Lemma outside_set_size (m : memory) (y v a : Z) :
  In y L -> outside_headers L a -> load8 (set_size m y v) a = load8 m a.
Proof. intros Hy Ha. specialize (Ha y Hy). unfold sizeof_Block in Ha. mem_simpl. reflexivity. Qed.

Lemma outside_set_free (m : memory) (y v a : Z) :
  In y L -> outside_headers L a -> load8 (set_free m y v) a = load8 m a.
Proof. intros Hy Ha. specialize (Ha y Hy). unfold sizeof_Block in Ha. mem_simpl. reflexivity. Qed.

Lemma outside_set_next (m : memory) (y v a : Z) :
  In y L -> outside_headers L a -> load8 (set_next m y v) a = load8 m a.
Proof. intros Hy Ha. specialize (Ha y Hy). unfold sizeof_Block in Ha. mem_simpl. reflexivity. Qed.

Lemma outside_set_prev (m : memory) (y v a : Z) :
  In y L -> outside_headers L a -> load8 (set_prev m y v) a = load8 m a.
Proof. intros Hy Ha. specialize (Ha y Hy). unfold sizeof_Block in Ha. mem_simpl. reflexivity. Qed.

Lemma absorb_within (m : memory) (fb x : Z) :
  In fb L -> In x L -> linked_within m L ->
  linked_within (absorb m fb x) L
  /\ (forall a, outside_headers L a -> load8 (absorb m fb x) a = load8 m a).
Proof.
  intros Hfb Hx H. unfold absorb.
  set (m1 := set_size m x _).
  assert (H1 : linked_within m1 L) by (apply linked_within_set_size; assumption).
  set (m2 := set_next m1 x (b_next m1 fb)).
  assert (H2 : linked_within m2 L).
  { apply linked_within_set_next; [exact Hx | apply (H1 fb Hfb) | exact H1]. }
  assert (F2 : forall a, outside_headers L a -> load8 m2 a = load8 m a).
  { intros a Ha. subst m2 m1. rewrite outside_set_next, outside_set_size by assumption.
    reflexivity. }
  destruct (Z.eqb_spec (b_next m2 fb) NULL) as [E0|Hne]; [split; assumption|].
  assert (Hn : In (b_next m2 fb) L).
  { destruct (proj1 (H2 fb Hfb)) as [G|G]; [contradiction | exact G]. }
  split.
  - apply linked_within_set_prev; [exact Hn | right; exact Hx | exact H2].
  - intros a Ha. rewrite outside_set_prev by assumption. apply F2, Ha.
Qed.

Lemma free_link_within (m : memory) (fb cf : Z) :
  In fb L -> cf = NULL \/ In cf L -> linked_within m L ->
  linked_within (free_link m fb cf) L
  /\ (forall a, outside_headers L a -> load8 (free_link m fb cf) a = load8 m a).
Proof.
  intros Hfb Hcf H. unfold free_link.
  assert (H1 : linked_within (set_next m fb cf) L)
    by (apply linked_within_set_next; assumption).
  destruct (Z.eqb_spec cf NULL) as [E0|Hne].
  - split; [exact H1|]. intros a Ha. apply outside_set_next; assumption.
  - destruct Hcf as [Hcf|Hcf]; [contradiction|]. split.
    + apply linked_within_set_prev; [exact Hcf | right; exact Hfb | exact H1].
    + intros a Ha. rewrite outside_set_prev, outside_set_next by assumption. reflexivity.
Qed.

Lemma free_fwd_within (fuel : nat) :
  forall (m m' : memory) (fb c cf : Z),
    In fb L -> c = NULL \/ In c L -> linked_within m L ->
    free_fwd fuel m fb c = Some (m', cf) ->
    linked_within m' L /\ (cf = NULL \/ In cf L)
    /\ (forall a, outside_headers L a -> load8 m' a = load8 m a).
Proof.
  induction fuel as [|fuel IH]; intros m m' fb c cf Hfb Hc H E; [discriminate|].
  cbn [free_fwd] in E.
  destruct (negb (c =? NULL) && (b_free m c =? 1)) eqn:Ec.
  - apply andb_prop in Ec as [Ec _]. apply negb_true_iff, Z.eqb_neq in Ec.
    destruct Hc as [Hc|Hc]; [contradiction|].
    set (m1 := set_size m fb _) in E.
    assert (H1 : linked_within m1 L) by (apply linked_within_set_size; assumption).
    destruct (IH m1 m' fb (b_next m1 c) cf Hfb (proj1 (H1 c Hc)) H1 E) as (G1 & G2 & G3).
    split; [exact G1|]. split; [exact G2|].
    intros a Ha. rewrite (G3 a Ha). apply outside_set_size; assumption.
  - injection E as <- <-. auto.
Qed.

Lemma free_bck_within (fuel : nat) :
  forall (m m' : memory) (fb c : Z),
    In fb L -> c = NULL \/ In c L -> linked_within m L ->
    free_bck fuel m fb c = Some m' ->
    forall a, outside_headers L a -> load8 m' a = load8 m a.
Proof.
  induction fuel as [|fuel IH]; intros m m' fb c Hfb Hc H E; [discriminate|].
  rewrite free_bck_unfold in E.
  destruct (negb (c =? NULL) && (b_free m c =? 1)) eqn:Ec.
  - apply andb_prop in Ec as [Ec _]. apply negb_true_iff, Z.eqb_neq in Ec.
    destruct Hc as [Hc|Hc]; [contradiction|].
    destruct (absorb_within m fb c Hfb Hc H) as (H1 & F1).
    intros a Ha.
    rewrite (IH (absorb m fb c) m' c _ Hc (proj2 (H1 c Hc)) H1 E a Ha).
    apply F1, Ha.
  - injection E as <-. reflexivity.
Qed.

Lemma free_mem_within (fuel : nat) (m m' : memory) (fb : Z) :
  In fb L -> linked_within m L -> free_mem fuel m fb = Some m' ->
  forall a, outside_headers L a -> load8 m' a = load8 m a.
Proof.
  intros Hfb H E a Ha. unfold free_mem in E. cbv zeta in E.
  set (m0 := set_free m fb 1) in E.
  assert (H0 : linked_within m0 L) by (apply linked_within_set_free; assumption).
  destruct (free_fwd fuel m0 fb (b_next m0 fb)) as [[m1 cf]|] eqn:E1; [|discriminate].
  destruct (free_fwd_within fuel m0 m1 fb _ cf Hfb (proj1 (H0 fb Hfb)) H0 E1)
    as (H1 & Hcf & F1).
  destruct (free_link_within m1 fb cf Hfb Hcf H1) as (H2 & F2).
  rewrite (free_bck_within fuel _ m' fb _ Hfb (proj2 (H2 fb Hfb)) H2 E a Ha).
  rewrite (F2 a Ha), (F1 a Ha). apply outside_set_free; assumption.
Qed.
End FreeFrame.

Lemma laid_out_hd_span (m : memory) (R : list Z) (lo hi d : Z) :
  laid_out m R lo hi -> R <> [] -> lo <= hd d R /\ hd d R + span m R <= hi.
Proof.
  destruct R as [|x R]; [congruence|]. intros [Hx H] _. cbn [hd span].
  split; [exact Hx|]. apply laid_out_span in H. lia.
Qed.

(** Free on a well-linked list returns and leaves alone what is not a
    header, and the blocks in use. *)
Lemma free_heap_spec (fuel : nat) (s : state) (A B : list Z) (fb : Z) :
  dll (mem s) (head s) (A ++ fb :: B) ->
  (length (A ++ fb :: B) < fuel)%nat ->
  exists s' L',
    my_free fuel (fb + sizeof_Block) s = Some s'
    /\ head s' = head s /\ last s' = last s /\ brk s' = brk s /\ err s' = err s
    /\ dll (mem s') (head s') L'
    /\ (forall a, outside_headers (A ++ fb :: B) a ->
        load8 (mem s') a = load8 (mem s) a)
    /\ (forall y, In y (A ++ fb :: B) -> y <> fb -> b_free (mem s) y <> 1 ->
        In y L' /\ b_size (mem s') y = b_size (mem s) y
        /\ b_free (mem s') y = b_free (mem s) y)
    /\ (forall hi, laid_out (mem s) (A ++ fb :: B) 1 hi -> hi <= 2 ^ 63 ->
        laid_out (mem s') L' 1 hi
        /\ span (mem s') L' = span (mem s) (A ++ fb :: B)).
Proof.
  intros Hdll Hfuel.
  destruct (free_suffix_split (mem s) A) as (P1 & P2 & EA & HfP & HsP).
  destruct (free_prefix_split (mem s) B) as (N1 & N2 & EB & HfN & HsN).
  assert (EL : A ++ fb :: B = P1 ++ P2 ++ fb :: N1 ++ N2).
  { rewrite EA, EB, <- app_assoc. reflexivity. }
  assert (HlP : (length P2 < fuel)%nat).
  { rewrite EL, !length_app in Hfuel. lia. }
  assert (HlN : (length N1 < fuel)%nat).
  { rewrite EL, !length_app in Hfuel. cbn [length] in Hfuel.
    rewrite length_app in Hfuel. lia. }
  pose proof Hdll as Hdll'. rewrite EL in Hdll'.
  destruct (free_mem_spec fuel (mem s) (head s) P1 P2 N1 N2 fb
              Hdll' HfP HfN HsP HsN HlP HlN) as (m' & E & Hd & _ & Hsz & Hk).
  assert (Hfb : In fb (A ++ fb :: B)) by in_tac.
  assert (Hr : 0 < fb < 2 ^ 64) by (apply (proj2 (proj2 (proj2 Hdll))), Hfb).
  exists (with_mem s m'), (P1 ++ hd fb P2 :: N2).
  rewrite my_free_free_mem by (unfold NULL, sizeof_Block; lia).
  replace (fb + sizeof_Block - sizeof_Block) with fb by lia. rewrite E.
  split; [reflexivity|]. cbn [mem with_mem head last brk err].
  do 4 (split; [reflexivity|]). split; [exact Hd|].
  split.
  { pose proof (dll_linked_within _ _ _ Hdll) as Hlw.
    destruct Hdll as (_ & _ & Hs & Hrg).
    apply (free_mem_within (A ++ fb :: B) Hs Hrg fuel (mem s) m' fb Hfb Hlw E). }
  split.
  { intros y Hy Hne Hused. rewrite EL in Hy.
    assert (Hin : In y (P1 ++ N2)).
    { apply in_app_or in Hy as [Hy|Hy]; [in_tac|].
      apply in_app_or in Hy as [Hy|[Hy|Hy]];
        [exfalso; apply Hused, HfP, Hy | congruence |].
      apply in_app_or in Hy as [Hy|Hy]; [exfalso; apply Hused, HfN, Hy | in_tac]. }
    split; [|apply Hk, Hin].
    apply in_app_or in Hin as [G|G]; in_tac. }
  intros hi Hlay Hhi. rewrite EL in Hlay |- *.
  apply laid_out_app in Hlay as (mid1 & L1 & L23).
  replace (P2 ++ fb :: N1 ++ N2) with ((P2 ++ fb :: N1) ++ N2) in L23 |- *
    by (rewrite <- app_assoc; reflexivity).
  apply laid_out_app in L23 as (mid2 & L2 & L3).
  pose proof (laid_out_le _ _ _ _ L1) as Hle1.
  pose proof (laid_out_le _ _ _ _ L3) as Hle3.
  destruct (laid_out_hd_span _ _ _ _ fb L2) as (Hh1 & Hh2);
    [destruct P2; discriminate|].
  assert (Ehd : hd fb (P2 ++ fb :: N1) = hd fb P2) by (destruct P2; reflexivity).
  rewrite Ehd in Hh1, Hh2.
  assert (Esp : span (mem s) (P2 ++ fb :: N1)
                = sizeof_Block + (b_size (mem s) fb + span (mem s) P2 + span (mem s) N1)).
  { rewrite span_app. cbn [span]. lia. }
  pose proof (span_nonneg (mem s) P2). pose proof (span_nonneg (mem s) N1).
  pose proof (b_size_range (mem s) fb).
  rewrite wrap64_small in Hsz by (unfold sizeof_Block in *; lia).
  assert (K1 : forall x, In x P1 -> b_size m' x = b_size (mem s) x)
    by (intros x Hx; apply Hk; in_tac).
  assert (K2 : forall x, In x N2 -> b_size m' x = b_size (mem s) x)
    by (intros x Hx; apply Hk; in_tac).
  split.
  - apply laid_out_app. exists mid1. split; [apply (laid_out_ext (mem s)); assumption|].
    cbn [laid_out]. split; [exact Hh1|].
    apply (laid_out_lower _ _ mid2); [rewrite Hsz; lia|].
    apply (laid_out_ext (mem s)); assumption.
  - rewrite !span_app. cbn [span]. rewrite Hsz, (span_ext _ _ _ K1), (span_ext _ _ _ K2).
    lia.
Qed.


(** X12.  Free of a block of a well-linked list, with fuel for the length
    of the list: the call returns; every byte that belongs to no header
    of the list is as before, which on a list laid out in address order
    covers the payload of every block; and every other block that is in
    use keeps its size and its flag. *)
Theorem my_free_touches_headers_only
    (fuel : nat) (s : state) (A B : list Z) (fb : Z) :
  dll (mem s) (head s) (A ++ fb :: B) ->
  (length (A ++ fb :: B) < fuel)%nat ->
  exists s',
    my_free fuel (fb + sizeof_Block) s = Some s'
    /\ (forall a, outside_headers (A ++ fb :: B) a ->
        load8 (mem s') a = load8 (mem s) a)
    /\ (forall lo hi x a, laid_out (mem s) (A ++ fb :: B) lo hi ->
        In x (A ++ fb :: B) ->
        x + sizeof_Block <= a < x + sizeof_Block + b_size (mem s) x ->
        load8 (mem s') a = load8 (mem s) a)
    /\ (forall y, In y (A ++ fb :: B) -> y <> fb -> b_free (mem s) y <> 1 ->
        b_size (mem s') y = b_size (mem s) y /\ b_free (mem s') y = b_free (mem s) y).
Proof.
  intros Hdll Hfuel.
  destruct (free_heap_spec fuel s A B fb Hdll Hfuel)
    as (s' & L' & E & _ & _ & _ & _ & _ & Hfr & Hk & _).
  exists s'. split; [exact E|]. split; [exact Hfr|]. split.
  - intros lo hi x a Hlay Hx Ha. apply Hfr. intros y Hy.
    apply (laid_out_payload _ _ _ _ x y a Hlay Hx Hy Ha).
  - intros y Hy Hne Hused. apply (Hk y Hy Hne Hused).
Qed.

Lemma my_free_touches_headers_only_witness :
  exists s',
    my_free 8 (4288 + sizeof_Block) heap_shrunk = Some s'
    /\ (forall a, outside_headers ([4096; 4136; 4192] ++ 4288 :: [4328]) a ->
        load8 (mem s') a = load8 (mem heap_shrunk) a)
    /\ (forall lo hi x a,
        laid_out (mem heap_shrunk) ([4096; 4136; 4192] ++ 4288 :: [4328]) lo hi ->
        In x ([4096; 4136; 4192] ++ 4288 :: [4328]) ->
        x + sizeof_Block <= a < x + sizeof_Block + b_size (mem heap_shrunk) x ->
        load8 (mem s') a = load8 (mem heap_shrunk) a)
    /\ (forall y, In y ([4096; 4136; 4192] ++ 4288 :: [4328]) -> y <> 4288 ->
        b_free (mem heap_shrunk) y <> 1 ->
        b_size (mem s') y = b_size (mem heap_shrunk) y
        /\ b_free (mem s') y = b_free (mem heap_shrunk) y).
Proof.
  apply (my_free_touches_headers_only 8 heap_shrunk [4096; 4136; 4192] [4328] 4288).
  - concrete_dll.
  - cbn. lia.
Defined.

(** X17.  Free of a block of a list that is well linked and laid out in
    address order below [hi]: the call returns, the list it leaves is
    again well linked and in address order below [hi], and its blocks
    occupy as many bytes, headers included, as before: coalescing moves
    the absorbed headers into the payload of the block that absorbs them. *)
Theorem my_free_keeps_address_order
    (fuel : nat) (s : state) (A B : list Z) (fb hi : Z) :
  dll (mem s) (head s) (A ++ fb :: B) ->
  laid_out (mem s) (A ++ fb :: B) 1 hi -> hi <= 2 ^ 63 ->
  (length (A ++ fb :: B) < fuel)%nat ->
  exists s' L',
    my_free fuel (fb + sizeof_Block) s = Some s'
    /\ dll (mem s') (head s') L'
    /\ laid_out (mem s') L' 1 hi
    /\ span (mem s') L' = span (mem s) (A ++ fb :: B).
Proof.
  intros Hdll Hlay Hhi Hfuel.
  destruct (free_heap_spec fuel s A B fb Hdll Hfuel)
    as (s' & L' & E & _ & _ & _ & _ & Hd & _ & _ & Ho).
  destruct (Ho hi Hlay Hhi) as [Hl Hs].
  exists s', L'. auto.
Qed.

Lemma my_free_keeps_address_order_witness :
  exists s' L',
    my_free 8 (4288 + sizeof_Block) heap_shrunk = Some s'
    /\ dll (mem s') (head s') L'
    /\ laid_out (mem s') L' 1 (brk heap_shrunk)
    /\ span (mem s') L' = span (mem heap_shrunk) ([4096; 4136; 4192] ++ 4288 :: [4328]).
Proof.
  apply (my_free_keeps_address_order 8 heap_shrunk [4096; 4136; 4192] [4328] 4288).
  - concrete_dll.
  - concrete_laid_out.
  - vm_compute. discriminate.
  - cbn. lia.
Defined.

(** ** Resize to a larger size *)

Lemma memcpy_spec (k : nat) :
  forall (m : memory) (dest src : Z),
    dest + Z.of_nat k <= src \/ src + Z.of_nat k <= dest ->
    (forall i, 0 <= i < Z.of_nat k ->
       load8 (memcpy k m dest src) (dest + i) = load8 m (src + i))
    /\ (forall a, a < dest \/ dest + Z.of_nat k <= a ->
        load8 (memcpy k m dest src) a = load8 m a).
Proof.
  induction k as [|k IH]; intros m dest src Hd.
  - split; [intros i Hi; lia | intros a _; reflexivity].
  - cbn [memcpy]. set (m1 := store8 m dest (load8 m src)).
    destruct (IH m1 (dest + 1) (src + 1) ltac:(lia)) as [IH1 IH2].
    assert (Hother : forall a, a <> dest -> load8 m1 a = load8 m a).
    { intros a Ha. subst m1. rewrite load8_store8.
      destruct (decide (dest = a)); [congruence | reflexivity]. }
    split.
    + intros i Hi. destruct (Z.eq_dec i 0) as [->|Hi0].
      * rewrite !Z.add_0_r. rewrite IH2 by lia. subst m1. rewrite load8_store8.
        destruct (decide (dest = dest)); [|congruence].
        apply Z.mod_small, load8_range.
      * replace (dest + i) with (dest + 1 + (i - 1)) by lia.
        rewrite IH1 by lia. replace (src + 1 + (i - 1)) with (src + i) by lia.
        apply Hother. lia.
    + intros a Ha. rewrite IH2 by lia. apply Hother. lia.
Qed.

(** X13.  Resize of a block in use to a size it does not cover, on a
    well-formed heap, when the inner Allocate succeeds: the call returns
    the new pointer, which differs from the old one; the new block is in
    use and covers the request; and the payload bytes of the old block
    are found at the new pointer. *)
Theorem my_realloc_moves_contents
    (fuel : nat) (s s1 : state) (A B : list Z) (b size q : Z) :
  heap_ok s (A ++ b :: B) -> b_free (mem s) b = 0 ->
  0 < size <= 2 ^ 62 - 8 -> b_size (mem s) b < ALIGN size ->
  (S (length (A ++ b :: B)) < fuel)%nat ->
  my_malloc fuel (ALIGN size) s = Some (q, s1) -> q <> NULL ->
  exists s',
    my_realloc fuel (b + sizeof_Block) size s = Some (q, s')
    /\ q <> b + sizeof_Block
    /\ (forall i, 0 <= i < b_size (mem s) b ->
        load8 (mem s') (q + i) = load8 (mem s) (b + sizeof_Block + i))
    /\ b_free (mem s') (q - sizeof_Block) = 0
    /\ ALIGN size <= b_size (mem s') (q - sizeof_Block)
    /\ brk s' = brk s1.
Proof.
  intros Hok Hused Hsize Hgrow Hfuel Hm Hq.
  pose proof (ALIGN_ge size ltac:(lia)) as Hal.
  assert (Eal : ALIGN (ALIGN size) = ALIGN size).
  { apply ALIGN_aligned; [apply ALIGN_range | apply ALIGN_mod8]. }
  pose proof (malloc_heap_spec fuel (ALIGN size) q s s1 (A ++ b :: B) Hok
                ltac:(lia) ltac:(lia) Hm Hq) as Hspec.
  rewrite Eal in Hspec. set (al := ALIGN size) in *.
  destruct Hspec as (L' & D1 & D2 & D3 & D4 & D5 & D6 & D7 & D8 & D9 & D10 & D11 & _).
  destruct Hok as (Hdll & Hlay & _ & Hbrk).
  pose proof (laid_out_pairwise _ _ _ _ Hlay) as Hpw.
  pose proof (laid_out_bounds _ _ _ _ Hlay) as Bnd.
  assert (Hbin : In b (A ++ b :: B)) by in_tac.
  destruct (Bnd b Hbin) as [Hb1 Hbe].
  pose proof (b_size_range (mem s) b) as Hbr.
  set (c := q - sizeof_Block) in *. set (p := b + sizeof_Block).
  set (n := b_size (mem s) b) in *.
  assert (Hcb : b <> c /\ (q + n <= p \/ p + n <= q)).
  { destruct D9 as [(Pre & Post & EL & _ & Hfit & _)|(_ & Ec & _)].
    - unfold fits in Hfit. apply andb_prop in Hfit as [Hf Hs].
      apply Z.eqb_eq in Hf. apply Z.leb_le in Hs.
      assert (Hne : b <> c) by (intros <-; lia). split; [exact Hne|].
      assert (Hc : In c (A ++ b :: B)) by (rewrite EL; in_tac).
      destruct (Hpw b c Hbin Hc) as [E|[G|G]]; [contradiction|right|left];
        subst c p; unfold sizeof_Block in *; lia.
    - split; [|right]; subst c p; unfold sizeof_Block in *; lia. }
  destruct Hcb as [Hcb Hdisj].
  destruct (D7 b Hbin Hcb) as (Hb' & Hs1 & Hf1).
  (* the copy *)
  set (m2 := memcpy (Z.to_nat n) (mem s1) q p).
  destruct (memcpy_spec (Z.to_nat n) (mem s1) q p ltac:(lia)) as [C1 C2].
  fold m2 in C1, C2. rewrite Z2Nat.id in C1, C2 by lia.
  assert (Hsame : forall x, In x L' -> same_header (mem s1) m2 x).
  { intros x Hx a Ha. apply C2. specialize (D6 x Hx). lia. }
  assert (Hd2 : dll m2 (head s1) L').
  { apply (dll_ext (mem s1)); [|exact D1]. intros x Hx.
    destruct (same_header_fields _ _ _ (Hsame x Hx)) as (_ & _ & G1 & G2). auto. }
  (* the old block is freed *)
  destruct (in_split b L' Hb') as (A' & B' & EL').
  rewrite EL' in Hd2.
  destruct (free_heap_spec fuel (with_mem s1 m2) A' B' b Hd2)
    as (s' & L'' & E & _ & _ & Eb & _ & _ & Hfr & Hk & _).
  { rewrite <- EL'. lia. }
  cbn [mem with_mem brk] in Hfr, Hk, Eb. rewrite <- EL' in Hfr, Hk.
  exists s'. split.
  { unfold my_realloc. fold al. fold p.
    destruct (Z.eqb_spec p NULL) as [E0|_];
      [subst p; unfold NULL, sizeof_Block in E0; lia|].
    destruct (Z.eqb_spec size 0) as [E0|_]; [lia|].
    replace (p - sizeof_Block) with b by (subst p; lia). fold n.
    destruct (Z.leb_spec al n); [lia|].
    destruct (Z.ltb_spec n al); [|lia].
    unfold realloc_grow. rewrite Hm.
    destruct (Z.eqb_spec q NULL); [contradiction|].
    replace (p - sizeof_Block) with b by (subst p; lia).
    rewrite Hs1. fold n. fold m2. fold p in E. rewrite E. reflexivity. }
  split; [subst c p; intros ->; apply Hcb; lia|].
  split.
  { intros i Hi. rewrite Hfr.
    - rewrite (C1 i Hi). apply (D8 b); [exact Hbin | exact Hcb|]. subst p. fold n. lia.
    - intros x Hx. specialize (D6 x Hx). lia. }
  destruct (same_header_fields _ _ _ (Hsame c D2)) as (G1 & G2 & _).
  destruct (Hk c D2 ltac:(congruence) ltac:(rewrite G2, D3; discriminate)) as (_ & K1 & K2).
  split; [rewrite K2, G2; exact D3|].
  split; [rewrite K1, G1; lia | exact Eb].
Qed.

Lemma my_realloc_moves_contents_witness :
  exists s',
    my_realloc 5 (4096 + sizeof_Block) 64 heap_one_block = Some (4192, s')
    /\ 4192 <> 4096 + sizeof_Block
    /\ (forall i, 0 <= i < b_size (mem heap_one_block) 4096 ->
        load8 (mem s') (4192 + i) = load8 (mem heap_one_block) (4096 + sizeof_Block + i))
    /\ b_free (mem s') (4192 - sizeof_Block) = 0
    /\ ALIGN 64 <= b_size (mem s') (4192 - sizeof_Block)
    /\ brk s' = brk (run_state (my_malloc 5 (ALIGN 64) heap_one_block) heap_one_block).
Proof.
  apply (my_realloc_moves_contents 5 heap_one_block
           (run_state (my_malloc 5 (ALIGN 64) heap_one_block) heap_one_block)
           [] [] 4096 64 4192).
  - split; [concrete_dll|]. split; [concrete_laid_out|].
    split; vm_compute; [reflexivity | split; [reflexivity | discriminate]].
  - vm_compute. reflexivity.
  - lia.
  - vm_compute. reflexivity.
  - cbn. lia.
  - vm_compute. reflexivity.
  - discriminate.
Defined.

(** ** Alignment of the pointers handed out *)

(** X14.  On a well-formed heap whose blocks and break are 8-byte
    aligned, a pointer returned by Allocate is 8-byte aligned, and the
    blocks and the break are aligned afterwards as well. *)
Theorem my_malloc_pointer_aligned
    (fuel : nat) (size p : Z) (s s' : state) (L : list Z) :
  heap_ok s L -> (forall x, In x L -> x mod 8 = 0) -> brk s mod 8 = 0 ->
  0 <= size <= 2 ^ 62 -> (length L < fuel)%nat ->
  my_malloc fuel size s = Some (p, s') -> p <> NULL ->
  p mod 8 = 0 /\ brk s' mod 8 = 0
  /\ exists L', dll (mem s') (head s') L' /\ forall x, In x L' -> x mod 8 = 0.
Proof.
  intros Hok HL Hb Hsize Hfuel Hm Hp.
  destruct (malloc_heap_spec fuel size p s s' L Hok Hsize Hfuel Hm Hp)
    as (L' & D1 & _ & _ & _ & _ & _ & _ & _ & D9 & _ & _ & D12).
  pose proof (ALIGN_mod8 size) as Ha.
  assert (H32 : forall z, z mod 8 = 0 -> (z + sizeof_Block) mod 8 = 0).
  { intros z Hz. unfold sizeof_Block. rewrite Z.add_mod, Hz by lia. reflexivity. }
  assert (Hadd : forall y z, y mod 8 = 0 -> z mod 8 = 0 -> (y + z) mod 8 = 0).
  { intros y z Hy Hz. rewrite Z.add_mod, Hy, Hz by lia. reflexivity. }
  assert (Hpa : p mod 8 = 0).
  { replace p with (p - sizeof_Block + sizeof_Block) by lia. apply H32.
    destruct D9 as [(Pre & Post & EL & _)|(_ & -> & _)]; [|exact Hb].
    apply HL. rewrite EL. in_tac. }
  split; [exact Hpa|]. split.
  - destruct D9 as [(_ & _ & _ & _ & _ & ->)|(_ & _ & _ & ->)]; [exact Hb|].
    apply H32, Hadd; assumption.
  - exists L'. split; [exact D1|]. intros x Hx.
    destruct (D12 x Hx) as [G|[ -> | -> ]]; [apply HL, G | | apply Hadd; assumption].
    replace (p - sizeof_Block) with (p + (-4) * 8) by (unfold sizeof_Block; lia).
    rewrite Z.mod_add by lia. exact Hpa.
Qed.

Lemma my_malloc_pointer_aligned_witness :
  4128 mod 8 = 0 /\ brk heap_24_taken mod 8 = 0
  /\ exists L', dll (mem heap_24_taken) (head heap_24_taken) L'
                /\ forall x, In x L' -> x mod 8 = 0.
Proof.
  apply (my_malloc_pointer_aligned 5 16 4128 heap_free_24 heap_24_taken [4096]).
  - split; [concrete_dll|]. split; [concrete_laid_out|].
    split; vm_compute; [reflexivity | split; [reflexivity | discriminate]].
  - intros x [<-|[]]. reflexivity.
  - vm_compute. reflexivity.
  - lia.
  - cbn. lia.
  - vm_compute. reflexivity.
  - discriminate.
Defined.

(** ** The first-fit walk ends *)

(** X15.  On a list that ends in null, Allocate returns once the fuel
    exceeds the length of the list, and what it returns does not depend
    on the fuel. *)
Theorem my_malloc_returns (size : Z) (s : state) (L : list Z) :
  lseg (b_next (mem s)) (head s) L NULL ->
  exists r, forall fuel, (length L < fuel)%nat -> my_malloc fuel size s = Some r.
Proof.
  intros Hseg. unfold my_malloc.
  destruct (first_fit_split (mem s) (ALIGN size) L)
    as [Hnone|(Pre & b & Post & -> & Hpre & Hb)].
  - exists (malloc_grow (ALIGN size) s). intros fuel Hfuel.
    apply (malloc_loop_none_fit L); assumption.
  - exists (malloc_reuse (ALIGN size) b s). intros fuel Hfuel.
    apply lseg_app in Hseg as (a & H1 & H2). destruct H2 as (-> & Hb0 & _).
    rewrite length_app in Hfuel. cbn [length] in Hfuel.
    apply (malloc_loop_found Pre); (assumption || lia).
Qed.

Lemma my_malloc_returns_witness :
  exists r, forall fuel, (length [4096; 4136; 4192; 4288; 4328] < fuel)%nat ->
                         my_malloc fuel 100 heap_shrunk = Some r.
Proof.
  apply (my_malloc_returns 100 heap_shrunk [4096; 4136; 4192; 4288; 4328]).
  concrete_lseg.
Defined.

(** ** Zero-Allocate on a well-formed heap *)

(** X16.  Zero-Allocate on a well-formed heap, when it returns a pointer
    [p]: the block behind [p] is in the list, in use and large enough for
    [value * size] bytes, all of them zero; the list is still well linked
    (the zero-fill stays inside the block), and the payloads of the other
    blocks are as before. *)
Theorem my_calloc_on_heap
    (fuel : nat) (value size p : Z) (s s' : state) (L : list Z) :
  heap_ok s L -> 0 < value -> 0 < size -> value * size <= 2 ^ 62 ->
  (length L < fuel)%nat ->
  my_calloc fuel value size s = Returns (p, s') -> p <> NULL ->
  exists L',
    dll (mem s') (head s') L'
    /\ In (p - sizeof_Block) L'
    /\ b_free (mem s') (p - sizeof_Block) = 0
    /\ value * size <= b_size (mem s') (p - sizeof_Block)
    /\ p + value * size <= brk s'
    /\ (forall i, 0 <= i < value * size -> load8 (mem s') (p + i) = 0)
    /\ (forall x a, In x L -> x <> p - sizeof_Block ->
        x + sizeof_Block <= a < x + sizeof_Block + b_size (mem s) x ->
        load8 (mem s') a = load8 (mem s) a).
Proof.
  intros Hok Hv Hs Hfit Hfuel Hc Hp.
  assert (Hv' : value < 2 ^ 64) by nia. assert (Hs' : size < 2 ^ 64) by nia.
  unfold my_calloc, calloc_with in Hc.
  destruct (Z.eqb_spec size 0); [lia|]. destruct (Z.eqb_spec value 0); [lia|].
  cbn [orb] in Hc. rewrite overflow_detected in Hc by lia.
  destruct (Z.ltb_spec (size * value) (2 ^ 64)); [|lia]. cbn [negb] in Hc.
  rewrite wrap64_small in Hc by nia. rewrite (Z.mul_comm size value) in Hc.
  set (T := value * size) in *.
  destruct (my_malloc fuel T s) as [[np s1]|] eqn:Hm; [|discriminate].
  destruct (Z.eqb_spec np NULL) as [->|Hnp];
    [injection Hc as <- _; contradiction|].
  destruct (calloc_loop (Z.to_nat T) s1 (mem s1) np 0) as [m2|] eqn:Hl; [|discriminate].
  injection Hc as -> <-. cbn [mem with_mem head brk].
  destruct (malloc_heap_spec fuel T p s s1 L Hok ltac:(lia) Hfuel Hm Hp)
    as (L' & D1 & D2 & D3 & D4 & D5 & D6 & _ & D8 & D9 & _ & D11 & _).
  assert (Hb1 : brk s1 < 2 ^ 64).
  { destruct Hok as (_ & _ & _ & Hbrk). pose proof (ALIGN_ge T ltac:(lia)).
    destruct D9 as [(_ & _ & _ & _ & _ & ->)|(_ & _ & _ & ->)];
      unfold sizeof_Block; lia. }
  assert (Hp0 : 0 < p - sizeof_Block) by (apply (proj2 (proj2 (proj2 D1))), D2).
  destruct (calloc_loop_some (Z.to_nat T) s1 (mem s1) m2 p 0) as [-> _];
    [unfold sizeof_Block in *; lia | rewrite Z2Nat.id by lia; lia | exact Hl |].
  assert (Hout : forall a, a < p \/ p + ALIGN T <= a ->
                 load8 (zero_fill (Z.to_nat T) (mem s1) p 0) a = load8 (mem s1) a).
  { intros a Ha. rewrite zero_fill_load8, Z2Nat.id by lia.
    destruct (Z.leb_spec (p + 0) a), (Z.ltb_spec a (p + 0 + T));
      simpl; try reflexivity; lia. }
  assert (Hsame : forall x, In x L' ->
            same_header (mem s1) (zero_fill (Z.to_nat T) (mem s1) p 0) x).
  { intros x Hx a Ha. apply Hout. specialize (D6 x Hx). lia. }
  destruct (same_header_fields _ _ _ (Hsame _ D2)) as (G1 & G2 & _).
  exists L'.
  split.
  { apply (dll_ext (mem s1)); [|exact D1]. intros x Hx.
    destruct (same_header_fields _ _ _ (Hsame x Hx)) as (_ & _ & K1 & K2). auto. }
  split; [exact D2|]. split; [rewrite G2; exact D3|].
  split; [rewrite G1; lia|]. split; [lia|].
  split.
  - intros i Hi. rewrite zero_fill_load8, Z2Nat.id by lia.
    destruct (Z.leb_spec (p + 0) (p + i)), (Z.ltb_spec (p + i) (p + 0 + T));
      simpl; try reflexivity; lia.
  - intros x a Hx Hne Ha. rewrite Hout by (apply (D11 x a); assumption).
    apply (D8 x a); assumption.
Qed.

Lemma my_calloc_on_heap_witness :
  exists L',
    dll (mem heap_two_used) (head heap_two_used) L'
    /\ In (4192 - sizeof_Block) L'
    /\ b_free (mem heap_two_used) (4192 - sizeof_Block) = 0
    /\ 4 * 4 <= b_size (mem heap_two_used) (4192 - sizeof_Block)
    /\ 4192 + 4 * 4 <= brk heap_two_used
    /\ (forall i, 0 <= i < 4 * 4 -> load8 (mem heap_two_used) (4192 + i) = 0)
    /\ (forall x a, In x [4096] -> x <> 4192 - sizeof_Block ->
        x + sizeof_Block <= a < x + sizeof_Block + b_size (mem heap_one_block) x ->
        load8 (mem heap_two_used) a = load8 (mem heap_one_block) a).
Proof.
  apply (my_calloc_on_heap 5 4 4 4192 heap_one_block heap_two_used [4096]).
  - split; [concrete_dll|]. split; [concrete_laid_out|].
    split; vm_compute; [reflexivity | split; [reflexivity | discriminate]].
  - lia.
  - lia.
  - lia.
  - cbn. lia.
  - vm_compute. reflexivity.
  - discriminate.
Defined.
